(** * Tiling and detection fusion of the SAHI clone: model and properties

    This development embeds three source files:

    - [components/CropComponent.py]   (class [CropComponent]),
    - [nodes/MakeCropsDetectThem.py]  (methods [get_crops_xy] and
      [_detect_objects]),
    - [nodes/CombineDetections.py]    (methods [combinate_detections],
      [intersect_over_union], [intersect_over_smaller] and [nms]).

    Conventions of the embedding.

    - Python [int] values are [Z]; the [int64] cells of a numpy array are
      [Z] with the wrap-around of the addition written out ([np_add]).
    - Arithmetic is embedded at two levels.  The first part idealises
      Python and torch floating-point numbers as exact rationals ([Q]),
      keeping of IEEE arithmetic the result of a division by zero: a torch
      division yields an [fval], which is a finite rational, an infinity
      or a NaN, and every comparison with a NaN is false.  It carries what
      does not depend on rounding: shapes, numbering, exceptions, masks
      and the control flow of the loops.  The module [Fp] embeds the
      numeric parts of [get_crops_xy] and [nms] again with the arithmetic
      the code executes (binary64 Python floats, [int64] and [float32]
      tensors); what depends on a comparison, a rounding or a truncation
      of a computed number is stated over [Fp].
    - A raised exception is a value [Raise e] of the [result] monad.
    - Pixel contents of images are abstracted to their shape; a binary
      mask is the row-major list of its pixels.
    - The detector and OpenCV are outside the repository: a prediction is
      an argument of [calculate_inference], and the resizing of a mask is
      a variable of the section of [calculate_real_values]. *)

From Stdlib Require Import String ZArith QArith Qround Qminmax List Bool Arith
  Lia Lqa Permutation Sorted SpecFloat.
From Equations Require Import Equations.
From Equations.Prop Require Import Logic.
Import ListNotations.

Set Implicit Arguments.

(** ** Exceptions *)

Inductive PyError : Type :=
| ValueError          (* raise ValueError, numpy broadcast failure *)
| TypeError           (* iterating or adding None *)
| IndexError          (* index out of range *)
| ZeroDivisionError   (* Python float division by zero *)
| AttributeError      (* attribute access on None *)
| Cv2Error            (* cv2.error raised by cv2.resize *)
| OverflowError       (* a Python int or float out of range *)
| RuntimeError.       (* torch refusing a Python int beyond int64 *)

Inductive result (A : Type) : Type :=
| Ok (a : A)
| Raise (e : PyError).

Arguments Ok {A} a.
Arguments Raise {A} e.

Definition bind {A B : Type} (m : result A) (k : A -> result B) : result B :=
  match m with
  | Ok a => k a
  | Raise e => Raise e
  end.

Declare Scope py_scope.
Delimit Scope py_scope with py.
Notation "x <- m ;; k" := (bind m (fun x => k))
  (at level 61, m at next level, right associativity) : py_scope.
Notation "' p <- m ;; k" := (bind m (fun p => k))
  (at level 61, p pattern, m at next level, right associativity) : py_scope.
Open Scope py_scope.

(** [[f(x) for x in l]] where [f] may raise: the first failure aborts. *)
Fixpoint mapM {A B : Type} (f : A -> result B) (l : list A) : result (list B) :=
  match l with
  | [] => Ok []
  | x :: xs => y <- f x ;; ys <- mapM f xs ;; Ok (y :: ys)
  end.

(** [l[i]] on a Python list or a tensor with a non-negative index. *)
Definition getitem {A : Type} (l : list A) (i : nat) : result A :=
  match nth_error l i with
  | Some a => Ok a
  | None => Raise IndexError
  end.

(** ** Numbers *)

Open Scope Q_scope.

Definition Qltb (a b : Q) : bool := negb (Qle_bool b a).

(** Python [int(x)] on a float: truncation toward zero. *)
Definition py_int (q : Q) : Z := Z.quot (Qnum q) (Zpos (Qden q)).

(** Python [round(x)]: nearest integer, ties to the even one. *)
Definition py_round (q : Q) : Z :=
  let f := Qfloor q in
  let d := q - inject_Z f in
  if Qltb d (1 # 2) then f
  else if Qltb (1 # 2) d then (f + 1)%Z
  else if Z.even f then f else (f + 1)%Z.

(** Python [round(x, 1)]: nearest multiple of one tenth, ties to even. *)
Definition py_round1 (q : Q) : Q := inject_Z (py_round (q * 10)) / 10.

(** Python float division [a / b]. *)
Definition py_div (a b : Q) : result Q :=
  if Qeq_bool b 0 then Raise ZeroDivisionError else Ok (a / b).

(** Values of a torch floating-point division. *)
Inductive fval : Type :=
| Fin (q : Q)
| PInf
| NInf
| NaN.

(** torch [a / b] elementwise. *)
Definition torch_div (a b : Q) : fval :=
  if Qeq_bool b 0 then
    if Qeq_bool a 0 then NaN
    else if Qltb 0 a then PInf else NInf
  else Fin (a / b).

(** [v < t] and [v > t] for a tensor element [v] and a finite scalar [t]. *)
Definition fval_ltb (v : fval) (t : Q) : bool :=
  match v with
  | Fin q => Qltb q t
  | NInf => true
  | PInf | NaN => false
  end.

Definition fval_gtb (v : fval) (t : Q) : bool :=
  match v with
  | Fin q => Qltb t q
  | PInf => true
  | NInf | NaN => false
  end.

(** numpy [int64] addition. *)
Definition int64_wrap (z : Z) : Z :=
  ((z + 2 ^ 63) mod 2 ^ 64 - 2 ^ 63)%Z.

Definition np_add (a b : Z) : Z := int64_wrap (a + b).

Definition in_int32 (z : Z) : Prop := (- 2 ^ 31 <= z < 2 ^ 31)%Z.

(** [range(n)] for a Python int [n]. *)
Definition py_range (n : Z) : list Z := map Z.of_nat (seq 0 (Z.to_nat n)).

(** ** components/CropComponent.py *)

(** The [.shape] of an image array: rows, then columns. *)
Record Shape : Type := mkShape { shape0 : Z; shape1 : Z }.

(** A binary mask, row-major. *)
Definition Mask : Type := list bool.

(** A box [[x1, y1, x2, y2]] with integer cells. *)
Record IBox : Type := mkIBox { ix1 : Z; iy1 : Z; ix2 : Z; iy2 : Z }.

Record CropComponent : Type := mkCrop {
  source_image : Shape;
  source_image_resized : Shape;
  crop : Shape;
  number_of_crop : Z;
  x_start : Z;
  y_start : Z;
  detected_conf : option (list Q);
  detected_cls : option (list Z);
  detected_xyxy : option (list IBox);
  detected_masks : option (list Mask);
  detected_xyxy_real : option (list IBox);
  detected_masks_real : option (list Mask)
}.

(** [CropComponent.__init__]: the six detection fields start as [None]. *)
Definition CropComponent_init (source_image source_image_resized crop : Shape)
    (number_of_crop x_start y_start : Z) : CropComponent :=
  mkCrop source_image source_image_resized crop number_of_crop x_start y_start
         None None None None None None.

(** What [model.predict(...)[0]] exposes to [calculate_inference]. *)
Record Prediction : Type := mkPrediction {
  pred_xyxy : list IBox;
  pred_cls : list Z;
  pred_conf : list Q;
  pred_masks : option (list Mask)
}.

Definition calculate_inference (pred : Prediction) (segment : bool)
    (c : CropComponent) : result CropComponent :=
  let xyxy := pred_xyxy pred in
  let cls := pred_cls pred in
  let conf := pred_conf pred in
  if segment && negb (Nat.eqb (length cls) 0) then
    match pred_masks pred with
    | None => Raise AttributeError
    | Some ms =>
        Ok (mkCrop (source_image c) (source_image_resized c) (crop c)
              (number_of_crop c) (x_start c) (y_start c)
              (Some conf) (Some cls) (Some xyxy) (Some ms)
              (detected_xyxy_real c) (detected_masks_real c))
    end
  else
    Ok (mkCrop (source_image c) (source_image_resized c) (crop c)
          (number_of_crop c) (x_start c) (y_start c)
          (Some conf) (Some cls) (Some xyxy) (detected_masks c)
          (detected_xyxy_real c) (detected_masks_real c)).

(** One row of [np.array(detected_xyxy) + np.array([[xs, ys, xs, ys]])]. *)
Definition add_offset (xs ys : Z) (b : IBox) : IBox :=
  mkIBox (np_add (ix1 b) xs) (np_add (iy1 b) ys)
         (np_add (ix2 b) xs) (np_add (iy2 b) ys).

Section CalculateRealValues.

(** [cv2.resize(mask, (width, height), interpolation=cv2.INTER_NEAREST)]
    is a routine of OpenCV; the model takes it as given. *)
Variable cv2_resize_nearest : Mask -> Z * Z -> Mask.

(** [calculate_real_values].  The sum broadcasts an (n,4) array against
    a (1,4) one; [np.array([])] has shape (0,), which does not broadcast
    against (1,4), and [np.array(None)] holds [None], which cannot be
    added to an integer. *)
Definition calculate_real_values (c : CropComponent) : result CropComponent :=
  let x_start_global := x_start c in
  let y_start_global := y_start c in
  real <- match detected_xyxy c with
          | None => Raise TypeError
          | Some [] => Raise ValueError
          | Some bs => Ok (map (add_offset x_start_global y_start_global) bs)
          end ;;
  let masks_real :=
    match detected_masks c with
    | Some ms =>
        Some (map (fun mask =>
                     cv2_resize_nearest mask
                       (shape1 (source_image_resized c),
                        shape0 (source_image_resized c))) ms)
    | None => detected_masks_real c
    end in
  Ok (mkCrop (source_image c) (source_image_resized c) (crop c)
        (number_of_crop c) (x_start c) (y_start c)
        (detected_conf c) (detected_cls c) (detected_xyxy c)
        (detected_masks c) (Some real) masks_real).

End CalculateRealValues.

(** ** nodes/MakeCropsDetectThem.py *)

(** Length of the slice [a[start:stop]] of an axis of length [n]. *)
Definition py_slice_len (n start stop : Z) : Z :=
  let norm := fun k => if (k <? 0)%Z then Z.max 0 (k + n) else Z.min k n in
  Z.max 0 (norm stop - norm start).

(** [1 - (overlap / 100)] *)
Definition cross_koef (overlap : Q) : Q := 1 - overlap / 100.

(** [int((image_dim - shape) / (shape * cross_koef)) + 1] *)
Definition steps (image_dim shape : Z) (koef : Q) : result Z :=
  q <- py_div (inject_Z (image_dim - shape)) (inject_Z shape * koef) ;;
  Ok (py_int q + 1)%Z.

(** [round((steps - 1) * (shape * cross_koef) + shape)] *)
Definition new_dim (steps shape : Z) (koef : Q) : Z :=
  py_round (inject_Z (steps - 1) * (inject_Z shape * koef) + inject_Z shape).

(** [int(shape * j * cross_koef)] *)
Definition start (shape j : Z) (koef : Q) : Z :=
  py_int (inject_Z (shape * j) * koef).

(** [cv2.resize(image, (x_new, y_new))]: OpenCV refuses an empty source
    and an empty destination size. *)
Definition cv2_resize (image : Shape) (x_new y_new : Z) : result Shape :=
  if ((shape0 image <=? 0) || (shape1 image <=? 0))%Z then Raise Cv2Error
  else if ((x_new <=? 0) || (y_new <=? 0))%Z then Raise Cv2Error
  else Ok (mkShape y_new x_new).

Section GetCropsXY.

Variables (image_innitial image_full : Shape).
Variables (shape_x shape_y : Z) (cross_koef_x cross_koef_y : Q).

(** The body of the inner loop at [(i, j)], on the pair
    [(count, data_all_crops)]. *)
Definition crop_body (i j : Z) (st : Z * list CropComponent)
    : Z * list CropComponent :=
  let '(count, data_all_crops) := st in
  let x_start := start shape_x j cross_koef_x in
  let y_start := start shape_y i cross_koef_y in
  if (shape1 image_full <? x_start + shape_x)%Z then st
  else if (shape0 image_full <? y_start + shape_y)%Z then st
  else
    let im_temp :=
      mkShape (py_slice_len (shape0 image_full) y_start (y_start + shape_y))
              (py_slice_len (shape1 image_full) x_start (x_start + shape_x)) in
    let count := (count + 1)%Z in
    (count,
     data_all_crops ++
       [CropComponent_init image_innitial image_full im_temp count
          x_start y_start]).

Definition crop_loops (y_steps x_steps : Z) : Z * list CropComponent :=
  fold_left
    (fun st i => fold_left (fun st j => crop_body i j st) (py_range x_steps) st)
    (py_range y_steps) (0%Z, []).

End GetCropsXY.

(** [get_crops_xy] (the plotting under [show] has no effect on the result). *)
Definition get_crops_xy (image_full : Shape) (shape_x shape_y : Z)
    (overlap_x overlap_y : Q) : result (list CropComponent) :=
  let cross_koef_x := cross_koef overlap_x in
  let cross_koef_y := cross_koef overlap_y in
  y_steps <- steps (shape0 image_full) shape_y cross_koef_y ;;
  x_steps <- steps (shape1 image_full) shape_x cross_koef_x ;;
  let y_new := new_dim y_steps shape_y cross_koef_y in
  let x_new := new_dim x_steps shape_x cross_koef_x in
  let image_innitial := image_full in
  image_full <- cv2_resize image_full x_new y_new ;;
  Ok (snd (crop_loops image_innitial image_full shape_x shape_y
             cross_koef_x cross_koef_y y_steps x_steps)).

(** [_detect_objects] runs the model on every crop and drops the outputs
    (line 171 is a comment): when the model returns, the crops are what
    they were. *)
Definition _detect_objects (crops : list CropComponent) : list CropComponent :=
  crops.

(** ** nodes/CombineDetections.py *)

(** [acc.extend(it)]: iterating [None] raises [TypeError]. *)
Definition extend {A : Type} (acc : list A) (it : option (list A))
    : result (list A) :=
  match it with
  | Some l => Ok (acc ++ l)
  | None => Raise TypeError
  end.

Definition Detections : Type :=
  (list Q * list IBox * list Mask * list Z)%type.

(** The [for crop in crops] loop of [combinate_detections] on the four
    accumulators. *)
Fixpoint combinate_loop (crops : list CropComponent) (acc : Detections)
    : result Detections :=
  match crops with
  | [] => Ok acc
  | crop :: rest =>
      let '(detected_conf_, detected_xyxy_, detected_masks_, detected_cls_) := acc in
      c <- extend detected_conf_ (detected_conf crop) ;;
      b <- extend detected_xyxy_ (detected_xyxy_real crop) ;;
      m <- extend detected_masks_ (detected_masks_real crop) ;;
      k <- extend detected_cls_ (detected_cls crop) ;;
      combinate_loop rest (c, b, m, k)
  end.

Definition combinate_detections (crops : list CropComponent)
    : result Detections :=
  combinate_loop crops ([], [], [], []).

(** [mask.sum()] of a binary mask. *)
Definition mask_sum (m : Mask) : Z := Z.of_nat (List.length (filter id m)).

(** [np.logical_and(a, b)], [np.logical_or(a, b)].  All masks of one run
    have the shape of the canvas; masks of different sizes are taken not
    to broadcast. *)
Definition np_logical (op : bool -> bool -> bool) (a b : Mask) : result Mask :=
  if Nat.eqb (List.length a) (List.length b)
  then Ok (map (fun p => op (fst p) (snd p)) (combine a b))
  else Raise ValueError.

Definition iou_score (mask other_mask : Mask) : result Q :=
  i <- np_logical andb mask other_mask ;;
  u <- np_logical orb mask other_mask ;;
  let intersection := mask_sum i in
  let union := mask_sum u in
  Ok (if negb (Z.eqb union 0)
      then inject_Z intersection / inject_Z union else 0).

Definition intersect_over_union (mask : Mask) (masks_list : list Mask)
    : result (list Q) :=
  mapM (iou_score mask) masks_list.

Definition ios_score (mask other_mask : Mask) : result Q :=
  i <- np_logical andb mask other_mask ;;
  let intersection := mask_sum i in
  let smaller_area := Z.min (mask_sum mask) (mask_sum other_mask) in
  Ok (if negb (Z.eqb smaller_area 0)
      then inject_Z intersection / inject_Z smaller_area else 0).

Definition intersect_over_smaller (mask : Mask) (masks_list : list Mask)
    : result (list Q) :=
  mapM (ios_score mask) masks_list.

(** A row [[x1, y1, x2, y2]] of [torch.tensor(boxes)]. *)
Record Box : Type := mkBox { x1 : Q; y1 : Q; x2 : Q; y2 : Q }.

(** [(x2 - x1) * (y2 - y1)] *)
Definition area (b : Box) : Q := (x2 b - x1 b) * (y2 b - y1 b).

(** [t[mask]]: the elements of [t] at the true positions of [mask]. *)
Definition bool_index {A : Type} (t : list A) (mask : list bool) : list A :=
  map fst (filter snd (combine t mask)).

(** [torch.isin(o, t)] for one element. *)
Definition isin (o : nat) (t : list nat) : bool := existsb (Nat.eqb o) t.

(** A stable ascending sort that only asks [lt], as Python's [sorted]. *)
Fixpoint insert_by {A : Type} (lt : A -> A -> bool) (x : A) (l : list A)
    : list A :=
  match l with
  | [] => [x]
  | y :: l' => if lt y x then y :: insert_by lt x l' else x :: y :: l'
  end.

Definition stable_sort {A : Type} (lt : A -> A -> bool) (l : list A) : list A :=
  fold_right (insert_by lt) [] l.

(** [sorted(range(n), key=keys.__getitem__)] once the keys are computed. *)
Definition sorted_range {K : Type} (lt : K -> K -> bool) (keys : list K)
    : list nat :=
  map snd (stable_sort (fun p q => lt (fst p) (fst q))
             (combine keys (seq 0 (List.length keys)))).

(** [<] on the tuples [(round(confidence, 1), area)]. *)
Definition key_lt (a b : Q * Q) : bool :=
  if Qeq_bool (fst a) (fst b) then Qltb (snd a) (snd b)
  else Qltb (fst a) (fst b).

(** The key function of the intelligent sorter at index [k]. *)
Definition sort_key (confidences areas : list Q) (k : nat) : result (Q * Q) :=
  c <- getitem confidences k ;;
  a <- getitem areas k ;;
  Ok (py_round1 c, a).

(** Lines 210-220.  [confidences.argsort()] is modelled by the same stable
    sort; torch leaves the order of equal confidences unspecified. *)
Definition initial_order (confidences areas : list Q)
    (intelligent_sorter : bool) : result (list nat) :=
  if intelligent_sorter then
    keys <- mapM (sort_key confidences areas)
              (seq 0 (List.length confidences)) ;;
    Ok (sorted_range key_lt keys)
  else
    Ok (sorted_range Qltb confidences).

(** Intersection area of two boxes, lines 245-259. *)
Definition inter_area (b bidx : Box) : Q :=
  let xx1 := Qmax (x1 b) (x1 bidx) in
  let yy1 := Qmax (y1 b) (y1 bidx) in
  let xx2 := Qmin (x2 b) (x2 bidx) in
  let yy2 := Qmin (y2 b) (y2 bidx) in
  let w := Qmax (xx2 - xx1) 0 in
  let h := Qmax (yy2 - yy1) 0 in
  w * h.

Definition iou_value (inter rem_area area_idx : Q) : fval :=
  let union := (rem_area - inter) + area_idx in
  torch_div inter union.

Definition ios_value (inter rem_area area_idx : Q) : fval :=
  let smaller := Qmin rem_area area_idx in
  torch_div inter smaller.

Section NMS.

Variables (boxes : list Box) (areas : list Q).
Variables (match_metric : string) (nms_threshold : Q).
Variable masks : option (list Mask).

(** Lines 238-306: one pass of the loop body after [idx] was popped,
    returning the next [order]. *)
Definition nms_round (idx : nat) (order : list nat) : result (list nat) :=
  sel <- mapM (getitem boxes) order ;;
  bidx <- getitem boxes idx ;;
  let inter := map (fun b => inter_area b bidx) sel in
  rem_areas <- mapM (getitem areas) order ;;
  area_idx <- getitem areas idx ;;
  match_metric_value <-
    (if String.eqb match_metric "IOU" then
       Ok (map (fun p => iou_value (fst p) (snd p) area_idx)
             (combine inter rem_areas))
     else if String.eqb match_metric "IOS" then
       Ok (map (fun p => ios_value (fst p) (snd p) area_idx)
             (combine inter rem_areas))
     else Raise ValueError) ;;
  match masks with
  | Some masks_ =>
      if existsb (fun v => fval_gtb v 0) match_metric_value then
        let mask_mask := map (fun v => fval_gtb v 0) match_metric_value in
        let order_2 := bool_index order mask_mask in
        filtered_masks <- mapM (getitem masks_) order_2 ;;
        mask_mask <-
          (if String.eqb match_metric "IOU" then
             m <- getitem masks_ idx ;;
             mask_iou <- intersect_over_union m filtered_masks ;;
             Ok (map (fun s => Qltb nms_threshold s) mask_iou)
           else if String.eqb match_metric "IOS" then
             m <- getitem masks_ idx ;;
             mask_ios <- intersect_over_smaller m filtered_masks ;;
             Ok (map (fun s => Qltb nms_threshold s) mask_ios)
           else Ok mask_mask) ;;
        let order_2 := bool_index order_2 mask_mask in
        let inverse_mask := map (fun o => negb (isin o order_2)) order in
        Ok (bool_index order inverse_mask)
      else
        Ok (bool_index order
              (map (fun v => fval_ltb v nms_threshold) match_metric_value))
  | None =>
      Ok (bool_index order
            (map (fun v => fval_ltb v nms_threshold) match_metric_value))
  end.

Lemma bool_index_length (A : Type) (t : list A) (mask : list bool) :
  (List.length (bool_index t mask) <= List.length t)%nat.
Proof.
  unfold bool_index. rewrite length_map.
  etransitivity; [apply filter_length_le|].
  rewrite length_combine. apply Nat.le_min_l.
Qed.

Lemma removelast_cons_length (A : Type) (o : A) (os : list A) :
  List.length (removelast (o :: os)) = List.length os.
Proof.
  revert o. induction os as [|a os IH]; intro o; [reflexivity|].
  change (removelast (o :: a :: os)) with (o :: removelast (a :: os)).
  cbn [List.length]. f_equal. apply IH.
Qed.

Lemma nms_round_length (idx : nat) (order order' : list nat) :
  nms_round idx order = Ok order' ->
  (List.length order' <= List.length order)%nat.
Proof.
  unfold nms_round, bind. intros H.
  repeat match type of H with
         | match ?x with _ => _ end = _ => destruct x; try discriminate
         end;
    injection H as <-; apply bool_index_length.
Qed.

(** Lines 222-308: the [while len(order) > 0] loop. *)
Equations? nms_loop (order keep : list nat) : result (list nat)
  by wf (List.length order) lt :=
nms_loop [] keep := Ok keep;
nms_loop (o :: os) keep with inspect (removelast (o :: os)) := {
  | exist _ [] _ := Ok (keep ++ [last (o :: os) 0%nat]);
  | exist _ (r :: rs) Hrest with
      inspect (nms_round (last (o :: os) 0%nat) (r :: rs)) := {
      | exist _ (Raise e) _ := Raise e;
      | exist _ (Ok order') Hround :=
          nms_loop order' (keep ++ [last (o :: os) 0%nat]) } }.
Proof.
  apply nms_round_length in Hround.
  change (removelast (o :: os) = r :: rs) in Hrest.
  rewrite <- Hrest, removelast_cons_length in Hround.
  cbn [List.length]. lia.
Qed.

End NMS.

(** [CombineDetection.nms] *)
Definition nms (confidences : list Q) (boxes : list Box)
    (match_metric : string) (nms_threshold : Q)
    (masks : option (list Mask)) (intelligent_sorter : bool)
    : result (list nat) :=
  if Nat.eqb (List.length boxes) 0 then Ok []
  else
    let areas := map area boxes in
    order <- initial_order confidences areas intelligent_sorter ;;
    nms_loop boxes areas match_metric nms_threshold masks order [].

(** The element of [match_metric_value] that lines 245-277 compute for a
    remaining box [b] against the popped box [bidx]. *)
Definition box_metric (match_metric : string) (b bidx : Box) : result fval :=
  if String.eqb match_metric "IOU" then
    Ok (iou_value (inter_area b bidx) (area b) (area bidx))
  else if String.eqb match_metric "IOS" then
    Ok (ios_value (inter_area b bidx) (area b) (area bidx))
  else Raise ValueError.

(** The mask-level score of lines 288-294 for one pair of masks. *)
Definition mask_metric (match_metric : string) (mask other_mask : Mask)
    : result Q :=
  if String.eqb match_metric "IOU" then iou_score mask other_mask
  else ios_score mask other_mask.

(** [[l[i] for i in idxs]], the selection the caller applies to the
    output of [nms] (lines 91-97). *)
Definition select {A : Type} (l : list A) (idxs : list nat) : result (list A) :=
  mapM (getitem l) idxs.


(** [np.logical_and(a, b).sum()] for two masks of one shape. *)
Definition mask_intersection (a b : Mask) : Z :=
  mask_sum (map (fun p => fst p && snd p)%bool (combine a b)).


(** A box whose four cells are [int32] values, as [xyxy.cpu().int()]
    produces them. *)
Definition ibox_in_int32 (b : IBox) : Prop :=
  in_int32 (ix1 b) /\ in_int32 (iy1 b) /\ in_int32 (ix2 b) /\ in_int32 (iy2 b).

(** The key of index [k] under the intelligent sorter. *)
Definition key_of (confidences areas : list Q) (k : nat) : Q * Q :=
  (py_round1 (nth k confidences 0), nth k areas 0).

(** The pairs (row, col) in the order of the two loops. *)
Definition grid (y_steps x_steps : Z) : list (Z * Z) :=
  flat_map (fun i => map (fun j => (i, j)) (py_range x_steps))
    (py_range y_steps).

(** A crop all four of whose aggregated fields are set. *)
Definition all_present (c : CropComponent) : bool :=
  match detected_conf c, detected_xyxy_real c, detected_masks_real c,
        detected_cls c with
  | Some _, Some _, Some _, Some _ => true
  | _, _, _, _ => false
  end.

(** The list of a field, or no element when the field is [None]. *)
Definition or_empty {A : Type} (o : option (list A)) : list A :=
  match o with
  | Some l => l
  | None => []
  end.

(** The four lists of a crop describe the same detections. *)
Definition co_indexed (c : CropComponent) : Prop :=
  exists cf bx ms cl,
    detected_conf c = Some cf /\ detected_xyxy_real c = Some bx /\
    detected_masks_real c = Some ms /\ detected_cls c = Some cl /\
    List.length bx = List.length cf /\ List.length ms = List.length cf /\
    List.length cl = List.length cf.

(** * The same functions with the arithmetic of the machine

    The definitions above compute with exact rationals.  That suits what
    does not depend on rounding: shapes, numbering, exceptions, the
    control flow of the loops.  The module [Fp] embeds the numeric parts
    of the same functions with the arithmetic the code executes:

    - a Python float is an IEEE binary64 number, and the mixed [int]
      and [float] arithmetic of [get_crops_xy] converts the [int] operand
      first;
    - [torch.tensor(boxes)], for boxes with integer cells as
      [calculate_real_values] produces them, is an [int64] tensor, whose
      subtraction and product wrap around;
    - [torch.tensor(confidences)] is a [float32] tensor: every confidence
      is rounded to binary32 before it is looked at;
    - [torch.clamp(w, min=0.0)] promotes the [int64] tensor to
      [float32], so the intersection, the union and the quotient are
      binary32 operations on converted integers, and a comparison with
      the Python float [nms_threshold] is made in binary32;
    - [Tensor.argsort()] does not say where it puts equal elements: it
      is a variable of the model.

    [Fp.nms] is the call with [masks] left at its default [None]. *)

Module Fp.

(** ** Floating-point numbers *)

Definition float : Type := spec_float.

Definition b64_add : float -> float -> float := SFadd 53 1024.
Definition b64_sub : float -> float -> float := SFsub 53 1024.
Definition b64_mul : float -> float -> float := SFmul 53 1024.
Definition b64_div : float -> float -> float := SFdiv 53 1024.

Definition f32_add : float -> float -> float := SFadd 24 128.
Definition f32_sub : float -> float -> float := SFsub 24 128.
Definition f32_mul : float -> float -> float := SFmul 24 128.
Definition f32_div : float -> float -> float := SFdiv 24 128.

(** [x < y] and [x == y] on two numbers of one format; false when either
    is a NaN. *)
Definition ltb (x y : float) : bool := SFltb x y.
Definition eqb (x y : float) : bool := SFeqb x y.

Definition is_nan (x : float) : bool :=
  match x with
  | S754_nan => true
  | _ => false
  end.

Definition is_zero (x : float) : bool :=
  match x with
  | S754_zero _ => true
  | _ => false
  end.

(** The binary64 number nearest to the fraction [n / d]: what the decimal
    literal [n/d] denotes in Python ([dec 85 100] is [0.85]). *)
Definition dec (n : Z) (d : positive) : float :=
  match n with
  | Z0 => S754_zero false
  | Zpos p => b64_div (S754_finite false p 0) (S754_finite false d 0)
  | Zneg p => b64_div (S754_finite true p 0) (S754_finite false d 0)
  end.

(** The rational a finite number stands for (0 for the others). *)
Definition to_Q (x : float) : Q :=
  match x with
  | S754_finite s m e =>
      let n := if s then Zneg m else Zpos m in
      if (0 <=? e)%Z then inject_Z (n * 2 ^ e)
      else Qmake n (Z.to_pos (2 ^ (- e)))
  | _ => 0
  end.

(** Conversions between the two formats: to nearest, ties to even. *)
Definition b64_to_f32 (x : float) : float :=
  match x with
  | S754_finite s m e => binary_round 24 128 s m e
  | _ => x
  end.

Definition f32_to_b64 (x : float) : float :=
  match x with
  | S754_finite s m e => binary_round 53 1024 s m e
  | _ => x
  end.

(** An [int64] tensor element converted to [float32]. *)
Definition f32_of_int (z : Z) : float := binary_normalize 24 128 z 0 false.

(** ** Python arithmetic *)

(** The conversion Python applies to the [int] operand of a mixed
    operation. *)
Definition float_of_int (z : Z) : result float :=
  match binary_normalize 53 1024 z 0 false with
  | S754_infinity _ => Raise OverflowError
  | x => Ok x
  end.

(** [a / b] on two Python ints: the quotient, correctly rounded. *)
Definition int_truediv (a b : Z) : result float :=
  match b with
  | Z0 => Raise ZeroDivisionError
  | _ =>
      match a with
      | Z0 => Ok (S754_zero (b <? 0)%Z)
      | _ =>
          match b64_div (S754_finite (a <? 0)%Z (Z.to_pos (Z.abs a)) 0)
                        (S754_finite (b <? 0)%Z (Z.to_pos (Z.abs b)) 0) with
          | S754_infinity _ => Raise OverflowError
          | q => Ok q
          end
      end
  end.

(** [a - y], [a * y], [a / y] and [x + b] for ints [a], [b] and floats
    [x], [y]. *)
Definition int_sub_float (a : Z) (y : float) : result float :=
  x <- float_of_int a ;; Ok (b64_sub x y).

Definition int_mul_float (a : Z) (y : float) : result float :=
  x <- float_of_int a ;; Ok (b64_mul x y).

Definition int_div_float (a : Z) (y : float) : result float :=
  x <- float_of_int a ;;
  if is_zero y then Raise ZeroDivisionError else Ok (b64_div x y).

Definition float_add_int (x : float) (b : Z) : result float :=
  y <- float_of_int b ;; Ok (b64_add x y).

(** [int(x)]: the fractional part is dropped. *)
Definition py_int (x : float) : result Z :=
  match x with
  | S754_nan => Raise ValueError
  | S754_infinity _ => Raise OverflowError
  | S754_zero _ => Ok 0%Z
  | S754_finite s m e =>
      let n := if s then Zneg m else Zpos m in
      Ok (if (0 <=? e)%Z then n * 2 ^ e else Z.quot n (2 ^ (- e)))%Z
  end.

(** [n / d] rounded to the nearest integer, ties to the even one, for
    [0 <= n] and [0 < d]. *)
Definition round_half_even (n d : Z) : Z :=
  let q := (n / d)%Z in
  match (2 * (n mod d) ?= d)%Z with
  | Lt => q
  | Gt => (q + 1)%Z
  | Eq => if Z.even q then q else (q + 1)%Z
  end.

(** [round(x)] *)
Definition py_round (x : float) : result Z :=
  match x with
  | S754_nan => Raise ValueError
  | S754_infinity _ => Raise OverflowError
  | S754_zero _ => Ok 0%Z
  | S754_finite s m e =>
      let a := if (0 <=? e)%Z then (Zpos m * 2 ^ e)%Z
               else round_half_even (Zpos m) (2 ^ (- e)) in
      Ok (if s then (- a)%Z else a)
  end.

(** [round(x, 1)]: the decimal with one digit after the point nearest to
    [x] (ties to the even digit), read back as a float. *)
Definition py_round1 (x : float) : float :=
  match x with
  | S754_finite s m e =>
      let n := if (0 <=? e)%Z then (Zpos m * 10 * 2 ^ e)%Z
               else round_half_even (Zpos m * 10) (2 ^ (- e)) in
      match n with
      | Zpos p => b64_div (S754_finite s p 0) (S754_finite false 10 0)
      | _ => S754_zero s
      end
  | _ => x
  end.

(** ** nodes/MakeCropsDetectThem.py *)

(** [1 - (overlap / 100)], for the int [overlap] of the signature. *)
Definition cross_koef (overlap : Z) : result float :=
  q <- int_truediv overlap 100 ;;
  int_sub_float 1 q.

(** [int((image_dim - shape) / (shape * cross_koef)) + 1] *)
Definition steps (image_dim shape : Z) (koef : float) : result Z :=
  p <- int_mul_float shape koef ;;
  q <- int_div_float (image_dim - shape) p ;;
  n <- py_int q ;;
  Ok (n + 1)%Z.

(** [round((steps - 1) * (shape * cross_koef) + shape)] *)
Definition new_dim (steps shape : Z) (koef : float) : result Z :=
  p <- int_mul_float shape koef ;;
  t <- int_mul_float (steps - 1) p ;;
  s <- float_add_int t shape ;;
  py_round s.

(** [int(shape * j * cross_koef)] *)
Definition start (shape j : Z) (koef : float) : result Z :=
  p <- int_mul_float (shape * j) koef ;;
  py_int p.

(** A [for] loop whose body may raise. *)
Fixpoint foldM {S A : Type} (f : S -> A -> result S) (l : list A) (s : S)
    : result S :=
  match l with
  | [] => Ok s
  | a :: l' => s' <- f s a ;; foldM f l' s'
  end.

Section GetCropsXY.

Variables (image_innitial image_full : Shape).
Variables (shape_x shape_y : Z) (cross_koef_x cross_koef_y : float).

Definition crop_body (i j : Z) (st : Z * list CropComponent)
    : result (Z * list CropComponent) :=
  let '(count, data_all_crops) := st in
  x_start <- start shape_x j cross_koef_x ;;
  y_start <- start shape_y i cross_koef_y ;;
  if (shape1 image_full <? x_start + shape_x)%Z then Ok st
  else if (shape0 image_full <? y_start + shape_y)%Z then Ok st
  else
    let im_temp :=
      mkShape (py_slice_len (shape0 image_full) y_start (y_start + shape_y))
              (py_slice_len (shape1 image_full) x_start (x_start + shape_x)) in
    let count := (count + 1)%Z in
    Ok (count,
        data_all_crops ++
          [CropComponent_init image_innitial image_full im_temp count
             x_start y_start]).

Definition crop_loops (y_steps x_steps : Z)
    : result (Z * list CropComponent) :=
  foldM
    (fun st i => foldM (fun st j => crop_body i j st) (py_range x_steps) st)
    (py_range y_steps) (0%Z, []).

End GetCropsXY.

Definition get_crops_xy (image_full : Shape) (shape_x shape_y : Z)
    (overlap_x overlap_y : Z) : result (list CropComponent) :=
  cross_koef_x <- cross_koef overlap_x ;;
  cross_koef_y <- cross_koef overlap_y ;;
  y_steps <- steps (shape0 image_full) shape_y cross_koef_y ;;
  x_steps <- steps (shape1 image_full) shape_x cross_koef_x ;;
  y_new <- new_dim y_steps shape_y cross_koef_y ;;
  x_new <- new_dim x_steps shape_x cross_koef_x ;;
  let image_innitial := image_full in
  image_full <- cv2_resize image_full x_new y_new ;;
  st <- crop_loops image_innitial image_full shape_x shape_y
          cross_koef_x cross_koef_y y_steps x_steps ;;
  Ok (snd st).

(** ** nodes/CombineDetections.py *)

Definition in_int64 (z : Z) : bool :=
  ((- 2 ^ 63 <=? z) && (z <? 2 ^ 63))%Z.

Definition box_in_int64 (b : IBox) : bool :=
  in_int64 (ix1 b) && in_int64 (iy1 b) && in_int64 (ix2 b) && in_int64 (iy2 b).

(** [torch.tensor(boxes)] for rows of integers: an [int64] tensor; a
    Python int that does not fit is refused. *)
Definition torch_tensor (boxes : list IBox) : result (list IBox) :=
  if forallb box_in_int64 boxes then Ok boxes else Raise RuntimeError.

(** [int64] subtraction and product. *)
Definition i64_sub (a b : Z) : Z := int64_wrap (a - b).
Definition i64_mul (a b : Z) : Z := int64_wrap (a * b).

(** [(x2 - x1) * (y2 - y1)] *)
Definition area (b : IBox) : Z :=
  i64_mul (i64_sub (ix2 b) (ix1 b)) (i64_sub (iy2 b) (iy1 b)).

(** [torch.clamp(w, min=0.0)] on an element of an [int64] tensor: the
    result is a [float32]. *)
Definition clamp_min0 (w : Z) : float :=
  let x := f32_of_int w in
  if ltb x (S754_zero false) then S754_zero false else x.

(** Intersection area of a remaining box [b] and the popped box [bidx],
    lines 245-259. *)
Definition inter_area (b bidx : IBox) : float :=
  let xx1 := Z.max (ix1 b) (ix1 bidx) in
  let yy1 := Z.max (iy1 b) (iy1 bidx) in
  let xx2 := Z.min (ix2 b) (ix2 bidx) in
  let yy2 := Z.min (iy2 b) (iy2 bidx) in
  let w := clamp_min0 (i64_sub xx2 xx1) in
  let h := clamp_min0 (i64_sub yy2 yy1) in
  f32_mul w h.

(** [inter / ((rem_areas - inter) + areas[idx])] *)
Definition iou_value (inter : float) (rem_area area_idx : Z) : float :=
  let union := f32_add (f32_sub (f32_of_int rem_area) inter)
                 (f32_of_int area_idx) in
  f32_div inter union.

(** [inter / torch.min(rem_areas, areas[idx])] *)
Definition ios_value (inter : float) (rem_area area_idx : Z) : float :=
  let smaller := Z.min rem_area area_idx in
  f32_div inter (f32_of_int smaller).

(** [<] on the tuples [(round(confidence, 1), area)]. *)
Definition key_lt (a b : float * Z) : bool :=
  if eqb (fst a) (fst b) then (snd a <? snd b)%Z
  else ltb (fst a) (fst b).

(** The key function of the intelligent sorter at index [k]:
    [confidences[k].item()] is the [float32] element as a Python float. *)
Definition sort_key (confidences : list float) (areas : list Z) (k : nat)
    : result (float * Z) :=
  c <- getitem confidences k ;;
  a <- getitem areas k ;;
  Ok (py_round1 (f32_to_b64 c), a).

(** One function [argsort] may be: the stable sort. *)
Definition stable_argsort (confidences : list float) : list nat :=
  sorted_range ltb confidences.

Section NMS.

Variables (boxes : list IBox) (areas : list Z).
Variables (match_metric : string) (nms_threshold : float).

(** Lines 238-306 with [masks = None]: one pass of the loop body after
    [idx] was popped, returning the next [order]. *)
Definition nms_round (idx : nat) (order : list nat) : result (list nat) :=
  sel <- mapM (getitem boxes) order ;;
  bidx <- getitem boxes idx ;;
  let inter := map (fun b => inter_area b bidx) sel in
  rem_areas <- mapM (getitem areas) order ;;
  area_idx <- getitem areas idx ;;
  match_metric_value <-
    (if String.eqb match_metric "IOU" then
       Ok (map (fun p => iou_value (fst p) (snd p) area_idx)
             (combine inter rem_areas))
     else if String.eqb match_metric "IOS" then
       Ok (map (fun p => ios_value (fst p) (snd p) area_idx)
             (combine inter rem_areas))
     else Raise ValueError) ;;
  Ok (bool_index order
        (map (fun v => ltb v (b64_to_f32 nms_threshold)) match_metric_value)).

Lemma nms_round_shrinks (idx : nat) (order order' : list nat) :
  nms_round idx order = Ok order' ->
  (List.length order' <= List.length order)%nat.
Proof.
  unfold nms_round, bind. intros H.
  repeat match type of H with
         | match ?x with _ => _ end = _ => destruct x; try discriminate
         end;
    injection H as <-; apply bool_index_length.
Qed.

(** Lines 222-308: the [while len(order) > 0] loop. *)
Equations? nms_while (order keep : list nat) : result (list nat)
  by wf (List.length order) lt :=
nms_while [] keep := Ok keep;
nms_while (o :: os) keep with inspect (removelast (o :: os)) := {
  | exist _ [] _ := Ok (keep ++ [last (o :: os) 0%nat]);
  | exist _ (r :: rs) Hrest with
      inspect (nms_round (last (o :: os) 0%nat) (r :: rs)) := {
      | exist _ (Raise e) _ := Raise e;
      | exist _ (Ok order') Hround :=
          nms_while order' (keep ++ [last (o :: os) 0%nat]) } }.
Proof.
  apply nms_round_shrinks in Hround.
  change (removelast (o :: os) = r :: rs) in Hrest.
  rewrite <- Hrest, removelast_cons_length in Hround.
  cbn [List.length]. lia.
Qed.

End NMS.

Section Sorter.

(** [Tensor.argsort()] on a [float32] tensor. *)
Variable argsort : list float -> list nat.

(** What torch promises of it: the indices of the tensor, each once,
    and, on a tensor without NaN, no element smaller than one placed
    before it. *)
Definition argsort_permutes : Prop :=
  forall t, Permutation (argsort t) (seq 0 (List.length t)).

Definition argsort_ascending : Prop :=
  forall t,
    Forall (fun x => x <> S754_nan) t ->
    StronglySorted
      (fun i j => ltb (nth j t S754_nan) (nth i t S754_nan) = false)
      (argsort t).

(** Lines 210-220.  Python's [sorted] is stable; the insertion sort gives
    its result whenever the keys are totally ordered, which they are when
    no confidence is a NaN. *)
Definition initial_order (confidences : list float) (areas : list Z)
    (intelligent_sorter : bool) : result (list nat) :=
  if intelligent_sorter then
    keys <- mapM (sort_key confidences areas)
              (seq 0 (List.length confidences)) ;;
    Ok (sorted_range key_lt keys)
  else
    Ok (argsort confidences).

(** [CombineDetection.nms] called without masks. *)
Definition nms (confidences : list float) (boxes : list IBox)
    (match_metric : string) (nms_threshold : float)
    (intelligent_sorter : bool) : result (list nat) :=
  if Nat.eqb (List.length boxes) 0 then Ok []
  else
    boxes <- torch_tensor boxes ;;
    let confidences := map b64_to_f32 confidences in
    let areas := map area boxes in
    order <- initial_order confidences areas intelligent_sorter ;;
    nms_while boxes areas match_metric nms_threshold order [].

End Sorter.

(** The element of [match_metric_value] that lines 245-277 compute for a
    remaining box [b] against the popped box [bidx]. *)
Definition box_metric (match_metric : string) (b bidx : IBox)
    : result float :=
  if String.eqb match_metric "IOU" then
    Ok (iou_value (inter_area b bidx) (area b) (area bidx))
  else if String.eqb match_metric "IOS" then
    Ok (ios_value (inter_area b bidx) (area b) (area bidx))
  else Raise ValueError.

(** Its value when the metric is one of the two known. *)
Definition metric_value (match_metric : string) (b bidx : IBox) : float :=
  if String.eqb match_metric "IOU"
  then iou_value (inter_area b bidx) (area b) (area bidx)
  else ios_value (inter_area b bidx) (area b) (area bidx).

Definition box_at (boxes : list IBox) (q : nat) : IBox :=
  nth q boxes (mkIBox 0 0 0 0).

(** The value computed for the remaining index [q] in the round of the
    popped index [idx], and the test of line 304 on it. *)
Definition bmv (boxes : list IBox) (match_metric : string) (idx q : nat)
    : float :=
  metric_value match_metric (box_at boxes q) (box_at boxes idx).

Definition below (boxes : list IBox) (match_metric : string)
    (nms_threshold : float) (idx q : nat) : bool :=
  ltb (bmv boxes match_metric idx q) (b64_to_f32 nms_threshold).

(** The key of index [k] under the intelligent sorter, from the
    arguments of [nms]. *)
Definition key_of (confidences : list float) (boxes : list IBox) (k : nat)
    : float * Z :=
  (py_round1 (f32_to_b64 (b64_to_f32 (nth k confidences S754_nan))),
   area (box_at boxes k)).

Definition not_nan (x : float) : Prop := x <> S754_nan.

(** A box with integer cells, read in exact arithmetic. *)
Definition exact_box (b : IBox) : Box :=
  mkBox (inject_Z (ix1 b)) (inject_Z (iy1 b))
        (inject_Z (ix2 b)) (inject_Z (iy2 b)).

(** What a round needs to get to its comparison. *)
Definition round_valid (boxes : list IBox) (match_metric : string)
    (idx : nat) (rest : list nat) : Prop :=
  (match_metric = "IOU"%string \/ match_metric = "IOS"%string) /\
  (idx < List.length boxes)%nat /\
  Forall (fun q => (q < List.length boxes)%nat) rest.

End Fp.

(** * Properties *)

(** ** The tiler *)

Lemma fold_left_invariant (S A : Type) (f : S -> A -> S) (P : S -> Prop)
    (l : list A) :
  forall s, P s -> (forall s a, In a l -> P s -> P (f s a)) ->
            P (fold_left f l s).
Proof.
  induction l as [|a l IH]; intros s Hs Hf; simpl; [exact Hs|].
  apply IH.
  - apply Hf; [now left | exact Hs].
  - intros s' a' Hin. apply Hf. now right.
Qed.

Lemma py_range_In (n k : Z) : In k (py_range n) <-> (0 <= k < n)%Z.
Proof.
  unfold py_range. rewrite in_map_iff. split.
  - intros (i & <- & Hi). apply in_seq in Hi. lia.
  - intros Hk. exists (Z.to_nat k). split; [lia|]. apply in_seq. lia.
Qed.

(** On a non-negative float [int] is the floor: the fractional part is
    dropped, never rounded up. *)
Lemma py_int_floor (q : Q) : 0 <= q -> py_int q = Qfloor q.
Proof.
  destruct q as [n d]. unfold Qle, py_int, Qfloor. simpl. intros H.
  apply Z.quot_div_nonneg; lia.
Qed.

Lemma cv2_resize_shape (image canvas : Shape) (x_new y_new : Z) :
  cv2_resize image x_new y_new = Ok canvas -> canvas = mkShape y_new x_new.
Proof.
  unfold cv2_resize. intros H.
  destruct (_ || _)%bool; [discriminate|].
  destruct (_ || _)%bool; [discriminate|]. now injection H.
Qed.

(** C2, as the code has it: a 1500x1000 image (1000 rows, 1500 columns)
    tiled at 700x700 with 25% overlap gives x_steps = 2 and y_steps = 1,
    a canvas of 1225x700, and exactly two crops, numbered 1 and 2, at the
    offsets (0, 0) and (525, 0). *)
Theorem get_crops_xy_1500x1000 :
  steps 1500 700 (cross_koef 25) = Ok 2%Z /\
  steps 1000 700 (cross_koef 25) = Ok 1%Z /\
  new_dim 2 700 (cross_koef 25) = 1225%Z /\
  new_dim 1 700 (cross_koef 25) = 700%Z /\
  get_crops_xy (mkShape 1000 1500) 700 700 25 25 =
    Ok [ CropComponent_init (mkShape 1000 1500) (mkShape 700 1225)
           (mkShape 700 700) 1 0 0;
         CropComponent_init (mkShape 1000 1500) (mkShape 700 1225)
           (mkShape 700 700) 2 525 0 ].
Proof. repeat split; vm_compute; reflexivity. Qed.

(** The step counts 3 and 2 that C2 states are not the ones the formula
    yields for this image. *)
Lemma get_crops_xy_1500x1000_not_3_2 :
  ~ (steps 1500 700 (cross_koef 25) = Ok 3%Z /\
     steps 1000 700 (cross_koef 25) = Ok 2%Z).
Proof. intros [H _]. vm_compute in H. discriminate H. Qed.


(** ** The crop record *)

Lemma np_add_exact (a b : Z) :
  in_int32 a -> in_int32 b -> np_add a b = (a + b)%Z.
Proof.
  unfold in_int32, np_add, int64_wrap. intros Ha Hb.
  rewrite Z.mod_small; lia.
Qed.

Lemma add_offset_exact (xs ys : Z) (b : IBox) :
  in_int32 xs -> in_int32 ys -> ibox_in_int32 b ->
  add_offset xs ys b =
    mkIBox (ix1 b + xs) (iy1 b + ys) (ix2 b + xs) (iy2 b + ys).
Proof.
  intros Hx Hy (H1 & H2 & H3 & H4). unfold add_offset.
  now rewrite !np_add_exact.
Qed.

(** C8: for every crop and every box detected in it, [calculate_real_values]
    returns, and the box at the same index of [detected_xyxy_real] is the
    local box plus [x_start, y_start, x_start, y_start], cell by cell, with
    no scaling.  Cells and offsets are pixel coordinates in the [int32]
    range, where the [int64] sum is exact. *)
Theorem calculate_real_values_adds_offset
    (cv2_resize_nearest : Mask -> Z * Z -> Mask)
    (c : CropComponent) (bs : list IBox) (i : nat) (b : IBox) :
  detected_xyxy c = Some bs ->
  nth_error bs i = Some b ->
  in_int32 (x_start c) -> in_int32 (y_start c) -> ibox_in_int32 b ->
  exists c' real,
    calculate_real_values cv2_resize_nearest c = Ok c' /\
    detected_xyxy_real c' = Some real /\
    List.length real = List.length bs /\
    nth_error real i =
      Some (mkIBox (ix1 b + x_start c) (iy1 b + y_start c)
                   (ix2 b + x_start c) (iy2 b + y_start c)) /\
    x_start c' = x_start c /\ y_start c' = y_start c.
Proof.
  intros Hbs Hi Hx Hy Hb. unfold calculate_real_values. rewrite Hbs.
  destruct bs as [|b0 bs']; [destruct i; discriminate|].
  cbn [bind]. eexists. eexists. split; [reflexivity|].
  cbn [detected_xyxy_real x_start y_start].
  split; [reflexivity|]. split; [apply length_map|].
  split; [|split; reflexivity].
  rewrite nth_error_map, Hi. cbn [option_map].
  now rewrite add_offset_exact.
Qed.

Lemma calculate_real_values_adds_offset_witness :
  exists c' real,
    calculate_real_values (fun m _ => m)
      (mkCrop (mkShape 100 100) (mkShape 100 100) (mkShape 40 40) 1 50 50
         (Some [9 # 10]) (Some [0%Z]) (Some [mkIBox 10 10 20 20])
         None None None) = Ok c' /\
    detected_xyxy_real c' = Some real /\
    List.length real = 1%nat /\
    nth_error real 0 = Some (mkIBox 60 60 70 70) /\
    x_start c' = 50%Z /\ y_start c' = 50%Z.
Proof.
  apply (@calculate_real_values_adds_offset (fun m _ => m)
           (mkCrop (mkShape 100 100) (mkShape 100 100) (mkShape 40 40) 1 50 50
              (Some [9 # 10]) (Some [0%Z]) (Some [mkIBox 10 10 20 20])
              None None None)
           [mkIBox 10 10 20 20] 0 (mkIBox 10 10 20 20)).
  - reflexivity.
  - reflexivity.
  - unfold in_int32; simpl; lia.
  - unfold in_int32; simpl; lia.
  - unfold ibox_in_int32, in_int32; simpl; lia.
Defined.

(** The mask field as the crop's life goes: [None] after construction,
    and still [None] after inference and remapping when [segment] is off. *)
Lemma CropComponent_init_masks_None (si sr cr : Shape) (n xs ys : Z) :
  detected_masks_real (CropComponent_init si sr cr n xs ys) = None /\
  detected_masks (CropComponent_init si sr cr n xs ys) = None.
Proof. split; reflexivity. Qed.

Lemma no_segment_masks_real_None
    (cv2_resize_nearest : Mask -> Z * Z -> Mask)
    (pred : Prediction) (c c1 c2 : CropComponent) :
  detected_masks c = None -> detected_masks_real c = None ->
  calculate_inference pred false c = Ok c1 ->
  calculate_real_values cv2_resize_nearest c1 = Ok c2 ->
  detected_masks_real c2 = None.
Proof.
  intros Hm Hr H1 H2. unfold calculate_inference in H1. cbn in H1.
  injection H1 as <-. unfold calculate_real_values in H2. cbn in H2.
  destruct (pred_xyxy pred); cbn in H2; [discriminate|].
  injection H2 as <-. cbn. now rewrite Hm.
Qed.

(** ** Aggregation *)

Lemma extend_cases (A : Type) (acc : list A) (it : option (list A)) :
  (exists l, it = Some l /\ extend acc it = Ok (acc ++ l)) \/
  (it = None /\ extend acc it = Raise TypeError).
Proof. destruct it as [l|]; [left; now exists l | right; now split]. Qed.

Lemma combinate_loop_None_masks (crops : list CropComponent)
    (c : CropComponent) :
  In c crops -> detected_masks_real c = None ->
  forall acc, combinate_loop crops acc = Raise TypeError.
Proof.
  intros Hin Hnone. induction crops as [|a crops IH]; [destruct Hin|].
  intros [[[cf bx] ms] cl]. cbn [combinate_loop].
  destruct (extend_cases cf (detected_conf a)) as [(? & _ & ->)|[_ ->]];
    [|reflexivity].
  destruct (extend_cases bx (detected_xyxy_real a)) as [(? & _ & ->)|[_ ->]];
    [|reflexivity].
  destruct (extend_cases ms (detected_masks_real a))
    as [(l & Hl & ->)|[_ ->]]; [|reflexivity].
  destruct (extend_cases cl (detected_cls a)) as [(? & _ & ->)|[_ ->]];
    [|reflexivity].
  cbn [bind]. destruct Hin as [->|Hin]; [congruence|]. now apply IH.
Qed.

(** C10: whenever one crop of the list has [detected_masks_real = None],
    [combinate_detections] raises (a [TypeError]: [None] is not iterable)
    and returns no lists at all. *)
Theorem combinate_detections_None_masks_raises
    (crops : list CropComponent) (c : CropComponent) :
  In c crops -> detected_masks_real c = None ->
  combinate_detections crops = Raise TypeError.
Proof.
  intros Hin Hnone. unfold combinate_detections.
  now apply combinate_loop_None_masks with (c := c).
Qed.

Lemma combinate_detections_None_masks_raises_witness :
  combinate_detections
    [ mkCrop (mkShape 100 100) (mkShape 100 100) (mkShape 40 40) 1 0 0
        (Some [9 # 10]) (Some [0%Z]) (Some [mkIBox 10 10 20 20]) None
        (Some [mkIBox 10 10 20 20]) None ] = Raise TypeError.
Proof.
  apply (@combinate_detections_None_masks_raises _
           (mkCrop (mkShape 100 100) (mkShape 100 100) (mkShape 40 40) 1 0 0
              (Some [9 # 10]) (Some [0%Z]) (Some [mkIBox 10 10 20 20]) None
              (Some [mkIBox 10 10 20 20]) None)).
  - left. reflexivity.
  - reflexivity.
Defined.

(** The crops of the tiler come from [CropComponent_init] and
    [_detect_objects] leaves them so: their mask field is [None], and the
    aggregation of one crop or more raises. *)
Lemma get_crops_xy_masks_None
    (image_full : Shape) (shape_x shape_y : Z) (overlap_x overlap_y : Q)
    (crops : list CropComponent) :
  get_crops_xy image_full shape_x shape_y overlap_x overlap_y = Ok crops ->
  Forall (fun c => detected_masks_real c = None) (_detect_objects crops).
Proof.
  unfold get_crops_xy, _detect_objects, bind. intros H.
  destruct (steps (shape0 image_full) _ _); [|discriminate].
  destruct (steps (shape1 image_full) _ _); [|discriminate].
  destruct (cv2_resize image_full _ _) as [canvas|]; [|discriminate].
  injection H as <-. unfold crop_loops.
  apply fold_left_invariant
    with (P := fun st => Forall (fun c => detected_masks_real c = None)
                           (snd st)); [constructor|].
  intros st i _ Hst.
  apply fold_left_invariant
    with (P := fun st => Forall (fun c => detected_masks_real c = None)
                           (snd st)); [exact Hst|].
  clear st Hst. intros [count acc] j _ Hst. unfold crop_body.
  destruct (_ <? _)%Z; [exact Hst|]. destruct (_ <? _)%Z; [exact Hst|].
  cbn [snd] in *. apply Forall_app. split; [exact Hst|].
  constructor; [reflexivity|constructor].
Qed.

(** X20: the crops that [get_crops_xy] returns, passed through
    [_detect_objects], make [combinate_detections] raise [TypeError] as
    soon as there is one crop: no detection field was ever set. *)
Lemma tiled_crops_aggregation_raises
    (image_full : Shape) (shape_x shape_y : Z) (overlap_x overlap_y : Q)
    (crops : list CropComponent) :
  get_crops_xy image_full shape_x shape_y overlap_x overlap_y = Ok crops ->
  crops <> [] ->
  combinate_detections (_detect_objects crops) = Raise TypeError.
Proof.
  intros H Hne. pose proof (get_crops_xy_masks_None _ _ _ _ _ H) as HF.
  unfold _detect_objects in *. destruct crops as [|c crops]; [contradiction|].
  apply combinate_loop_None_masks with (c := c); [now left|].
  now inversion HF.
Qed.

(** ** Lists and the error monad *)

Lemma mapM_Ok_inv (A B : Type) (f : A -> result B) (d : B) (l : list A)
    (r : list B) :
  mapM f l = Ok r ->
  r = map (fun x => match f x with Ok y => y | Raise _ => d end) l /\
  Forall (fun x => exists y, f x = Ok y) l.
Proof.
  revert r. induction l as [|x l IH]; intros r H; cbn in H.
  - injection H as <-. split; [reflexivity|constructor].
  - destruct (f x) as [y|] eqn:Hx; [|discriminate]. cbn in H.
    destruct (mapM f l) as [ys|]; [|discriminate]. cbn in H.
    injection H as <-. destruct (IH ys eq_refl) as [-> HF].
    split; [cbn; now rewrite Hx | constructor; eauto].
Qed.

Lemma mapM_Ok_intro (A B : Type) (f : A -> result B) (d : B) (l : list A) :
  Forall (fun x => exists y, f x = Ok y) l ->
  mapM f l = Ok (map (fun x => match f x with Ok y => y | Raise _ => d end) l).
Proof.
  induction 1 as [|x l [y Hy] _ IH]; [reflexivity|].
  cbn. rewrite Hy, IH. reflexivity.
Qed.

Lemma getitem_Ok_iff (A : Type) (l : list A) (i : nat) :
  (exists a, getitem l i = Ok a) <-> (i < List.length l)%nat.
Proof.
  unfold getitem. rewrite <- nth_error_Some.
  destruct (nth_error l i); split; intros H; try congruence; eauto.
  now destruct H.
Qed.

Lemma getitem_nth (A : Type) (d : A) (l : list A) (i : nat) :
  (i < List.length l)%nat -> getitem l i = Ok (nth i l d).
Proof.
  intros H. unfold getitem. now rewrite (nth_error_nth' l d H).
Qed.

Lemma getitem_default (A : Type) (d : A) (l : list A) (i : nat) :
  match getitem l i with Ok y => y | Raise _ => d end = nth i l d.
Proof.
  unfold getitem. destruct (nth_error l i) as [a|] eqn:H.
  - symmetry. now apply nth_error_nth.
  - apply nth_error_None in H. symmetry. now apply nth_overflow.
Qed.

Lemma mapM_getitem_Ok (A : Type) (d : A) (l : list A) (idxs : list nat)
    (r : list A) :
  mapM (getitem l) idxs = Ok r ->
  r = map (fun i => nth i l d) idxs /\
  Forall (fun i => (i < List.length l)%nat) idxs.
Proof.
  intros H. destruct (mapM_Ok_inv _ d _ H) as [-> HF]. split.
  - apply map_ext. intros i. apply getitem_default.
  - eapply Forall_impl; [|exact HF]. intros i. apply getitem_Ok_iff.
Qed.

Lemma mapM_getitem_valid (A : Type) (d : A) (l : list A) (idxs : list nat) :
  Forall (fun i => (i < List.length l)%nat) idxs ->
  mapM (getitem l) idxs = Ok (map (fun i => nth i l d) idxs).
Proof.
  intros H. rewrite (@mapM_Ok_intro _ _ (getitem l) d).
  - f_equal. apply map_ext. intros i. apply getitem_default.
  - eapply Forall_impl; [|exact H]. intros i. apply getitem_Ok_iff.
Qed.

Lemma bool_index_map (A : Type) (p : A -> bool) (l : list A) :
  bool_index l (map p l) = filter p l.
Proof.
  unfold bool_index. induction l as [|x l IH]; [reflexivity|].
  cbn. destruct (p x); cbn; now rewrite IH.
Qed.

Lemma combine_map_same (A B C : Type) (f : A -> B) (g : A -> C) (l : list A) :
  combine (map f l) (map g l) = map (fun x => (f x, g x)) l.
Proof. induction l as [|x l IH]; [reflexivity|]. cbn. now rewrite IH. Qed.

Lemma existsb_map_comp (A B : Type) (f : B -> bool) (g : A -> B)
    (l : list A) :
  existsb f (map g l) = existsb (fun x => f (g x)) l.
Proof. induction l as [|x l IH]; [reflexivity|]. cbn. now rewrite IH. Qed.

Lemma isin_In (o : nat) (t : list nat) : isin o t = true <-> In o t.
Proof.
  unfold isin. rewrite existsb_exists. split.
  - intros (x & Hx & He). apply Nat.eqb_eq in He. now subst.
  - intros H. exists o. split; [exact H | apply Nat.eqb_refl].
Qed.

Lemma isin_filter (p : nat -> bool) (l : list nat) (o : nat) :
  In o l -> isin o (filter p l) = p o.
Proof.
  intros Hin. destruct (p o) eqn:Hp.
  - apply isin_In, filter_In. now split.
  - destruct (isin o (filter p l)) eqn:Hi; [|reflexivity].
    apply isin_In, filter_In in Hi. destruct Hi. congruence.
Qed.

Lemma filter_all (A : Type) (p : A -> bool) (l : list A) :
  (forall x, In x l -> p x = true) -> filter p l = l.
Proof.
  intros H. apply forallb_filter_id, forallb_forall. exact H.
Qed.

(** ** Rational comparisons and torch division *)


Lemma Qltb_ge (a b : Q) : Qltb a b = false <-> b <= a.
Proof.
  unfold Qltb. rewrite negb_false_iff. apply Qle_bool_iff.
Qed.

#[local] Instance Qltb_comp : Proper (Qeq ==> Qeq ==> eq) Qltb.
Proof.
  intros a a' Ha b b' Hb. unfold Qltb. now rewrite Ha, Hb.
Qed.

(** Equality of tensor elements up to the representation of rationals. *)
Definition fval_eq (u v : fval) : Prop :=
  match u, v with
  | Fin a, Fin b => a == b
  | PInf, PInf | NInf, NInf | NaN, NaN => True
  | _, _ => False
  end.

Lemma torch_div_compat (a a' b b' : Q) :
  a == a' -> b == b' -> fval_eq (torch_div a b) (torch_div a' b').
Proof.
  intros Ha Hb. unfold torch_div.
  rewrite (Qeqb_comp b b' Hb 0 0 (Qeq_refl 0)),
    (Qeqb_comp a a' Ha 0 0 (Qeq_refl 0)),
    (@Qltb_comp 0 0 (Qeq_refl 0) a a' Ha).
  destruct (Qeq_bool b' 0) eqn:E.
  - destruct (Qeq_bool a' 0); [exact I|]. destruct (Qltb 0 a'); exact I.
  - cbn. now rewrite Ha, Hb.
Qed.


Lemma fval_gtb_compat (u v : fval) (t : Q) :
  fval_eq u v -> fval_gtb u t = fval_gtb v t.
Proof.
  destruct u, v; cbn; intros H; try reflexivity; try contradiction.
  now rewrite H.
Qed.

(** ** Geometry of the box metric *)

Lemma inter_area_comm (b c : Box) : inter_area b c == inter_area c b.
Proof.
  unfold inter_area.
  rewrite (Q.max_comm (x1 b)), (Q.max_comm (y1 b)),
    (Q.min_comm (x2 b)), (Q.min_comm (y2 b)).
  reflexivity.
Qed.

Section MetricValue.

Variable match_metric : string.

(** The value of [box_metric] when the metric is one of the two known. *)
Definition metric_value (b bidx : Box) : fval :=
  if String.eqb match_metric "IOU"
  then iou_value (inter_area b bidx) (area b) (area bidx)
  else ios_value (inter_area b bidx) (area b) (area bidx).

Definition valid_metric : Prop :=
  match_metric = "IOU"%string \/ match_metric = "IOS"%string.

Lemma metric_value_sym (b c : Box) :
  fval_eq (metric_value b c) (metric_value c b).
Proof.
  unfold metric_value, iou_value, ios_value.
  destruct (String.eqb match_metric "IOU"); apply torch_div_compat.
  - apply inter_area_comm.
  - rewrite (inter_area_comm b c). ring.
  - apply inter_area_comm.
  - apply Q.min_comm.
Qed.

End MetricValue.

(** ** One round of the loop *)

Lemma mapM_map (A B C : Type) (f : B -> result C) (g : A -> B) (l : list A) :
  mapM f (map g l) = mapM (fun x => f (g x)) l.
Proof. induction l as [|x l IH]; [reflexivity|]. cbn. now rewrite IH. Qed.

Lemma isin_filter_filter (p g : nat -> bool) (l : list nat) (o : nat) :
  In o l -> isin o (filter p (filter g l)) = g o && p o.
Proof.
  intros Hin. destruct (g o) eqn:Hg.
  - rewrite isin_filter; [reflexivity|]. apply filter_In. now split.
  - cbn. destruct (isin o (filter p (filter g l))) eqn:Hi; [|reflexivity].
    apply isin_In, filter_In in Hi. destruct Hi as [Hi _].
    apply filter_In in Hi. destruct Hi. congruence.
Qed.

Section RoundFacts.

Variables (boxes : list Box) (match_metric : string) (nms_threshold : Q).
Variable masks : option (list Mask).

Definition box_at (q : nat) : Box := nth q boxes (mkBox 0 0 0 0).

(** Metric of the remaining box [q] against the popped box [idx]. *)
Definition bmv (idx q : nat) : fval :=
  metric_value match_metric (box_at q) (box_at idx).

Definition overlaps (idx q : nat) : bool := fval_gtb (bmv idx q) 0.

Definition mask_at (ms : list Mask) (q : nat) : Mask := nth q ms [].

Definition score_of (ms : list Mask) (idx q : nat) : Q :=
  match mask_metric match_metric (mask_at ms idx) (mask_at ms q) with
  | Ok s => s
  | Raise _ => 0
  end.

(** Whether [q] stays in [order] after the round of [idx] over [rest]. *)
Definition survives (idx : nat) (rest : list nat) (q : nat) : bool :=
  match masks with
  | Some ms =>
      if existsb (overlaps idx) rest
      then negb (overlaps idx q && Qltb nms_threshold (score_of ms idx q))
      else fval_ltb (bmv idx q) nms_threshold
  | None => fval_ltb (bmv idx q) nms_threshold
  end.

(** What the mask-aware branch needs to run without raising. *)
Definition masks_ready (idx : nat) (rest : list nat) : Prop :=
  forall ms, masks = Some ms -> existsb (overlaps idx) rest = true ->
    (idx < List.length ms)%nat /\
    forall q, In q rest -> overlaps idx q = true ->
      (q < List.length ms)%nat /\
      exists s, mask_metric match_metric (mask_at ms idx) (mask_at ms q) = Ok s.

Definition round_valid (idx : nat) (rest : list nat) : Prop :=
  valid_metric match_metric /\
  (idx < List.length boxes)%nat /\
  Forall (fun q => (q < List.length boxes)%nat) rest.

Lemma nth_areas (q : nat) :
  nth q (map area boxes) (area (mkBox 0 0 0 0)) = area (box_at q).
Proof. unfold box_at. apply map_nth. Qed.

(** The round once the box lookups and the metric dispatch are done. *)
Lemma nms_round_unfold (idx : nat) (rest : list nat) :
  round_valid idx rest ->
  nms_round boxes (map area boxes) match_metric nms_threshold masks idx rest
  = match masks with
    | Some ms =>
        if existsb (overlaps idx) rest then
          _ <- mapM (getitem ms) (filter (overlaps idx) rest) ;;
          _ <- getitem ms idx ;;
          sc <- mapM (fun q => mask_metric match_metric (mask_at ms idx)
                                 (mask_at ms q))
                  (filter (overlaps idx) rest) ;;
          Ok (filter
                (fun o => negb (isin o (bool_index (filter (overlaps idx) rest)
                                          (map (Qltb nms_threshold) sc))))
                rest)
        else Ok (filter (fun q => fval_ltb (bmv idx q) nms_threshold) rest)
    | None => Ok (filter (fun q => fval_ltb (bmv idx q) nms_threshold) rest)
    end.
Proof.
  intros (Hvalid & Hidx & Hrest). unfold nms_round.
  rewrite (mapM_getitem_valid (mkBox 0 0 0 0) _ Hrest). cbn [bind].
  rewrite (getitem_nth (mkBox 0 0 0 0) _ Hidx). cbn [bind].
  rewrite (@mapM_getitem_valid _ (area (mkBox 0 0 0 0)) (map area boxes) rest)
    by (now rewrite length_map).
  cbn [bind].
  rewrite (@getitem_nth _ (area (mkBox 0 0 0 0)) (map area boxes) idx)
    by (now rewrite length_map).
  cbn [bind].
  rewrite !map_map, combine_map_same, map_map. cbn [fst snd].
  match goal with
  | |- bind ?m _ = _ =>
      assert (Hm : m = Ok (map (bmv idx) rest))
  end.
  { unfold bmv, metric_value, box_at.
    destruct (String.eqb match_metric "IOU") eqn:E1.
    - f_equal. apply map_ext. intros q. now rewrite !nth_areas.
    - destruct (String.eqb match_metric "IOS") eqn:E2.
      + rewrite map_map. f_equal. apply map_ext. intros q.
        cbn [fst snd]. now rewrite !nth_areas.
      + destruct Hvalid as [Hv|Hv]; rewrite Hv in *; discriminate. }
  rewrite Hm. cbn [bind]. clear Hm.
  rewrite existsb_map_comp, !map_map, !bool_index_map.
  fold (overlaps idx).
  change (fun x : nat => fval_gtb (bmv idx x) 0) with (overlaps idx).
  destruct masks as [ms|]; [|reflexivity].
  destruct (existsb (overlaps idx) rest); [|reflexivity].
  destruct (mapM (getitem ms) (filter (overlaps idx) rest)) as [fm|] eqn:Hfm;
    [|reflexivity].
  cbn [bind].
  destruct (@mapM_getitem_Ok Mask [] _ _ _ Hfm) as [-> _].
  fold (mask_at ms).
  destruct (getitem ms idx) as [m|] eqn:Hgi; [cbn [bind]|].
  - assert (Hmi : m = mask_at ms idx).
    { unfold mask_at. rewrite <- (@getitem_default Mask [] ms idx), Hgi.
      reflexivity. }
    subst m.
    unfold intersect_over_union, intersect_over_smaller, mask_metric.
    destruct (String.eqb match_metric "IOU") eqn:E1.
    + rewrite mapM_map.
      destruct (mapM (fun x => iou_score _ _) _); cbn [bind];
        [rewrite bool_index_map|]; reflexivity.
    + destruct (String.eqb match_metric "IOS") eqn:E2.
      * rewrite mapM_map.
        destruct (mapM (fun x => ios_score _ _) _); cbn [bind];
          [rewrite bool_index_map|]; reflexivity.
      * destruct Hvalid as [Hv|Hv]; rewrite Hv in *; discriminate.
  - destruct (String.eqb match_metric "IOU") eqn:E1; [reflexivity|].
    destruct (String.eqb match_metric "IOS") eqn:E2; [reflexivity|].
    destruct Hvalid as [Hv|Hv]; rewrite Hv in *; discriminate.
Qed.

Lemma nms_round_Ok_valid (idx : nat) (rest order' : list nat) :
  nms_round boxes (map area boxes) match_metric nms_threshold masks idx rest
  = Ok order' ->
  round_valid idx rest.
Proof.
  unfold nms_round. intros H.
  destruct (mapM (getitem boxes) rest) as [sel|] eqn:Hsel; [|discriminate].
  destruct (mapM_getitem_Ok (mkBox 0 0 0 0) _ _ Hsel) as [_ Hrest].
  cbn [bind] in H.
  destruct (getitem boxes idx) as [bidx|] eqn:Hidx; [|discriminate].
  assert (Hi : (idx < List.length boxes)%nat)
    by (apply getitem_Ok_iff; eauto).
  cbn [bind] in H.
  destruct (mapM (getitem (map area boxes)) rest); [|discriminate].
  cbn [bind] in H.
  destruct (getitem (map area boxes) idx); [|discriminate].
  cbn [bind] in H.
  repeat split; trivial. unfold valid_metric.
  destruct (String.eqb_spec match_metric "IOU"); [now left|].
  destruct (String.eqb_spec match_metric "IOS"); [now right|].
  discriminate.
Qed.

Lemma nms_round_total (idx : nat) (rest : list nat) :
  round_valid idx rest -> masks_ready idx rest ->
  nms_round boxes (map area boxes) match_metric nms_threshold masks idx rest
  = Ok (filter (survives idx rest) rest).
Proof.
  intros Hvalid Hready. rewrite (nms_round_unfold Hvalid).
  unfold survives, masks_ready in *.
  destruct masks as [ms|]; [|reflexivity].
  destruct (existsb (overlaps idx) rest) eqn:Hex; [|reflexivity].
  destruct (Hready ms eq_refl eq_refl) as [Hidx Hq].
  rewrite (@mapM_getitem_valid Mask [] ms).
  2:{ apply Forall_forall. intros q Hin. apply filter_In in Hin.
      now apply Hq. }
  cbn [bind]. rewrite (@getitem_nth Mask [] ms idx Hidx). cbn [bind].
  rewrite (@mapM_Ok_intro _ _ _ 0).
  2:{ apply Forall_forall. intros q Hin. apply filter_In in Hin.
      now apply Hq. }
  cbn [bind]. fold (score_of ms idx).
  rewrite map_map, bool_index_map. f_equal.
  apply filter_ext_in. intros o Hin.
  now rewrite isin_filter_filter.
Qed.

Lemma nms_round_Ok_ready (idx : nat) (rest order' : list nat) :
  nms_round boxes (map area boxes) match_metric nms_threshold masks idx rest
  = Ok order' ->
  masks_ready idx rest.
Proof.
  intros H. pose proof (nms_round_Ok_valid _ _ H) as Hvalid.
  rewrite (nms_round_unfold Hvalid) in H.
  intros ms Hms Hex. rewrite Hms, Hex in H.
  destruct (mapM (getitem ms) _) as [fm|] eqn:Hfm; [|discriminate].
  destruct (@mapM_getitem_Ok Mask [] _ _ _ Hfm) as [_ Hlt].
  cbn [bind] in H.
  destruct (getitem ms idx) as [m|] eqn:Hgi; [|discriminate].
  cbn [bind] in H.
  destruct (mapM (fun q => mask_metric _ _ _) _) as [sc|] eqn:Hsc;
    [|discriminate].
  destruct (mapM_Ok_inv _ 0 _ Hsc) as [_ Hok].
  rewrite Forall_forall in Hlt, Hok. split.
  - apply getitem_Ok_iff. eauto.
  - intros q Hin Hov.
    assert (Hf : In q (filter (overlaps idx) rest))
      by (apply filter_In; now split).
    split; [now apply Hlt | now apply Hok].
Qed.

Lemma nms_round_inv (idx : nat) (rest order' : list nat) :
  nms_round boxes (map area boxes) match_metric nms_threshold masks idx rest
  = Ok order' ->
  order' = filter (survives idx rest) rest.
Proof.
  intros H.
  pose proof (nms_round_total (nms_round_Ok_valid _ _ H)
                (nms_round_Ok_ready _ _ H)) as Ht.
  congruence.
Qed.

End RoundFacts.

(** ** The loop *)

Section LoopFacts.

Variables (boxes : list Box) (match_metric : string) (nms_threshold : Q).
Variable masks : option (list Mask).

#[local] Abbreviation round := (nms_round boxes (map area boxes) match_metric
                     nms_threshold masks).
#[local] Abbreviation loop := (nms_loop boxes (map area boxes) match_metric
                    nms_threshold masks).

Lemma nms_loop_snoc (rest : list nat) (idx : nat) (keep : list nat) :
  loop (rest ++ [idx]) keep =
  match rest with
  | [] => Ok (keep ++ [idx])
  | _ :: _ => order' <- round idx rest ;; loop order' (keep ++ [idx])
  end.
Proof.
  destruct (rest ++ [idx]) as [|o os] eqn:Ho.
  - now destruct rest.
  - simp nms_loop.
    assert (Hl : last (o :: os) 0%nat = idx)
      by (rewrite <- Ho; apply last_last).
    assert (Hr : removelast (o :: os) = rest)
      by (rewrite <- Ho; apply removelast_last).
    generalize (inspect (removelast (o :: os))). intros [rl Hrl].
    assert (E : rest = rl) by congruence. clear Hr. subst rest.
    destruct rl as [|r rs]; simp nms_loop.
    + now rewrite Hl.
    + generalize (inspect (round (last (o :: os) 0%nat) (r :: rs))).
      intros [[order'|e] Hround]; simp nms_loop;
        rewrite Hl in Hround; rewrite ?Hl; now rewrite Hround.
Qed.

Lemma snoc_cases (order : list nat) :
  order = [] \/ exists rest idx, order = rest ++ [idx].
Proof.
  destruct order as [|o os]; [now left|]. right.
  destruct (exists_last (l := o :: os)) as (rest & idx & ->); [discriminate|].
  eauto.
Qed.

(** Every index that reaches [keep] after [idx] stood in relation [R] to
    [idx] when it survived the round of [idx]. *)
Lemma nms_loop_pairs (R : nat -> nat -> Prop) :
  (forall idx rest order', round idx rest = Ok order' ->
     forall q, In q order' -> R idx q) ->
  forall n order keep res,
    (List.length order <= n)%nat ->
    loop order keep = Ok res ->
    exists new,
      res = keep ++ new /\
      ForallOrdPairs R new /\
      incl new order /\
      (NoDup order -> NoDup new) /\
      (order <> [] -> hd_error new = Some (last order 0%nat)).
Proof.
  intros HR. induction n as [|n IH]; intros order keep res Hn H.
  - destruct order; [|cbn in Hn; lia]. simp nms_loop in H.
    injection H as <-. exists []. rewrite app_nil_r.
    repeat split; try constructor; try easy.
  - destruct (snoc_cases order) as [->|(rest & idx & ->)].
    + simp nms_loop in H. injection H as <-. exists [].
      rewrite app_nil_r. repeat split; try constructor; try easy.
    + rewrite nms_loop_snoc in H. rewrite length_app in Hn. cbn in Hn.
      destruct rest as [|r rs].
      * injection H as <-. exists [idx]. repeat split.
        -- constructor; constructor.
        -- intros x [<-|[]]. now left.
        -- intros _. constructor; [easy|constructor].
      * destruct (round idx (r :: rs)) as [order'|] eqn:Hround;
          [|discriminate].
        cbn [bind] in H.
        pose proof (nms_round_inv _ _ _ _ _ _ Hround) as Hfilter.
        pose proof (nms_round_length _ _ _ _ _ _ _ Hround) as Hlen.
        destruct (IH order' (keep ++ [idx]) res) as
          (new & -> & Hpairs & Hincl & Hnodup & _); [lia | exact H |].
        exists (idx :: new). rewrite <- app_assoc. cbn [app].
        split; [reflexivity|].
        assert (Hsub : incl order' (r :: rs))
          by (rewrite Hfilter; apply incl_filter).
        split; [|split; [|split]].
        -- constructor; [|exact Hpairs].
           apply Forall_forall. intros q Hq. eapply HR; eauto.
        -- intros x Hx. change (In x ((r :: rs) ++ [idx])). apply in_or_app.
           destruct Hx as [<-|Hx]; [right; now left | left; auto].
        -- intros Hnd. change (NoDup ((r :: rs) ++ [idx])) in Hnd.
           apply NoDup_remove in Hnd. rewrite app_nil_r in Hnd.
           destruct Hnd as [Hnd Hni].
           constructor.
           ++ intros Hi. apply Hni. auto.
           ++ apply Hnodup. rewrite Hfilter. now apply NoDup_filter.
        -- intros _. cbn [hd_error]. f_equal. symmetry.
           apply (last_last (r :: rs)).
Qed.

(** An unknown metric makes the first round raise. *)
Lemma nms_round_invalid (idx : nat) (rest : list nat) :
  ~ valid_metric match_metric ->
  (idx < List.length boxes)%nat ->
  Forall (fun q => (q < List.length boxes)%nat) rest ->
  round idx rest = Raise ValueError.
Proof.
  intros Hinv Hidx Hrest. unfold nms_round.
  rewrite (mapM_getitem_valid (mkBox 0 0 0 0) _ Hrest). cbn [bind].
  rewrite (getitem_nth (mkBox 0 0 0 0) _ Hidx). cbn [bind].
  rewrite (@mapM_getitem_valid _ (area (mkBox 0 0 0 0)) (map area boxes) rest)
    by (now rewrite length_map).
  cbn [bind].
  rewrite (@getitem_nth _ (area (mkBox 0 0 0 0)) (map area boxes) idx)
    by (now rewrite length_map).
  cbn [bind]. unfold valid_metric in Hinv.
  destruct (String.eqb_spec match_metric "IOU"); [tauto|].
  destruct (String.eqb_spec match_metric "IOS"); [tauto|]. reflexivity.
Qed.

End LoopFacts.

(** ** The initial order *)

Lemma insert_by_perm (A : Type) (lt : A -> A -> bool) (x : A) (l : list A) :
  Permutation (insert_by lt x l) (x :: l).
Proof.
  induction l as [|y l IH]; cbn; [reflexivity|].
  destruct (lt y x); [|reflexivity].
  rewrite IH. apply perm_swap.
Qed.

Lemma stable_sort_perm (A : Type) (lt : A -> A -> bool) (l : list A) :
  Permutation (stable_sort lt l) l.
Proof.
  induction l as [|x l IH]; cbn; [reflexivity|].
  rewrite insert_by_perm. now constructor.
Qed.

Lemma map_snd_combine (A B : Type) (a : list A) (b : list B) :
  List.length a = List.length b -> map snd (combine a b) = b.
Proof.
  revert b. induction a as [|x a IH]; intros [|y b] H; try discriminate;
    [reflexivity|].
  cbn. f_equal. apply IH. now injection H.
Qed.

Lemma sorted_range_perm (K : Type) (lt : K -> K -> bool) (keys : list K) :
  Permutation (sorted_range lt keys) (seq 0 (List.length keys)).
Proof.
  unfold sorted_range. rewrite stable_sort_perm.
  rewrite map_snd_combine; [reflexivity | now rewrite length_seq].
Qed.

Section SortedRange.

Variables (K : Type) (lt : K -> K -> bool).

(** [a] does not come after [b]: the order a sort by [lt] establishes. *)
Definition not_after (a b : K) : Prop := lt b a = false.

Hypothesis lt_asym : forall a b, lt a b = true -> lt b a = false.
Hypothesis not_after_trans :
  forall a b c, not_after a b -> not_after b c -> not_after a c.



End SortedRange.

Lemma combine_seq_nth (K : Type) (d : K) (keys : list K) (s : nat) :
  Forall (fun p => fst p = nth (snd p - s) keys d /\ (s <= snd p)%nat)
    (combine keys (seq s (List.length keys))).
Proof.
  revert s. induction keys as [|k keys IH]; intros s; cbn; constructor.
  - cbn. rewrite Nat.sub_diag. split; [reflexivity|lia].
  - eapply Forall_impl; [|apply (IH (S s))]. intros [a i] [H1 H2]. cbn in *.
    split; [|lia]. replace (i - s)%nat with (S (i - S s)) by lia. exact H1.
Qed.


Lemma sort_keys_Ok (confidences areas : list Q) :
  (List.length confidences <= List.length areas)%nat ->
  mapM (sort_key confidences areas) (seq 0 (List.length confidences))
  = Ok (map (key_of confidences areas) (seq 0 (List.length confidences))).
Proof.
  intros Hlen. rewrite (@mapM_Ok_intro _ _ _ (0, 0)).
  - f_equal. apply map_ext_in. intros k Hk. apply in_seq in Hk.
    unfold sort_key, key_of.
    rewrite (getitem_nth 0 confidences), (getitem_nth 0 areas) by lia.
    reflexivity.
  - apply Forall_forall. intros k Hk. apply in_seq in Hk. unfold sort_key.
    rewrite (getitem_nth 0 confidences), (getitem_nth 0 areas) by lia.
    cbn. eauto.
Qed.

Lemma initial_order_perm (confidences areas : list Q) (sorter : bool) :
  (List.length confidences <= List.length areas)%nat ->
  exists order,
    initial_order confidences areas sorter = Ok order /\
    Permutation order (seq 0 (List.length confidences)).
Proof.
  intros Hlen. unfold initial_order. destruct sorter.
  - rewrite (sort_keys_Ok _ _ Hlen). cbn [bind]. eexists. split; [reflexivity|].
    rewrite sorted_range_perm. now rewrite length_map, length_seq.
  - eexists. split; [reflexivity|]. apply sorted_range_perm.
Qed.

(** ** Box-only suppression *)

Lemma nms_nonempty (confidences : list Q) (boxes : list Box)
    (match_metric : string) (nms_threshold : Q) (masks : option (list Mask))
    (sorter : bool) :
  boxes <> [] ->
  nms confidences boxes match_metric nms_threshold masks sorter =
  (order <- initial_order confidences (map area boxes) sorter ;;
   nms_loop boxes (map area boxes) match_metric nms_threshold masks order []).
Proof. intros H. unfold nms. destruct boxes; [contradiction|reflexivity]. Qed.

Lemma perm_seq_valid (order : list nat) (n : nat) :
  Permutation order (seq 0 n) ->
  NoDup order /\ Forall (fun q => (q < n)%nat) order.
Proof.
  intros H. split.
  - eapply Permutation_NoDup; [symmetry; exact H | apply seq_NoDup].
  - apply Forall_forall. intros q Hq.
    apply (Permutation_in _ H), in_seq in Hq. lia.
Qed.

(** ** Unknown metric *)

Lemma nms_invalid_metric_raises
    (confidences : list Q) (boxes : list Box) (match_metric : string)
    (nms_threshold : Q) (masks : option (list Mask))
    (intelligent_sorter : bool) :
  ~ valid_metric match_metric ->
  List.length confidences = List.length boxes ->
  (2 <= List.length boxes)%nat ->
  nms confidences boxes match_metric nms_threshold masks intelligent_sorter
  = Raise ValueError.
Proof.
  intros Hinv Hlen Hn.
  rewrite nms_nonempty by (intros ->; cbn in Hn; lia).
  destruct (@initial_order_perm confidences (map area boxes)
              intelligent_sorter) as (order & -> & Hperm);
    [rewrite length_map; lia|].
  cbn [bind]. rewrite Hlen in Hperm.
  destruct (perm_seq_valid _ Hperm) as [_ Hall].
  apply Permutation_length in Hperm. rewrite length_seq in Hperm.
  destruct (snoc_cases order) as [->|(rest & idx & ->)];
    [cbn in Hperm; lia|].
  rewrite nms_loop_snoc. rewrite length_app in Hperm. cbn in Hperm.
  apply Forall_app in Hall. destruct Hall as [Hrest Hidx].
  destruct rest as [|r rs]; [cbn in Hperm; lia|].
  rewrite nms_round_invalid; trivial. now inversion Hidx.
Qed.

(** C9, as the code has it: with a metric other than IOU and IOS, [nms]
    returns the empty list for no boxes and [[0]] for a single box, since
    both returns precede the dispatch on the metric; with two boxes or
    more the first round raises [ValueError]. *)
Theorem nms_unknown_metric
    (confidences : list Q) (boxes : list Box) (match_metric : string)
    (nms_threshold : Q) (masks : option (list Mask))
    (intelligent_sorter : bool) :
  match_metric <> "IOU"%string -> match_metric <> "IOS"%string ->
  List.length confidences = List.length boxes ->
  (List.length boxes = 0%nat ->
   nms confidences boxes match_metric nms_threshold masks intelligent_sorter
   = Ok []) /\
  (List.length boxes = 1%nat ->
   nms confidences boxes match_metric nms_threshold masks intelligent_sorter
   = Ok [0%nat]) /\
  ((2 <= List.length boxes)%nat ->
   nms confidences boxes match_metric nms_threshold masks intelligent_sorter
   = Raise ValueError).
Proof.
  intros Hiou Hios Hlen.
  assert (Hinv : ~ valid_metric match_metric) by (intros [?|?]; contradiction).
  split; [|split]; intros Hn.
  - unfold nms. now rewrite Hn.
  - rewrite nms_nonempty by (intros ->; discriminate).
    destruct (@initial_order_perm confidences (map area boxes)
                intelligent_sorter) as (order & -> & Hperm);
      [rewrite length_map; lia|].
    cbn [bind]. rewrite Hlen, Hn in Hperm. cbn in Hperm.
    apply Permutation_sym, Permutation_length_1_inv in Hperm. subst order.
    exact (nms_loop_snoc boxes match_metric nms_threshold masks [] 0 []).
  - now apply nms_invalid_metric_raises.
Qed.

Lemma nms_unknown_metric_witness :
  (List.length [mkBox 0 0 10 10; mkBox 0 0 10 5] = 0%nat ->
   nms [9 # 10; 8 # 10] [mkBox 0 0 10 10; mkBox 0 0 10 5] "GIOU" (1 # 2)
     None false = Ok []) /\
  (List.length [mkBox 0 0 10 10; mkBox 0 0 10 5] = 1%nat ->
   nms [9 # 10; 8 # 10] [mkBox 0 0 10 10; mkBox 0 0 10 5] "GIOU" (1 # 2)
     None false = Ok [0%nat]) /\
  ((2 <= List.length [mkBox 0 0 10 10; mkBox 0 0 10 5])%nat ->
   nms [9 # 10; 8 # 10] [mkBox 0 0 10 10; mkBox 0 0 10 5] "GIOU" (1 # 2)
     None false = Raise ValueError).
Proof.
  apply (@nms_unknown_metric [9 # 10; 8 # 10]
           [mkBox 0 0 10 10; mkBox 0 0 10 5] "GIOU" (1 # 2) None false).
  - discriminate.
  - discriminate.
  - reflexivity.
Defined.

(** With an unknown metric [nms] still returns for no box and for one
    box, where C9 asks for an error. *)
Lemma nms_unknown_metric_returns :
  ~ (forall (confidences : list Q) (boxes : list Box) (match_metric : string)
       (nms_threshold : Q) (masks : option (list Mask))
       (intelligent_sorter : bool),
       match_metric <> "IOU"%string -> match_metric <> "IOS"%string ->
       exists e,
         nms confidences boxes match_metric nms_threshold masks
           intelligent_sorter = Raise e).
Proof.
  intros H.
  destruct (H [9 # 10] [mkBox 0 0 10 10] "GIOU"%string (1 # 2) None false)
    as [e He]; [discriminate | discriminate |].
  vm_compute in He. discriminate He.
Qed.

(** ** The threshold boundary *)

Lemma perm_two (order : list nat) :
  Permutation order [0; 1]%nat -> order = [0; 1]%nat \/ order = [1; 0]%nat.
Proof.
  intros H. apply Permutation_sym, Permutation_length_2_inv in H.
  destruct H; auto.
Qed.

Lemma box_metric_Ok_valid (m : string) (b c : Box) (v : fval) :
  box_metric m b c = Ok v -> valid_metric m /\ v = metric_value m b c.
Proof.
  unfold box_metric, metric_value, valid_metric. intros H.
  destruct (String.eqb_spec m "IOU").
  - split; [now left | congruence].
  - destruct (String.eqb_spec m "IOS"); [|discriminate].
    split; [now right | congruence].
Qed.

(** Two boxes whose IoU is exactly the threshold 1/2: the second one is
    suppressed, where C3 asks that both be kept. *)
Lemma nms_boundary_not_kept :
  ~ (forall (c0 c1 : Q) (b0 b1 : Box) (match_metric : string)
       (nms_threshold v : Q),
       box_metric match_metric b0 b1 = Ok (Fin v) ->
       v == nms_threshold ->
       exists keep,
         nms [c0; c1] [b0; b1] match_metric nms_threshold None false = Ok keep
         /\ In 0%nat keep /\ In 1%nat keep).
Proof.
  intros H.
  destruct (H (9 # 10) (8 # 10) (mkBox 0 0 10 10) (mkBox 0 0 10 5)
              "IOU"%string (1 # 2)
              (inter_area (mkBox 0 0 10 10) (mkBox 0 0 10 5) /
                 (area (mkBox 0 0 10 10)
                  - inter_area (mkBox 0 0 10 10) (mkBox 0 0 10 5)
                  + area (mkBox 0 0 10 5))))
    as (keep & Hk & _ & H1).
  - vm_compute. reflexivity.
  - vm_compute. reflexivity.
  - vm_compute in Hk. injection Hk as <-.
    destruct H1 as [H1|[]]. discriminate H1.
Qed.

(** ** Masks without common pixels *)

Lemma combine_swap_map (op : bool -> bool -> bool) (a b : list bool) :
  (forall x y, op x y = op y x) ->
  map (fun p => op (fst p) (snd p)) (combine a b)
  = map (fun p => op (fst p) (snd p)) (combine b a).
Proof.
  intros Hop. revert b. induction a as [|x a IH]; intros [|y b]; cbn; trivial.
  now rewrite Hop, IH.
Qed.

Lemma mask_intersection_comm (a b : Mask) :
  mask_intersection a b = mask_intersection b a.
Proof.
  unfold mask_intersection. f_equal.
  apply (combine_swap_map andb). intros [] []; reflexivity.
Qed.

Lemma Qdiv_0_l (q : Q) : inject_Z 0 / q == 0.
Proof. unfold Qdiv. apply Qmult_0_l. Qed.

(** Masks of one shape without a common pixel score zero. *)
Lemma mask_metric_disjoint (m : string) (a b : Mask) :
  List.length a = List.length b -> mask_intersection a b = 0%Z ->
  exists s, mask_metric m a b = Ok s /\ s == 0.
Proof.
  intros Hlen Hint. unfold mask_metric, iou_score, ios_score, np_logical.
  rewrite Hlen, Nat.eqb_refl. cbn [bind].
  fold (mask_intersection a b). rewrite Hint.
  destruct (String.eqb m "IOU").
  - destruct (negb _); eexists; split;
      [reflexivity | apply Qdiv_0_l | reflexivity | reflexivity].
  - destruct (negb _); eexists; split;
      [reflexivity | apply Qdiv_0_l | reflexivity | reflexivity].
Qed.

Lemma nth_two_cases (P : nat -> nat -> Prop) :
  P 0%nat 1%nat -> P 1%nat 0%nat ->
  forall idx q, (idx < 2)%nat -> (q < 2)%nat -> idx <> q -> P idx q.
Proof.
  intros H01 H10 [|[|]] [|[|]]; intros; try lia; assumption.
Qed.

(** C7: two candidates given with their masks, whose boxes overlap (the
    box metric is positive, be it below, at or above the threshold) and
    whose masks, of one shape, have no pixel in common: for a threshold
    that is not negative [nms] keeps both.  The mask score of the pair is
    zero, and only a mask score above the threshold suppresses. *)
Theorem nms_disjoint_masks_both_survive
    (c0 c1 : Q) (b0 b1 : Box) (m0 m1 : Mask) (match_metric : string)
    (nms_threshold : Q) (v : fval) (intelligent_sorter : bool) :
  box_metric match_metric b0 b1 = Ok v ->
  fval_gtb v 0 = true ->
  List.length m0 = List.length m1 ->
  mask_intersection m0 m1 = 0%Z ->
  0 <= nms_threshold ->
  exists keep,
    nms [c0; c1] [b0; b1] match_metric nms_threshold (Some [m0; m1])
      intelligent_sorter = Ok keep /\
    Permutation keep [0; 1]%nat.
Proof.
  intros Hm Hpos Hlen Hint Hthr.
  destruct (box_metric_Ok_valid _ _ _ Hm) as [Hvalid ->].
  rewrite nms_nonempty by discriminate.
  destruct (@initial_order_perm [c0; c1] (map area [b0; b1])
              intelligent_sorter) as (order & -> & Hperm); [cbn; lia|].
  cbn [bind]. cbn in Hperm.
  assert (Hkeep : forall idx q, (idx < 2)%nat -> (q < 2)%nat -> idx <> q ->
            nms_round [b0; b1] (map area [b0; b1]) match_metric nms_threshold
              (Some [m0; m1]) idx [q] = Ok [q]).
  { apply nth_two_cases.
    - rewrite nms_round_total.
      + cbn [filter]. unfold survives, overlaps, bmv. cbn [existsb box_at nth].
        rewrite (@fval_gtb_compat _ _ 0 (metric_value_sym match_metric b1 b0)),
          Hpos.
        cbn [orb andb]. unfold score_of. cbn [mask_at nth].
        destruct (@mask_metric_disjoint match_metric m0 m1 Hlen Hint)
          as (s & -> & Hs).
        assert (E : Qltb nms_threshold s = false)
          by (apply Qltb_ge; rewrite Hs; exact Hthr).
        now rewrite E.
      + repeat split; trivial; [cbn; lia|]. constructor; [cbn; lia|constructor].
      + intros ms Hms _. injection Hms as <-. split; [cbn; lia|].
        intros q [<-|[]] _. split; [cbn; lia|]. cbn [mask_at nth].
        destruct (@mask_metric_disjoint match_metric m0 m1 Hlen Hint)
          as (s & Hs & _). eauto.
    - rewrite mask_intersection_comm in Hint. symmetry in Hlen.
      rewrite nms_round_total.
      + cbn [filter]. unfold survives, overlaps, bmv. cbn [existsb box_at nth].
        rewrite Hpos. cbn [orb andb]. unfold score_of. cbn [mask_at nth].
        destruct (@mask_metric_disjoint match_metric m1 m0 Hlen Hint)
          as (s & -> & Hs).
        assert (E : Qltb nms_threshold s = false)
          by (apply Qltb_ge; rewrite Hs; exact Hthr).
        now rewrite E.
      + repeat split; trivial; [cbn; lia|]. constructor; [cbn; lia|constructor].
      + intros ms Hms _. injection Hms as <-. split; [cbn; lia|].
        intros q [<-|[]] _. split; [cbn; lia|]. cbn [mask_at nth].
        destruct (@mask_metric_disjoint match_metric m1 m0 Hlen Hint)
          as (s & Hs & _). eauto. }
  destruct (perm_two Hperm) as [-> | ->].
  - pose proof (nms_loop_snoc [b0; b1] match_metric nms_threshold
                  (Some [m0; m1]) [0%nat] 1 []) as E.
    cbn [app] in E. rewrite E, Hkeep by lia. cbn [bind].
    pose proof (nms_loop_snoc [b0; b1] match_metric nms_threshold
                  (Some [m0; m1]) [] 0 [1%nat]) as E'.
    cbn [app] in E'. rewrite E'. eexists. split; [reflexivity|].
    apply perm_swap.
  - pose proof (nms_loop_snoc [b0; b1] match_metric nms_threshold
                  (Some [m0; m1]) [1%nat] 0 []) as E.
    cbn [app] in E. rewrite E, Hkeep by lia. cbn [bind].
    pose proof (nms_loop_snoc [b0; b1] match_metric nms_threshold
                  (Some [m0; m1]) [] 1 [0%nat]) as E'.
    cbn [app] in E'. rewrite E'. eexists. split; reflexivity.
Qed.

Lemma nms_disjoint_masks_both_survive_witness :
  exists keep,
    nms [9 # 10; 8 # 10] [mkBox 0 0 10 10; mkBox 0 0 10 10] "IOU" (3 # 10)
      (Some [[true; false; false; true]; [false; true; true; false]]) false
    = Ok keep /\
    Permutation keep [0; 1]%nat.
Proof.
  apply (@nms_disjoint_masks_both_survive (9 # 10) (8 # 10)
           (mkBox 0 0 10 10) (mkBox 0 0 10 10)
           [true; false; false; true] [false; true; true; false]
           "IOU" (3 # 10)
           (iou_value (inter_area (mkBox 0 0 10 10) (mkBox 0 0 10 10))
              (area (mkBox 0 0 10 10)) (area (mkBox 0 0 10 10)))
           false).
  - reflexivity.
  - vm_compute. reflexivity.
  - reflexivity.
  - reflexivity.
  - vm_compute. discriminate.
Defined.

(** The same in any round, whatever the number of candidates: an index
    whose box overlaps the popped one and whose mask shares no pixel with
    the mask of the popped one stays in [order]. *)
Lemma nms_round_keeps_disjoint_masks
    (boxes : list Box) (match_metric : string) (nms_threshold : Q)
    (ms : list Mask) (idx q : nat) (rest order' : list nat) :
  nms_round boxes (map area boxes) match_metric nms_threshold (Some ms)
    idx rest = Ok order' ->
  In q rest ->
  overlaps boxes match_metric idx q = true ->
  List.length (mask_at ms idx) = List.length (mask_at ms q) ->
  mask_intersection (mask_at ms idx) (mask_at ms q) = 0%Z ->
  0 <= nms_threshold ->
  In q order'.
Proof.
  intros H Hin Hov Hlen Hint Hthr.
  rewrite (@nms_round_inv boxes match_metric nms_threshold (Some ms)
             idx rest order' H).
  apply filter_In. split; [exact Hin|]. unfold survives.
  assert (Hex : existsb (overlaps boxes match_metric idx) rest = true)
    by (apply existsb_exists; eauto).
  rewrite Hex, Hov. unfold score_of.
  destruct (@mask_metric_disjoint match_metric _ _ Hlen Hint) as (s & -> & Hs).
  assert (E : Qltb nms_threshold s = false)
    by (apply Qltb_ge; rewrite Hs; exact Hthr).
  now rewrite E.
Qed.

(** ** The intelligent sorter *)

Lemma StronglySorted_impl_in (A : Type) (R R' : A -> A -> Prop) (l : list A) :
  (forall x y, In x l -> In y l -> R x y -> R' x y) ->
  StronglySorted R l -> StronglySorted R' l.
Proof.
  intros Himp Hs. induction Hs as [|x l Hs IH Hall]; constructor.
  - apply IH. intros a b Ha Hb. apply Himp; now right.
  - rewrite Forall_forall in *. intros y Hy.
    apply Himp; [now left | now right | now apply Hall].
Qed.


(** ** Running [nms] on its own output *)


Section Idempotence.

Variables (boxes : list Box) (match_metric : string) (nms_threshold : Q).
Variable masks : option (list Mask).







End Idempotence.

Lemma select_length (A : Type) (l r : list A) (keep : list nat) :
  select l keep = Ok r -> List.length r = List.length keep.
Proof.
  intros H. unfold select in H.
  assert (Hd : forall d : A, List.length r = List.length keep).
  { intros d. destruct (mapM_getitem_Ok d _ _ H) as [-> _].
    apply length_map. }
  destruct r as [|a r'].
  - destruct keep as [|k ks]; [reflexivity|]. cbn in H.
    destruct (getitem l k); [|discriminate]. cbn in H.
    destruct (mapM (getitem l) ks); discriminate.
  - exact (Hd a).
Qed.


(** * Further properties *)

(** ** The tiler: numbering, order and bounds *)

Lemma Qfloor_unique (q : Q) (z : Z) :
  inject_Z z <= q -> q < inject_Z (z + 1) -> Qfloor q = z.
Proof.
  intros Hlo Hhi.
  pose proof (Qfloor_le q) as H1. pose proof (Qlt_floor q) as H2.
  assert (A : (Qfloor q < z + 1)%Z) by (rewrite Zlt_Qlt; lra).
  assert (B : (z < Qfloor q + 1)%Z) by (rewrite Zlt_Qlt; lra).
  lia.
Qed.

Lemma Qfloor_add_Z (q : Q) (z : Z) :
  Qfloor (q + inject_Z z) = (Qfloor q + z)%Z.
Proof.
  pose proof (Qfloor_le q) as H1. pose proof (Qlt_floor q) as H2.
  apply Qfloor_unique.
  - rewrite inject_Z_plus. lra.
  - rewrite <- Z.add_assoc, (Z.add_comm z 1), Z.add_assoc.
    rewrite (inject_Z_plus (Qfloor q + 1)). lra.
Qed.

(** [round] differs from the floor by zero or one. *)
Lemma py_round_bounds (q : Q) :
  (Qfloor q <= py_round q <= Qfloor q + 1)%Z.
Proof.
  unfold py_round.
  destruct (Qltb _ (1 # 2)); [lia|].
  destruct (Qltb (1 # 2) _); [lia|].
  destruct (Z.even _); lia.
Qed.

Lemma py_int_comp (p q : Q) : 0 <= p -> p == q -> py_int p = py_int q.
Proof.
  intros Hp He. rewrite !py_int_floor by lra. now rewrite He.
Qed.

Lemma start_nonneg_arg (shape j : Z) (koef : Q) :
  (0 <= shape)%Z -> (0 <= j)%Z -> 0 <= koef ->
  0 <= inject_Z (shape * j) * koef.
Proof.
  intros Hs Hj Hk. apply Qmult_le_0_compat; [|exact Hk].
  change 0 with (inject_Z 0). rewrite <- Zle_Qle. nia.
Qed.

(** Offsets grow with the grid position. *)
Lemma start_mono (shape j j' : Z) (koef : Q) :
  (0 <= shape)%Z -> (0 <= j <= j')%Z -> 0 <= koef ->
  (start shape j koef <= start shape j' koef)%Z.
Proof.
  intros Hs Hj Hk. unfold start.
  rewrite !py_int_floor by (apply start_nonneg_arg; trivial; lia).
  apply Qfloor_resp_le, Qmult_le_compat_r; [|exact Hk].
  rewrite <- Zle_Qle. nia.
Qed.

(** The canvas is the last offset plus the tile, or one pixel more. *)
Lemma new_dim_last_start (steps shape : Z) (koef : Q) :
  (0 <= shape)%Z -> (1 <= steps)%Z -> 0 <= koef ->
  (0 <= new_dim steps shape koef - (start shape (steps - 1) koef + shape)
   <= 1)%Z.
Proof.
  intros Hs Hn Hk. unfold new_dim, start.
  pose proof (py_round_bounds
                (inject_Z (steps - 1) * (inject_Z shape * koef)
                 + inject_Z shape)) as Hb.
  rewrite Qfloor_add_Z in Hb.
  rewrite (@py_int_comp (inject_Z (shape * (steps - 1)) * koef)
             (inject_Z (steps - 1) * (inject_Z shape * koef))).
  - rewrite py_int_floor; [lia|].
    apply Qmult_le_0_compat.
    + change 0 with (inject_Z 0). rewrite <- Zle_Qle. lia.
    + apply Qmult_le_0_compat; [|exact Hk].
      change 0 with (inject_Z 0). now rewrite <- Zle_Qle.
  - apply start_nonneg_arg; trivial; lia.
  - rewrite inject_Z_mult. ring.
Qed.

(** No grid position fails the residual checks of lines 126-131. *)
Lemma start_fits (steps shape j : Z) (koef : Q) :
  (0 <= shape)%Z -> (0 <= j < steps)%Z -> 0 <= koef ->
  (start shape j koef + shape <= new_dim steps shape koef)%Z.
Proof.
  intros Hs Hj Hk.
  pose proof (@new_dim_last_start steps shape koef Hs ltac:(lia) Hk) as H1.
  pose proof (@start_mono shape j (steps - 1) koef Hs ltac:(lia) Hk) as H2.
  lia.
Qed.

Lemma fold_left_appends (S A B : Type) (f : S -> A -> S) (view : S -> list B)
    (h : A -> list B) (l : list A) :
  (forall s a, In a l -> view (f s a) = view s ++ h a) ->
  forall s, view (fold_left f l s) = view s ++ flat_map h l.
Proof.
  induction l as [|a l IH]; intros Hf s; cbn.
  - now rewrite app_nil_r.
  - rewrite IH by (intros s' a' Hin; apply Hf; now right).
    rewrite Hf by now left. now rewrite app_assoc.
Qed.

Lemma flat_map_single (A B : Type) (g : A -> B) (l : list A) :
  flat_map (fun a => [g a]) l = map g l.
Proof. induction l as [|a l IH]; cbn; [reflexivity | now rewrite IH]. Qed.

Lemma map_flat_map (A B C : Type) (g : B -> C) (h : A -> list B) (l : list A) :
  map g (flat_map h l) = flat_map (fun a => map g (h a)) l.
Proof.
  induction l as [|a l IH]; cbn; [reflexivity|].
  now rewrite map_app, IH.
Qed.

Lemma crop_loops_offsets
    (image_innitial : Shape) (shape_x shape_y : Z) (koef_x koef_y : Q)
    (ys xs : Z) :
  (0 <= shape_x)%Z -> (0 <= shape_y)%Z -> 0 <= koef_x -> 0 <= koef_y ->
  map (fun c => (x_start c, y_start c))
    (snd (crop_loops image_innitial
            (mkShape (new_dim ys shape_y koef_y) (new_dim xs shape_x koef_x))
            shape_x shape_y koef_x koef_y ys xs)) =
  map (fun p => (start shape_x (snd p) koef_x, start shape_y (fst p) koef_y))
    (grid ys xs).
Proof.
  intros Hsx Hsy Hox Hoy.
  unfold crop_loops, grid. rewrite map_flat_map.
  rewrite (@fold_left_appends _ _ _ _
             (fun st => map (fun c => (x_start c, y_start c)) (snd st))
             (fun i => map (fun p => (start shape_x (snd p) koef_x,
                                      start shape_y (fst p) koef_y))
                        (map (fun j => (i, j)) (py_range xs)))).
  - reflexivity.
  - intros st i Hi. apply py_range_In in Hi.
    rewrite (@fold_left_appends _ _ _ _
               (fun st => map (fun c => (x_start c, y_start c)) (snd st))
               (fun j => [(start shape_x j koef_x, start shape_y i koef_y)])).
    + now rewrite flat_map_single, map_map.
    + intros [count acc] j Hj. apply py_range_In in Hj. unfold crop_body.
      pose proof (@start_fits xs shape_x j koef_x Hsx Hj Hox) as Hfx.
      pose proof (@start_fits ys shape_y i koef_y Hsy Hi Hoy) as Hfy.
      cbn [shape0 shape1].
      destruct (Z.ltb_spec (new_dim xs shape_x koef_x)
                  (start shape_x j koef_x + shape_x)); [lia|].
      destruct (Z.ltb_spec (new_dim ys shape_y koef_y)
                  (start shape_y i koef_y + shape_y)); [lia|].
      cbn [snd]. now rewrite map_app.
Qed.

(** X2: the crops are numbered 1, 2, 3, ... in the order of the list,
    whatever the configuration. *)
Theorem get_crops_xy_numbering
    (image_full : Shape) (shape_x shape_y : Z) (overlap_x overlap_y : Q)
    (crops : list CropComponent) (p : nat) (c : CropComponent) :
  get_crops_xy image_full shape_x shape_y overlap_x overlap_y = Ok crops ->
  nth_error crops p = Some c ->
  number_of_crop c = (Z.of_nat p + 1)%Z.
Proof.
  intros H Hp. unfold get_crops_xy, bind in H.
  destruct (steps (shape0 image_full) _ _) as [ys|]; [|discriminate].
  destruct (steps (shape1 image_full) _ _) as [xs|]; [|discriminate].
  destruct (cv2_resize image_full _ _) as [canvas|]; [|discriminate].
  injection H as <-. revert p c Hp.
  set (numbered := fun st : Z * list CropComponent =>
         fst st = Z.of_nat (List.length (snd st)) /\
         forall p c, nth_error (snd st) p = Some c ->
                     number_of_crop c = (Z.of_nat p + 1)%Z).
  enough (Hn : numbered (crop_loops image_full canvas shape_x shape_y
                           (cross_koef overlap_x) (cross_koef overlap_y)
                           ys xs)) by exact (proj2 Hn).
  unfold crop_loops. apply fold_left_invariant.
  - split; [reflexivity|]. intros [|p] c Hp; discriminate.
  - intros st i _ Hst. apply fold_left_invariant; [exact Hst|].
    clear st Hst. intros [count acc] j _ [Hcount Hacc]. unfold crop_body.
    destruct (_ <? _)%Z; [now split|]. destruct (_ <? _)%Z; [now split|].
    unfold numbered. cbn [fst snd] in *. split.
    + rewrite length_app. cbn. lia.
    + intros p c Hp.
      destruct (Nat.lt_ge_cases p (List.length acc)) as [Hlt|Hge].
      * rewrite nth_error_app1 in Hp by exact Hlt. now apply Hacc.
      * rewrite nth_error_app2 in Hp by exact Hge.
        destruct (p - List.length acc)%nat as [|k] eqn:Hk.
        -- cbn in Hp. injection Hp as <-. cbn. lia.
        -- destruct k; discriminate.
Qed.

Lemma get_crops_xy_numbering_witness :
  number_of_crop
    (CropComponent_init (mkShape 1000 1500) (mkShape 700 1225)
       (mkShape 700 700) 2 525 0) = (Z.of_nat 1 + 1)%Z.
Proof.
  apply (@get_crops_xy_numbering (mkShape 1000 1500) 700 700 25 25
           [ CropComponent_init (mkShape 1000 1500) (mkShape 700 1225)
               (mkShape 700 700) 1 0 0;
             CropComponent_init (mkShape 1000 1500) (mkShape 700 1225)
               (mkShape 700 700) 2 525 0 ] 1).
  - vm_compute. reflexivity.
  - reflexivity.
Defined.

(** X3: the resized canvas ends where the last tile of a row (of a
    column) ends, or one pixel further: after the rounding of the canvas
    size and the truncation of the offset at most one pixel column (row)
    at the far edge lies in no tile. *)
Theorem canvas_edge_within_one_pixel (steps shape : Z) (koef : Q) :
  (0 <= shape)%Z -> (1 <= steps)%Z -> 0 <= koef ->
  (0 <= new_dim steps shape koef - (start shape (steps - 1) koef + shape)
   <= 1)%Z.
Proof. apply new_dim_last_start. Qed.

Lemma canvas_edge_within_one_pixel_witness :
  (0 <= new_dim 2 641 (cross_koef 25)
        - (start 641 (2 - 1) (cross_koef 25) + 641) <= 1)%Z.
Proof.
  apply (@canvas_edge_within_one_pixel 2 641 (cross_koef 25)).
  - lia.
  - lia.
  - vm_compute. discriminate.
Defined.

Lemma steps_zero_division (image_dim shape : Z) (koef : Q) :
  shape = 0%Z \/ koef == 0 ->
  steps image_dim shape koef = Raise ZeroDivisionError.
Proof.
  intros H. unfold steps, py_div.
  assert (E : Qeq_bool (inject_Z shape * koef) 0 = true).
  { apply Qeq_bool_iff. destruct H as [-> | ->]; ring. }
  now rewrite E.
Qed.

Lemma steps_cases (image_dim shape : Z) (koef : Q) :
  steps image_dim shape koef = Raise ZeroDivisionError \/
  exists n, steps image_dim shape koef = Ok n.
Proof.
  unfold steps, py_div. destruct (Qeq_bool _ 0); cbn; eauto.
Qed.

(** X4: a tile size of zero or an overlap of 100 per cent, on either
    axis, makes [get_crops_xy] raise [ZeroDivisionError]: the step count
    divides by shape * (1 - overlap / 100). *)
Theorem get_crops_xy_zero_division
    (image_full : Shape) (shape_x shape_y : Z) (overlap_x overlap_y : Q) :
  shape_x = 0%Z \/ shape_y = 0%Z \/ overlap_x == 100 \/ overlap_y == 100 ->
  get_crops_xy image_full shape_x shape_y overlap_x overlap_y
  = Raise ZeroDivisionError.
Proof.
  intros H. unfold get_crops_xy.
  assert (Hk : forall o, o == 100 -> cross_koef o == 0).
  { intros o Ho. unfold cross_koef. rewrite Ho. reflexivity. }
  destruct (steps_cases (shape0 image_full) shape_y (cross_koef overlap_y))
    as [-> | [ys Hys]]; [reflexivity|].
  rewrite Hys. cbn [bind].
  destruct H as [H|[H|[H|H]]].
  - rewrite steps_zero_division by now left. reflexivity.
  - rewrite steps_zero_division in Hys by now left. discriminate.
  - rewrite steps_zero_division by (right; now apply Hk). reflexivity.
  - rewrite steps_zero_division in Hys by (right; now apply Hk).
    discriminate.
Qed.

Lemma get_crops_xy_zero_division_witness :
  get_crops_xy (mkShape 1000 1500) 700 700 100 25 = Raise ZeroDivisionError.
Proof.
  apply (@get_crops_xy_zero_division (mkShape 1000 1500) 700 700 100 25).
  right. right. left. reflexivity.
Defined.

Lemma steps_positive (image_dim shape : Z) (koef : Q) :
  (0 < shape <= image_dim)%Z -> 0 < koef ->
  exists n, steps image_dim shape koef = Ok n /\ (1 <= n)%Z.
Proof.
  intros Hs Hk. unfold steps, py_div.
  assert (Hd : 0 < inject_Z shape * koef).
  { apply Qmult_lt_0_compat; [|exact Hk].
    change 0 with (inject_Z 0). rewrite <- Zlt_Qlt. lia. }
  destruct (Qeq_bool _ 0) eqn:E; [apply Qeq_bool_iff in E; lra|].
  cbn [bind]. eexists. split; [reflexivity|].
  assert (Hq : 0 <= inject_Z (image_dim - shape) / (inject_Z shape * koef)).
  { apply Qle_shift_div_l; [exact Hd|]. rewrite Qmult_0_l.
    change 0 with (inject_Z 0). rewrite <- Zle_Qle. lia. }
  rewrite py_int_floor by exact Hq.
  apply Qfloor_resp_le in Hq. change (Qfloor 0) with 0%Z in Hq. lia.
Qed.

Lemma new_dim_ge_shape (steps shape : Z) (koef : Q) :
  (0 <= shape)%Z -> (1 <= steps)%Z -> 0 <= koef ->
  (shape <= new_dim steps shape koef)%Z.
Proof.
  intros Hs Hn Hk.
  pose proof (@start_fits steps shape 0 koef Hs ltac:(lia) Hk) as H.
  assert (H0 : start shape 0 koef = 0%Z).
  { unfold start. rewrite Z.mul_0_r. unfold py_int. cbn. reflexivity. }
  lia.
Qed.

Lemma grid_head (ys xs : Z) :
  (1 <= ys)%Z -> (1 <= xs)%Z ->
  exists rest, grid ys xs = (0%Z, 0%Z) :: rest.
Proof.
  intros Hy Hx. unfold grid, py_range.
  destruct (Z.to_nat ys) as [|ny] eqn:Ey; [lia|].
  destruct (Z.to_nat xs) as [|nx] eqn:Ex; [lia|].
  cbn. eauto.
Qed.

(** X5: with positive tile sizes no larger than the image and overlaps
    below 100 per cent [get_crops_xy] returns, with at least one crop,
    and the first crop sits at the corner (0, 0). *)
Theorem get_crops_xy_returns
    (image_full : Shape) (shape_x shape_y : Z) (overlap_x overlap_y : Q) :
  (0 < shape_x <= shape1 image_full)%Z ->
  (0 < shape_y <= shape0 image_full)%Z ->
  overlap_x < 100 -> overlap_y < 100 ->
  exists c crops,
    get_crops_xy image_full shape_x shape_y overlap_x overlap_y
    = Ok (c :: crops) /\
    x_start c = 0%Z /\ y_start c = 0%Z.
Proof.
  intros Hsx Hsy Hox Hoy.
  assert (Hkx : 0 < cross_koef overlap_x).
  { unfold cross_koef. assert (overlap_x / 100 < 1); [|lra].
    apply Qlt_shift_div_r; lra. }
  assert (Hky : 0 < cross_koef overlap_y).
  { unfold cross_koef. assert (overlap_y / 100 < 1); [|lra].
    apply Qlt_shift_div_r; lra. }
  destruct (@steps_positive (shape0 image_full) shape_y _ Hsy Hky)
    as (ys & Hys & Hys1).
  destruct (@steps_positive (shape1 image_full) shape_x _ Hsx Hkx)
    as (xs & Hxs & Hxs1).
  pose proof (@new_dim_ge_shape xs shape_x (cross_koef overlap_x)
                ltac:(lia) Hxs1 ltac:(lra)) as Hnx.
  pose proof (@new_dim_ge_shape ys shape_y (cross_koef overlap_y)
                ltac:(lia) Hys1 ltac:(lra)) as Hny.
  unfold get_crops_xy. rewrite Hys, Hxs. cbn [bind]. unfold cv2_resize.
  destruct (Z.leb_spec (shape0 image_full) 0); [lia|].
  destruct (Z.leb_spec (shape1 image_full) 0); [lia|].
  destruct (Z.leb_spec (new_dim xs shape_x (cross_koef overlap_x)) 0); [lia|].
  destruct (Z.leb_spec (new_dim ys shape_y (cross_koef overlap_y)) 0); [lia|].
  cbn [orb bind].
  pose proof (@crop_loops_offsets image_full shape_x shape_y
                (cross_koef overlap_x) (cross_koef overlap_y) ys xs
                ltac:(lia) ltac:(lia) ltac:(lra) ltac:(lra)) as Hmap.
  destruct (grid_head Hys1 Hxs1) as [rest Hg]. rewrite Hg in Hmap.
  destruct (snd (crop_loops _ _ _ _ _ _ _ _)) as [|c crops];
    [discriminate|].
  exists c, crops. split; [reflexivity|].
  cbn [map fst snd] in Hmap. injection Hmap as Hx Hy _.
  rewrite Hx, Hy. unfold start. rewrite !Z.mul_0_r. unfold py_int. cbn.
  split; reflexivity.
Qed.

Lemma get_crops_xy_returns_witness :
  exists c crops,
    get_crops_xy (mkShape 1000 1500) 700 700 25 25 = Ok (c :: crops) /\
    x_start c = 0%Z /\ y_start c = 0%Z.
Proof.
  apply (@get_crops_xy_returns (mkShape 1000 1500) 700 700 25 25).
  - cbn. lia.
  - cbn. lia.
  - reflexivity.
  - reflexivity.
Defined.

Lemma py_slice_len_inside (n a len : Z) :
  (0 <= a)%Z -> (0 <= len)%Z -> (a + len <= n)%Z ->
  py_slice_len n a (a + len) = len.
Proof.
  intros Ha Hl Hn. unfold py_slice_len.
  destruct (Z.ltb_spec (a + len) 0); [lia|].
  destruct (Z.ltb_spec a 0); lia.
Qed.

Lemma tiled_crops_aggregation_raises_witness :
  combinate_detections
    (_detect_objects
       [ CropComponent_init (mkShape 1000 1500) (mkShape 700 1225)
           (mkShape 700 700) 1 0 0;
         CropComponent_init (mkShape 1000 1500) (mkShape 700 1225)
           (mkShape 700 700) 2 525 0 ]) = Raise TypeError.
Proof.
  apply (@tiled_crops_aggregation_raises (mkShape 1000 1500) 700 700 25 25).
  - vm_compute. reflexivity.
  - discriminate.
Defined.

(** ** The crop record and the aggregation *)

(** X6: a crop in which the detector finds nothing goes through
    [calculate_inference] and then makes [calculate_real_values] raise
    [ValueError]: the empty array of boxes, of shape (0,), does not
    broadcast against the (1,4) offset row. *)
Theorem calculate_real_values_no_detection
    (cv2_resize_nearest : Mask -> Z * Z -> Mask)
    (pred : Prediction) (segment : bool) (c : CropComponent) :
  pred_xyxy pred = [] -> pred_cls pred = [] ->
  exists c1,
    calculate_inference pred segment c = Ok c1 /\
    detected_xyxy c1 = Some [] /\
    calculate_real_values cv2_resize_nearest c1 = Raise ValueError.
Proof.
  intros Hb Hc. unfold calculate_inference. rewrite Hc, Hb.
  cbn [List.length Nat.eqb negb andb]. rewrite andb_false_r.
  eexists. split; [reflexivity|]. split; reflexivity.
Qed.

Lemma calculate_real_values_no_detection_witness :
  exists c1,
    calculate_inference (mkPrediction [] [] [] None) true
      (CropComponent_init (mkShape 100 100) (mkShape 100 100)
         (mkShape 40 40) 1 50 50) = Ok c1 /\
    detected_xyxy c1 = Some [] /\
    calculate_real_values (fun m _ => m) c1 = Raise ValueError.
Proof.
  apply (@calculate_real_values_no_detection (fun m _ => m)
           (mkPrediction [] [] [] None) true
           (CropComponent_init (mkShape 100 100) (mkShape 100 100)
              (mkShape 40 40) 1 50 50)).
  - reflexivity.
  - reflexivity.
Defined.

Lemma combinate_loop_char (crops : list CropComponent) :
  forall cf bx ms cl,
    combinate_loop crops (cf, bx, ms, cl) =
    if forallb all_present crops then
      Ok (cf ++ flat_map (fun c => or_empty (detected_conf c)) crops,
          bx ++ flat_map (fun c => or_empty (detected_xyxy_real c)) crops,
          ms ++ flat_map (fun c => or_empty (detected_masks_real c)) crops,
          cl ++ flat_map (fun c => or_empty (detected_cls c)) crops)
    else Raise TypeError.
Proof.
  induction crops as [|c crops IH]; intros cf bx ms cl.
  - cbn. now rewrite !app_nil_r.
  - cbn [combinate_loop forallb flat_map]. unfold all_present at 1.
    destruct (detected_conf c) as [l1|]; [|reflexivity].
    destruct (detected_xyxy_real c) as [l2|]; [|reflexivity].
    destruct (detected_masks_real c) as [l3|]; [|reflexivity].
    destruct (detected_cls c) as [l4|]; [|reflexivity].
    cbn [extend bind andb or_empty]. rewrite IH.
    destruct (forallb all_present crops); [|reflexivity].
    now rewrite !app_assoc.
Qed.

(** X7: [combinate_detections] returns exactly when no field it reads is
    [None] in any crop, and then each of the four lists is the
    concatenation, crop after crop, of the crops' lists; otherwise it
    raises [TypeError]. *)
Theorem combinate_detections_char (crops : list CropComponent) :
  combinate_detections crops =
  if forallb all_present crops then
    Ok (flat_map (fun c => or_empty (detected_conf c)) crops,
        flat_map (fun c => or_empty (detected_xyxy_real c)) crops,
        flat_map (fun c => or_empty (detected_masks_real c)) crops,
        flat_map (fun c => or_empty (detected_cls c)) crops)
  else Raise TypeError.
Proof.
  unfold combinate_detections. now rewrite combinate_loop_char.
Qed.

Lemma flat_map_length_eq (A B C : Type) (f : A -> list B) (g : A -> list C)
    (l : list A) :
  Forall (fun a => List.length (f a) = List.length (g a)) l ->
  List.length (flat_map f l) = List.length (flat_map g l).
Proof.
  induction 1 as [|a l Ha _ IH]; cbn; [reflexivity|].
  now rewrite !length_app, Ha, IH.
Qed.

(** X8: when the four lists of every crop are co-indexed, the
    aggregation returns and its four lists have one length: index i
    denotes one detection across them, which is what [nms] and the
    selections after it rely on. *)
Theorem combinate_detections_co_indexed (crops : list CropComponent) :
  Forall co_indexed crops ->
  exists cf bx ms cl,
    combinate_detections crops = Ok (cf, bx, ms, cl) /\
    List.length bx = List.length cf /\ List.length ms = List.length cf /\
    List.length cl = List.length cf.
Proof.
  intros H. unfold combinate_detections. rewrite combinate_loop_char.
  assert (Hall : forallb all_present crops = true).
  { apply forallb_forall. rewrite Forall_forall in H. intros c Hc.
    destruct (H c Hc) as (? & ? & ? & ? & H1 & H2 & H3 & H4 & _).
    unfold all_present. now rewrite H1, H2, H3, H4. }
  rewrite Hall. cbn [app]. do 4 eexists. split; [reflexivity|].
  repeat split; apply flat_map_length_eq;
    (eapply Forall_impl; [|exact H]);
    intros c (? & ? & ? & ? & H1 & H2 & H3 & H4 & L1 & L2 & L3);
    rewrite ?H1, ?H2, ?H3, ?H4; cbn [or_empty]; assumption.
Qed.

Lemma combinate_detections_co_indexed_witness :
  exists cf bx ms cl,
    combinate_detections
      [ mkCrop (mkShape 100 100) (mkShape 100 100) (mkShape 40 40) 1 0 0
          (Some [9 # 10]) (Some [0%Z]) (Some [mkIBox 10 10 20 20])
          (Some [[true]]) (Some [mkIBox 10 10 20 20]) (Some [[true]]) ]
    = Ok (cf, bx, ms, cl) /\
    List.length bx = List.length cf /\ List.length ms = List.length cf /\
    List.length cl = List.length cf.
Proof.
  apply (@combinate_detections_co_indexed
           [ mkCrop (mkShape 100 100) (mkShape 100 100) (mkShape 40 40) 1 0 0
               (Some [9 # 10]) (Some [0%Z]) (Some [mkIBox 10 10 20 20])
               (Some [[true]]) (Some [mkIBox 10 10 20 20]) (Some [[true]]) ]).
  constructor; [|constructor].
  exists [9 # 10], [mkIBox 10 10 20 20], [[true]], [0%Z].
  repeat split; reflexivity.
Defined.

(** X9: a crop whose prediction is co-indexed, not empty and comes with
    masks is left co-indexed by [calculate_inference] with [segment] on
    followed by [calculate_real_values], whatever the crop held before:
    boxes, masks, confidences and classes keep one length. *)
Theorem inference_then_real_values_co_indexed
    (cv2_resize_nearest : Mask -> Z * Z -> Mask)
    (pred : Prediction) (masks : list Mask) (c : CropComponent) :
  pred_xyxy pred <> [] ->
  List.length (pred_xyxy pred) = List.length (pred_conf pred) ->
  List.length (pred_cls pred) = List.length (pred_conf pred) ->
  pred_masks pred = Some masks ->
  List.length masks = List.length (pred_conf pred) ->
  exists c1 c2,
    calculate_inference pred true c = Ok c1 /\
    calculate_real_values cv2_resize_nearest c1 = Ok c2 /\
    co_indexed c2.
Proof.
  intros Hne Hb Hc Hm Hml. unfold calculate_inference.
  assert (Hcls : Nat.eqb (List.length (pred_cls pred)) 0 = false).
  { apply Nat.eqb_neq. rewrite Hc, <- Hb.
    destruct (pred_xyxy pred); [contradiction|discriminate]. }
  rewrite Hcls, Hm. cbn [negb andb].
  destruct (pred_xyxy pred) as [|b bs] eqn:Hx; [contradiction|].
  eexists. eexists.
  split; [reflexivity|]. unfold calculate_real_values.
  cbn [detected_xyxy detected_masks x_start y_start bind].
  split; [reflexivity|].
  unfold co_indexed.
  cbn [detected_conf detected_xyxy_real detected_masks_real detected_cls].
  do 4 eexists. repeat split; rewrite ?length_map; auto.
Qed.

Lemma inference_then_real_values_co_indexed_witness :
  exists c1 c2,
    calculate_inference
      (mkPrediction [mkIBox 10 10 20 20] [0%Z] [9 # 10] (Some [[true]]))
      true
      (CropComponent_init (mkShape 100 100) (mkShape 100 100)
         (mkShape 40 40) 1 50 50) = Ok c1 /\
    calculate_real_values (fun m _ => m) c1 = Ok c2 /\
    co_indexed c2.
Proof.
  apply (@inference_then_real_values_co_indexed (fun m _ => m)
           (mkPrediction [mkIBox 10 10 20 20] [0%Z] [9 # 10] (Some [[true]]))
           [[true]]
           (CropComponent_init (mkShape 100 100) (mkShape 100 100)
              (mkShape 40 40) 1 50 50)).
  - discriminate.
  - reflexivity.
  - reflexivity.
  - reflexivity.
  - reflexivity.
Defined.

(** ** Mask scores *)

Lemma mapM_Forall2 (A B : Type) (f : A -> result B) (l : list A) (r : list B) :
  mapM f l = Ok r -> Forall2 (fun x y => f x = Ok y) l r.
Proof.
  revert r. induction l as [|x l IH]; intros r H; cbn in H.
  - injection H as <-. constructor.
  - destruct (f x) as [y|] eqn:Hx; [|discriminate]. cbn in H.
    destruct (mapM f l) as [ys|]; [|discriminate]. cbn in H.
    injection H as <-. constructor; auto.
Qed.

(** Pixel counts of the conjunction and of the disjunction of two masks
    of one size. *)
Lemma logical_counts (a b : Mask) :
  List.length a = List.length b ->
  let i := mask_sum (map (fun p => fst p && snd p)%bool (combine a b)) in
  let u := mask_sum (map (fun p => fst p || snd p)%bool (combine a b)) in
  (0 <= i /\ i <= mask_sum a /\ i <= mask_sum b /\
   mask_sum a <= u /\ mask_sum b <= u)%Z.
Proof.
  unfold mask_sum. revert b.
  induction a as [|x a IH]; intros [|y b] H; try discriminate.
  - cbn. lia.
  - injection H as H. specialize (IH b H). cbn zeta in IH.
    destruct x, y; cbn [combine map fst snd andb orb filter id List.length];
      lia.
Qed.

Lemma np_logical_Ok (op : bool -> bool -> bool) (a b r : Mask) :
  np_logical op a b = Ok r ->
  List.length a = List.length b /\
  r = map (fun p => op (fst p) (snd p)) (combine a b).
Proof.
  unfold np_logical. destruct (Nat.eqb_spec (List.length a) (List.length b));
    [|discriminate].
  intros H. injection H as <-. now split.
Qed.

Lemma Qdiv_unit (n d : Z) : (0 <= n <= d)%Z -> (d <> 0)%Z ->
  0 <= inject_Z n / inject_Z d <= 1.
Proof.
  intros Hn Hd.
  assert (H0 : 0 < inject_Z d)
    by (change 0 with (inject_Z 0); rewrite <- Zlt_Qlt; lia).
  assert (H1 : 0 <= inject_Z n)
    by (change 0 with (inject_Z 0); rewrite <- Zle_Qle; lia).
  assert (H2 : inject_Z n <= inject_Z d) by (rewrite <- Zle_Qle; lia).
  split.
  - apply Qle_shift_div_l; [exact H0 | lra].
  - apply Qle_shift_div_r; [exact H0 | lra].
Qed.

Lemma iou_score_unit (a b : Mask) (s : Q) :
  iou_score a b = Ok s -> 0 <= s <= 1.
Proof.
  unfold iou_score. intros H.
  destruct (np_logical andb a b) as [i|] eqn:Hi; [|discriminate].
  destruct (np_logical orb a b) as [u|] eqn:Hu; [|discriminate].
  cbn [bind] in H. injection H as <-.
  destruct (np_logical_Ok _ _ _ Hi) as [Hlen ->].
  destruct (np_logical_Ok _ _ _ Hu) as [_ ->].
  pose proof (logical_counts a b Hlen) as Hc. cbn zeta in Hc.
  destruct (Z.eqb_spec (mask_sum (map (fun p => fst p || snd p)%bool
                                    (combine a b))) 0); cbn [negb].
  - lra.
  - apply Qdiv_unit; lia.
Qed.

Lemma ios_score_unit (a b : Mask) (s : Q) :
  ios_score a b = Ok s -> 0 <= s <= 1.
Proof.
  unfold ios_score. intros H.
  destruct (np_logical andb a b) as [i|] eqn:Hi; [|discriminate].
  cbn [bind] in H. injection H as <-.
  destruct (np_logical_Ok _ _ _ Hi) as [Hlen ->].
  pose proof (logical_counts a b Hlen) as Hc. cbn zeta in Hc.
  destruct (Z.eqb_spec (Z.min (mask_sum a) (mask_sum b)) 0); cbn [negb].
  - lra.
  - apply Qdiv_unit; lia.
Qed.

Lemma iou_le_ios_score (a b : Mask) (s s' : Q) :
  iou_score a b = Ok s -> ios_score a b = Ok s' -> s <= s'.
Proof.
  unfold iou_score, ios_score. intros H H'.
  destruct (np_logical andb a b) as [i|] eqn:Hi; [|discriminate].
  destruct (np_logical orb a b) as [u|] eqn:Hu; [|discriminate].
  cbn [bind] in H, H'. injection H as <-. injection H' as <-.
  destruct (np_logical_Ok _ _ _ Hi) as [Hlen ->].
  destruct (np_logical_Ok _ _ _ Hu) as [_ ->].
  pose proof (logical_counts a b Hlen) as Hc. cbn zeta in Hc.
  set (i := mask_sum (map (fun p => fst p && snd p)%bool (combine a b))) in *.
  set (u := mask_sum (map (fun p => fst p || snd p)%bool (combine a b))) in *.
  set (m := Z.min (mask_sum a) (mask_sum b)).
  assert (Hm : (0 <= i <= m /\ m <= u)%Z) by (unfold m; lia).
  clearbody i u m. clear Hc.
  destruct (Z.eqb_spec u 0) as [Hu0|Hu0]; cbn [negb].
  - destruct (Z.eqb_spec m 0); cbn [negb]; [lra|]. lia.
  - destruct (Z.eqb_spec m 0) as [Hm0|Hm0]; cbn [negb].
    + assert (Hi0 : i = 0%Z) by lia. rewrite Hi0, Qdiv_0_l. lra.
    + assert (Hmq : 0 < inject_Z m)
        by (change 0 with (inject_Z 0); rewrite <- Zlt_Qlt; lia).
      assert (Huq : inject_Z m <= inject_Z u) by (rewrite <- Zle_Qle; lia).
      assert (Hiq : 0 <= inject_Z i)
        by (change 0 with (inject_Z 0); rewrite <- Zle_Qle; lia).
      apply Qle_shift_div_l; [exact Hmq|].
      unfold Qdiv. rewrite <- Qmult_assoc, (Qmult_comm (/ inject_Z u)),
        Qmult_assoc.
      apply Qle_shift_div_r; [lra|].
      apply Qmult_le_compat_nonneg; split; lra.
Qed.

(** X11: against any mask the intersection-over-union score is at most
    the intersection-over-smaller score: at one threshold the IOS metric
    suppresses whatever the IOU metric suppresses. *)
Theorem iou_at_most_ios
    (mask : Mask) (masks_list : list Mask) (iou ios : list Q) :
  intersect_over_union mask masks_list = Ok iou ->
  intersect_over_smaller mask masks_list = Ok ios ->
  Forall2 Qle iou ios.
Proof.
  unfold intersect_over_union, intersect_over_smaller.
  revert iou ios. induction masks_list as [|m l IH]; intros iou ios H H';
    cbn in H, H'.
  - injection H as <-. injection H' as <-. constructor.
  - destruct (iou_score mask m) as [s|] eqn:Hs; [|discriminate].
    destruct (ios_score mask m) as [s'|] eqn:Hs'; [|discriminate].
    cbn [bind] in H, H'.
    destruct (mapM (iou_score mask) l) as [r|]; [|discriminate].
    destruct (mapM (ios_score mask) l) as [r'|]; [|discriminate].
    cbn [bind] in H, H'. injection H as <-. injection H' as <-.
    constructor; [now apply iou_le_ios_score with (a := mask) (b := m)|].
    now apply IH.
Qed.

Lemma iou_at_most_ios_witness :
  Forall2 Qle [1 # 3; 0 # 2] [1 # 2; 0].
Proof.
  apply (@iou_at_most_ios [true; false; true]
           [[true; true; false]; [false; false; false]]).
  - reflexivity.
  - reflexivity.
Defined.

(** ** More on the loop of [nms] *)

Lemma StronglySorted_snoc (A : Type) (R : A -> A -> Prop) (l : list A) (x : A) :
  StronglySorted R (l ++ [x]) ->
  StronglySorted R l /\ Forall (fun y => R y x) l.
Proof.
  induction l as [|a l IH]; cbn; intros H.
  - split; constructor.
  - inversion H as [|? ? Hs Hall]; subst. destruct (IH Hs) as [Hl Hx].
    apply Forall_app in Hall. destruct Hall as [Hall Hax].
    split; constructor; trivial. now inversion Hax.
Qed.

Lemma StronglySorted_filter (A : Type) (R : A -> A -> Prop) (p : A -> bool)
    (l : list A) :
  StronglySorted R l -> StronglySorted R (filter p l).
Proof.
  induction 1 as [|a l Hs IH Hall]; cbn; [constructor|].
  destruct (p a); [|exact IH]. constructor; [exact IH|].
  rewrite Forall_forall in *. intros y Hy. apply Hall.
  apply filter_In in Hy. tauto.
Qed.

Section LoopOrder.

Variables (boxes : list Box) (match_metric : string) (nms_threshold : Q).
Variable masks : option (list Mask).

#[local] Abbreviation round2 := (nms_round boxes (map area boxes) match_metric
                                   nms_threshold masks).
#[local] Abbreviation loop2 := (nms_loop boxes (map area boxes) match_metric
                                  nms_threshold masks).

(** The first round checks every index of [order] against the boxes. *)
Lemma nms_loop_valid (order keep res : list nat) :
  (2 <= List.length order)%nat ->
  loop2 order keep = Ok res ->
  valid_metric match_metric /\
  Forall (fun q => (q < List.length boxes)%nat) order.
Proof.
  intros Hlen H.
  destruct (snoc_cases order) as [->|(rest & idx & ->)]; [cbn in Hlen; lia|].
  rewrite nms_loop_snoc in H. rewrite length_app in Hlen. cbn in Hlen.
  destruct rest as [|r rs]; [cbn in Hlen; lia|].
  destruct (round2 idx (r :: rs)) as [order'|] eqn:Hround; [|discriminate].
  destruct (@nms_round_Ok_valid boxes match_metric nms_threshold masks
              idx (r :: rs) order' Hround) as (Hv & Hi & Hr).
  split; [exact Hv|]. apply Forall_app. split; [exact Hr|].
  constructor; [exact Hi|constructor].
Qed.

Lemma mask_metric_same_length (a b : Mask) :
  List.length a = List.length b ->
  exists s, mask_metric match_metric a b = Ok s.
Proof.
  intros H. unfold mask_metric, iou_score, ios_score, np_logical.
  rewrite H, Nat.eqb_refl. cbn [bind].
  destruct (String.eqb match_metric "IOU"); eauto.
Qed.

(** Masks given for every box, all of one size. *)
Definition masks_fit : Prop :=
  forall ms, masks = Some ms ->
    (List.length boxes <= List.length ms)%nat /\
    exists size, Forall (fun m => List.length m = size) ms.

Lemma nms_loop_total :
  valid_metric match_metric -> masks_fit ->
  forall n order keep,
    (List.length order <= n)%nat ->
    Forall (fun q => (q < List.length boxes)%nat) order ->
    exists res, loop2 order keep = Ok res.
Proof.
  intros Hvalid Hfit. induction n as [|n IH]; intros order keep Hn Hall.
  - destruct order; [|cbn in Hn; lia]. simp nms_loop. eauto.
  - destruct (snoc_cases order) as [->|(rest & idx & ->)].
    + simp nms_loop. eauto.
    + rewrite nms_loop_snoc. rewrite length_app in Hn. cbn in Hn.
      apply Forall_app in Hall. destruct Hall as [Hrest Hidx].
      assert (Hi : (idx < List.length boxes)%nat) by now inversion Hidx.
      destruct rest as [|r rs]; [eauto|].
      rewrite nms_round_total.
      * cbn [bind]. apply IH.
        -- etransitivity; [apply filter_length_le|lia].
        -- apply Forall_forall. intros q Hq. apply filter_In in Hq.
           rewrite Forall_forall in Hrest. now apply Hrest.
      * repeat split; trivial.
      * intros ms Hms _. destruct (Hfit ms Hms) as [Hlen [size Hsize]].
        rewrite Forall_forall in Hsize, Hrest.
        assert (Hm : forall k, (k < List.length boxes)%nat ->
                  List.length (mask_at ms k) = size).
        { intros k Hk. apply Hsize. unfold mask_at. apply nth_In. lia. }
        split; [lia|]. intros q Hq _. specialize (Hrest q Hq).
        split; [lia|]. apply mask_metric_same_length.
        now rewrite !Hm.
Qed.

End LoopOrder.

(** ** More on [nms] *)

Lemma initial_order_Ok_perm (confidences areas : list Q) (sorter : bool)
    (order : list nat) :
  initial_order confidences areas sorter = Ok order ->
  Permutation order (seq 0 (List.length confidences)).
Proof.
  unfold initial_order. destruct sorter.
  - destruct (mapM _ _) as [keys|] eqn:Hk; [|discriminate].
    cbn [bind]. intros H. injection H as <-.
    apply mapM_Forall2, Forall2_length in Hk. rewrite length_seq in Hk.
    rewrite Hk. apply sorted_range_perm.
  - intros H. injection H as <-. apply sorted_range_perm.
Qed.


Lemma nms_Ok_inv (confidences : list Q) (boxes : list Box)
    (match_metric : string) (nms_threshold : Q) (masks : option (list Mask))
    (sorter : bool) (keep : list nat) :
  nms confidences boxes match_metric nms_threshold masks sorter = Ok keep ->
  (boxes = [] /\ keep = []) \/
  (boxes <> [] /\
   exists order,
     initial_order confidences (map area boxes) sorter = Ok order /\
     Permutation order (seq 0 (List.length confidences)) /\
     nms_loop boxes (map area boxes) match_metric nms_threshold masks order []
     = Ok keep).
Proof.
  intros H. destruct boxes as [|b bs] eqn:Hb.
  - left. unfold nms in H. cbn in H. injection H as <-. now split.
  - right. split; [discriminate|]. rewrite <- Hb in *.
    rewrite nms_nonempty in H by (rewrite Hb; discriminate).
    destruct (initial_order confidences (map area boxes) sorter)
      as [order|] eqn:Ho; [|discriminate].
    cbn [bind] in H. exists order. split; [reflexivity|].
    split; [now apply initial_order_Ok_perm with (1 := Ho) | exact H].
Qed.

(** X12: whenever [nms] returns, no index is returned twice and every
    returned index is in range for the confidences and for the boxes: the
    selections the caller makes with the result cannot raise. *)
Theorem nms_indices_valid
    (confidences : list Q) (boxes : list Box) (match_metric : string)
    (nms_threshold : Q) (masks : option (list Mask))
    (intelligent_sorter : bool) (keep : list nat) :
  nms confidences boxes match_metric nms_threshold masks intelligent_sorter
  = Ok keep ->
  NoDup keep /\
  Forall (fun i => (i < List.length confidences)%nat /\
                   (i < List.length boxes)%nat) keep.
Proof.
  intros H.
  destruct (nms_Ok_inv _ _ _ _ _ _ H)
    as [[_ ->]|(Hne & order & _ & Hperm & Hloop)];
    [split; constructor|].
  destruct (perm_seq_valid _ Hperm) as [Hnd Hall].
  destruct (@nms_loop_pairs boxes match_metric nms_threshold masks
              (fun _ _ => True)) with (n := List.length order)
         (order := order) (keep := @nil nat) (res := keep)
    as (new & Hres & _ & Hincl & Hnodup & _); auto.
  cbn [app] in Hres. subst new. split; [auto|].
  rewrite Forall_forall in *. intros i Hi. split; [auto|].
  destruct (Nat.lt_ge_cases (List.length order) 2) as [Hshort|Hlong].
  - pose proof (Permutation_length Hperm) as Hl. rewrite length_seq in Hl.
    specialize (Hall i (Hincl i Hi)).
    destruct boxes; [contradiction|]. cbn. lia.
  - destruct (@nms_loop_valid boxes match_metric nms_threshold masks
                order [] keep Hlong Hloop) as [_ Hv].
    rewrite Forall_forall in Hv. auto.
Qed.

Lemma nms_indices_valid_witness :
  NoDup [0%nat; 2%nat] /\
  Forall (fun i => (i < List.length [9 # 10; 8 # 10; 7 # 10])%nat /\
                   (i < List.length [mkBox 0 0 10 10; mkBox 1 1 11 11;
                                     mkBox 20 20 30 30])%nat)
    [0%nat; 2%nat].
Proof.
  apply (@nms_indices_valid [9 # 10; 8 # 10; 7 # 10]
           [mkBox 0 0 10 10; mkBox 1 1 11 11; mkBox 20 20 30 30]
           "IOU" (1 # 2) None false [0%nat; 2%nat]).
  vm_compute. reflexivity.
Defined.





(** X18: with metric IOU or IOS, confidences and boxes of one length and,
    when masks are given, one mask per box and all masks of one size,
    [nms] returns: no lookup and no mask comparison raises. *)
Theorem nms_returns
    (confidences : list Q) (boxes : list Box) (match_metric : string)
    (nms_threshold : Q) (masks : option (list Mask))
    (intelligent_sorter : bool) :
  match_metric = "IOU"%string \/ match_metric = "IOS"%string ->
  List.length confidences = List.length boxes ->
  (forall ms, masks = Some ms ->
     List.length ms = List.length boxes /\
     exists size, Forall (fun m => List.length m = size) ms) ->
  exists keep,
    nms confidences boxes match_metric nms_threshold masks intelligent_sorter
    = Ok keep.
Proof.
  intros Hvalid Hlen Hmasks.
  destruct boxes as [|b0 bs] eqn:Hb; [now exists []|]. rewrite <- Hb in *.
  rewrite nms_nonempty by (rewrite Hb; discriminate).
  destruct (@initial_order_perm confidences (map area boxes)
              intelligent_sorter) as (order & -> & Hperm);
    [rewrite length_map; lia|].
  cbn [bind]. rewrite Hlen in Hperm.
  destruct (perm_seq_valid _ Hperm) as [_ Hall].
  apply (@nms_loop_total boxes match_metric nms_threshold masks Hvalid)
    with (n := List.length order); trivial.
  intros ms Hms. destruct (Hmasks ms Hms) as [Hl Hs]. split; [lia|exact Hs].
Qed.

Lemma nms_returns_witness :
  exists keep,
    nms [9 # 10; 7 # 10; 5 # 10]
      [mkBox 0 0 10 10; mkBox 20 20 30 30; mkBox 0 0 10 10] "IOS" (3 # 10)
      (Some [[true; false]; [false; true]; [true; false]]) true = Ok keep.
Proof.
  apply (@nms_returns [9 # 10; 7 # 10; 5 # 10]
           [mkBox 0 0 10 10; mkBox 20 20 30 30; mkBox 0 0 10 10]
           "IOS" (3 # 10)
           (Some [[true; false]; [false; true]; [true; false]]) true).
  - right. reflexivity.
  - reflexivity.
  - intros ms Hms. injection Hms as <-. split; [reflexivity|].
    exists 2%nat. repeat constructor.
Defined.
(** * Properties of the machine-arithmetic model *)

(** ** Comparisons of floating-point numbers *)

Lemma SFcompare_swap (x y : spec_float) :
  SFcompare y x = option_map CompOpp (SFcompare x y).
Proof.
  destruct x as [sx|sx| |sx mx ex], y as [sy|sy| |sy my ey]; cbn;
    try reflexivity;
    try (destruct sx; reflexivity); try (destruct sy; reflexivity);
    try (destruct sx, sy; reflexivity).
  destruct sx, sy; cbn; try reflexivity;
    rewrite (Z.compare_antisym ey ex); destruct (ey ?= ex)%Z; cbn;
    try reflexivity;
    change (Pos.compare_cont Eq mx my) with (mx ?= my)%positive;
    change (Pos.compare_cont Eq my mx) with (my ?= mx)%positive;
    rewrite (Pos.compare_antisym mx my); destruct (mx ?= my)%positive;
    reflexivity.
Qed.

(** A non-NaN number as a triple of integers ordered lexicographically. *)
Definition float_rank (x : spec_float) : Z * Z * Z :=
  match x with
  | S754_nan => (0, 0, 0)%Z
  | S754_zero _ => (0, 0, 0)%Z
  | S754_infinity s => (if s then (-2)%Z else 2%Z, 0%Z, 0%Z)
  | S754_finite s m e => if s then ((-1)%Z, (- e)%Z, Zneg m)
                         else (1%Z, e, Zpos m)
  end.

Definition lex_lt (a b : Z * Z * Z) : Prop :=
  (fst (fst a) < fst (fst b) \/
   (fst (fst a) = fst (fst b) /\
    (snd (fst a) < snd (fst b) \/
     (snd (fst a) = snd (fst b) /\ snd a < snd b))))%Z.

Lemma SFltb_rank (x y : spec_float) :
  x <> S754_nan -> y <> S754_nan ->
  (SFltb x y = true <-> lex_lt (float_rank x) (float_rank y)).
Proof.
  intros Hx Hy. unfold SFltb, lex_lt.
  destruct x as [sx|sx| |sx mx ex], y as [sy|sy| |sy my ey];
    try contradiction; cbn [SFcompare float_rank];
    try destruct sx; try destruct sy; cbn [fst snd];
    try (split; intros H;
         first [reflexivity | discriminate | lia | (exfalso; lia)]).
  - destruct (Z.compare_spec ex ey).
    + subst. change (Pos.compare_cont Eq mx my) with (mx ?= my)%positive.
      destruct (Pos.compare_spec mx my); cbn; split; intros H';
        first [reflexivity | discriminate | lia | (exfalso; lia)].
    + split; intros H';
        first [reflexivity | discriminate | lia | (exfalso; lia)].
    + split; intros H';
        first [reflexivity | discriminate | lia | (exfalso; lia)].
  - destruct (Z.compare_spec ex ey).
    + subst. change (Pos.compare_cont Eq mx my) with (mx ?= my)%positive.
      destruct (Pos.compare_spec mx my); cbn; split; intros H';
        first [reflexivity | discriminate | lia | (exfalso; lia)].
    + split; intros H';
        first [reflexivity | discriminate | lia | (exfalso; lia)].
    + split; intros H';
        first [reflexivity | discriminate | lia | (exfalso; lia)].
Qed.

Lemma fp_ltb_asym (x y : Fp.float) : Fp.ltb x y = true -> Fp.ltb y x = false.
Proof.
  unfold Fp.ltb, SFltb. rewrite (SFcompare_swap x y).
  destruct (SFcompare x y) as [[ | | ]|]; cbn; congruence.
Qed.

Lemma fp_eqb_sym (x y : Fp.float) : Fp.eqb x y = Fp.eqb y x.
Proof.
  unfold Fp.eqb, SFeqb. rewrite (SFcompare_swap x y).
  destruct (SFcompare x y) as [[ | | ]|]; reflexivity.
Qed.

Lemma SFcompare_not_nan (x y : spec_float) :
  x <> S754_nan -> y <> S754_nan -> exists c, SFcompare x y = Some c.
Proof.
  intros Hx Hy.
  destruct x as [sx|sx| |sx mx ex], y as [sy|sy| |sy my ey];
    try contradiction; cbn; eauto.
Qed.

(** Of two numbers neither of which is below the other, none being a
    NaN, each equals the other. *)
Lemma fp_trichotomy (x y : Fp.float) :
  Fp.not_nan x -> Fp.not_nan y ->
  Fp.ltb x y = false -> Fp.ltb y x = false -> Fp.eqb x y = true.
Proof.
  unfold Fp.ltb, Fp.eqb, SFltb, SFeqb. intros Hx Hy.
  rewrite (SFcompare_swap x y).
  destruct (SFcompare_not_nan Hx Hy) as [c ->].
  destruct c; cbn; congruence.
Qed.

Lemma fp_eqb_not_ltb (x y : Fp.float) :
  Fp.eqb x y = true -> Fp.ltb x y = false.
Proof.
  unfold Fp.ltb, Fp.eqb, SFltb, SFeqb.
  destruct (SFcompare x y) as [[ | | ]|]; congruence.
Qed.

Lemma fp_not_after_trans (a b c : Fp.float) :
  Fp.not_nan a -> Fp.not_nan b -> Fp.not_nan c ->
  Fp.ltb b a = false -> Fp.ltb c b = false -> Fp.ltb c a = false.
Proof.
  intros Ha Hb Hc Hba Hcb.
  destruct (Fp.ltb c a) eqn:E; [|reflexivity]. exfalso.
  apply (SFltb_rank Hc Ha) in E.
  assert (Nba : ~ lex_lt (float_rank b) (float_rank a)).
  { intros H. apply (SFltb_rank Hb Ha) in H. unfold Fp.ltb in Hba. congruence. }
  assert (Ncb : ~ lex_lt (float_rank c) (float_rank b)).
  { intros H. apply (SFltb_rank Hc Hb) in H. unfold Fp.ltb in Hcb. congruence. }
  unfold lex_lt in *.
  destruct (float_rank a) as [[a1 a2] a3], (float_rank b) as [[b1 b2] b3],
    (float_rank c) as [[c1 c2] c3]. cbn [fst snd] in *. lia.
Qed.


(** ** Rounding yields a number *)

Lemma shr_1_nonneg (mrs : shr_record) :
  (0 <= shr_m mrs)%Z -> (0 <= shr_m (shr_1 mrs))%Z.
Proof.
  destruct mrs as [m r s]. cbn [shr_m shr_1].
  destruct m as [|p|p]; [cbn; lia | destruct p; cbn; lia | lia].
Qed.

Lemma iter_shr_1_nonneg (p : positive) (mrs : shr_record) :
  (0 <= shr_m mrs)%Z -> (0 <= shr_m (iter_pos shr_1 p mrs))%Z.
Proof.
  revert mrs. induction p as [p IH|p IH|]; intros mrs H; cbn [iter_pos].
  - apply IH, IH, shr_1_nonneg, H.
  - apply IH, IH, H.
  - apply shr_1_nonneg, H.
Qed.

Lemma shr_fexp_nonneg (prec emax m e : Z) (l : location) :
  (0 <= m)%Z -> (0 <= shr_m (fst (shr_fexp prec emax m e l)))%Z.
Proof.
  intros H. unfold shr_fexp, shr.
  assert (H0 : (0 <= shr_m (shr_record_of_loc m l))%Z)
    by (destruct l as [|[ | | ]]; exact H).
  destruct (_ - e)%Z; cbn [fst]; trivial. now apply iter_shr_1_nonneg.
Qed.

Lemma round_nearest_even_nonneg (m : Z) (l : location) :
  (0 <= m)%Z -> (0 <= round_nearest_even m l)%Z.
Proof.
  intros H. unfold round_nearest_even.
  destruct l as [|[ | | ]]; try destruct (Z.even m); lia.
Qed.

Lemma binary_round_aux_not_nan (prec emax : Z) (sx : bool) (mx ex : Z)
    (lx : location) :
  (0 <= mx)%Z -> binary_round_aux prec emax sx mx ex lx <> S754_nan.
Proof.
  intros H. unfold binary_round_aux.
  pose proof (shr_fexp_nonneg prec emax ex lx H) as H1.
  destruct (shr_fexp prec emax mx ex lx) as [mrs' e']. cbn [fst] in H1.
  pose proof (@shr_fexp_nonneg prec emax
                (round_nearest_even (shr_m mrs') (loc_of_shr_record mrs'))
                e' loc_Exact (round_nearest_even_nonneg _ H1)) as H2.
  destruct (shr_fexp prec emax _ e' loc_Exact) as [mrs'' e''].
  cbn [fst] in H2.
  destruct (shr_m mrs''); [discriminate | | lia].
  destruct (Z.leb _ _); discriminate.
Qed.

Lemma binary_round_not_nan (prec emax : Z) (s : bool) (m : positive) (e : Z) :
  binary_round prec emax s m e <> S754_nan.
Proof.
  unfold binary_round. destruct (shl_align m e _) as [mz ez].
  apply binary_round_aux_not_nan. lia.
Qed.

Lemma SFdiv_finite_not_nan (prec emax : Z) (sx sy : bool) (mx my : positive)
    (ex ey : Z) :
  SFdiv prec emax (S754_finite sx mx ex) (S754_finite sy my ey) <> S754_nan.
Proof.
  cbn [SFdiv]. unfold SFdiv_core_binary.
  set (m' := match (_ - _ - _)%Z with
             | Z0 => Zpos mx
             | Zpos _ => Z.shiftl (Zpos mx) _
             | Zneg _ => 0%Z
             end).
  assert (Hm : (0 <= m')%Z).
  { unfold m'. destruct (_ - _ - _)%Z; try lia. apply Z.shiftl_nonneg. lia. }
  pose proof (Z.div_pos m' (Zpos my) Hm ltac:(lia)) as Hq.
  unfold Z.div in Hq. destruct (Z.div_eucl m' (Zpos my)) as [q r].
  cbn [fst] in Hq. now apply binary_round_aux_not_nan.
Qed.

Lemma b64_to_f32_not_nan (x : Fp.float) :
  Fp.not_nan x -> Fp.not_nan (Fp.b64_to_f32 x).
Proof.
  unfold Fp.not_nan. destruct x; cbn; trivial.
  intros _. apply binary_round_not_nan.
Qed.

Lemma f32_to_b64_not_nan (x : Fp.float) :
  Fp.not_nan x -> Fp.not_nan (Fp.f32_to_b64 x).
Proof.
  unfold Fp.not_nan. destruct x; cbn; trivial.
  intros _. apply binary_round_not_nan.
Qed.

Lemma py_round1_not_nan (x : Fp.float) :
  Fp.not_nan x -> Fp.not_nan (Fp.py_round1 x).
Proof.
  unfold Fp.not_nan, Fp.py_round1. destruct x as [s|s| |s m e]; trivial.
  intros _. destruct (if (0 <=? e)%Z then _ else _); try discriminate.
  apply SFdiv_finite_not_nan.
Qed.

(** ** The keys of the intelligent sorter *)

Definition key_ok (k : Fp.float * Z) : Prop := Fp.not_nan (fst k).

Lemma fp_key_lt_asym (a b : Fp.float * Z) :
  Fp.key_lt a b = true -> Fp.key_lt b a = false.
Proof.
  unfold Fp.key_lt. rewrite (fp_eqb_sym (fst b) (fst a)).
  destruct (Fp.eqb (fst a) (fst b)).
  - intros H. apply Z.ltb_lt in H. apply Z.ltb_ge. lia.
  - apply fp_ltb_asym.
Qed.

Lemma fp_eqb_trans (x y z : Fp.float) :
  Fp.not_nan x -> Fp.not_nan y -> Fp.not_nan z ->
  Fp.eqb x y = true -> Fp.eqb y z = true -> Fp.eqb x z = true.
Proof.
  intros Hx Hy Hz Hxy Hyz. apply fp_trichotomy; trivial.
  - apply fp_not_after_trans with y; trivial; now apply fp_eqb_not_ltb.
  - rewrite fp_eqb_sym in Hxy. rewrite fp_eqb_sym in Hyz.
    apply fp_not_after_trans with y; trivial; now apply fp_eqb_not_ltb.
Qed.

(** [key_lt b a = false]: the key [a] does not come after [b]. *)
Lemma fp_key_lt_false (a b : Fp.float * Z) :
  key_ok a -> key_ok b ->
  (Fp.key_lt b a = false <->
   (Fp.ltb (fst b) (fst a) = false /\
    (Fp.eqb (fst a) (fst b) = true -> (snd a <= snd b)%Z))).
Proof.
  intros Ha Hb. unfold Fp.key_lt. rewrite (fp_eqb_sym (fst a) (fst b)).
  destruct (Fp.eqb (fst b) (fst a)) eqn:E.
  - rewrite Z.ltb_ge. pose proof (fp_eqb_not_ltb _ _ E). intuition.
  - intuition. discriminate.
Qed.

Lemma fp_key_lt_trans (a b c : Fp.float * Z) :
  key_ok a -> key_ok b -> key_ok c ->
  Fp.key_lt b a = false -> Fp.key_lt c b = false -> Fp.key_lt c a = false.
Proof.
  intros Ha Hb Hc. rewrite !fp_key_lt_false by assumption.
  intros [H1 H2] [H3 H4]. split.
  - now apply fp_not_after_trans with (fst b).
  - intros E.
    assert (Eab : Fp.eqb (fst a) (fst b) = true).
    { apply fp_trichotomy; trivial.
      apply fp_not_after_trans with (fst c); trivial.
      now apply fp_eqb_not_ltb. }
    assert (Ebc : Fp.eqb (fst b) (fst c) = true).
    { apply fp_eqb_trans with (fst a); trivial.
      now rewrite fp_eqb_sym. }
    specialize (H2 Eab). specialize (H4 Ebc). lia.
Qed.


(** ** Sorting keys that are totally ordered *)

Section SortedOn.

Variables (K : Type) (lt : K -> K -> bool) (P : K -> Prop).

Hypothesis lt_asym_on :
  forall a b, P a -> P b -> lt a b = true -> lt b a = false.
Hypothesis not_after_trans_on :
  forall a b c, P a -> P b -> P c ->
    lt b a = false -> lt c b = false -> lt c a = false.

Lemma insert_by_sorted_on (x : K) (l : list K) :
  P x -> Forall P l ->
  StronglySorted (not_after lt) l ->
  StronglySorted (not_after lt) (insert_by lt x l).
Proof.
  intros Hx HP Hs. induction Hs as [|y l Hs IH Hall]; cbn;
    [repeat constructor|].
  inversion HP as [|? ? Hy HPl]; subst.
  destruct (lt y x) eqn:Hyx.
  - constructor; [now apply IH|].
    rewrite insert_by_perm. constructor; [|exact Hall].
    now apply lt_asym_on.
  - constructor; [now constructor|].
    constructor; [exact Hyx|].
    rewrite Forall_forall in *. intros z Hz.
    apply not_after_trans_on with y; auto. now apply Hall.
Qed.

Lemma stable_sort_sorted_on (l : list K) :
  Forall P l -> StronglySorted (not_after lt) (stable_sort lt l).
Proof.
  induction 1 as [|x l Hx HP IH]; cbn; [constructor|].
  apply insert_by_sorted_on; trivial.
  eapply Permutation_Forall; [symmetry; apply stable_sort_perm | exact HP].
Qed.

End SortedOn.

Lemma sorted_range_sorted_on (K : Type) (lt : K -> K -> bool) (P : K -> Prop)
    (d : K) (keys : list K) :
  (forall a b, P a -> P b -> lt a b = true -> lt b a = false) ->
  (forall a b c, P a -> P b -> P c ->
     lt b a = false -> lt c b = false -> lt c a = false) ->
  Forall P keys ->
  StronglySorted (fun i j => lt (nth j keys d) (nth i keys d) = false)
    (sorted_range lt keys).
Proof.
  intros Hasym Htrans HP. unfold sorted_range.
  set (ltp := fun p q : K * nat => lt (fst p) (fst q)).
  assert (Hk : Forall (fun p => fst p = nth (snd p) keys d)
                 (combine keys (seq 0 (List.length keys)))).
  { eapply Forall_impl; [|apply (combine_seq_nth d keys 0)].
    intros p [H _]. now rewrite Nat.sub_0_r in H. }
  assert (HPp : Forall (fun p : K * nat => P (fst p))
                  (combine keys (seq 0 (List.length keys)))).
  { rewrite Forall_forall in *. intros [k i] Hp. rewrite (Hk _ Hp).
    apply HP, nth_In. apply in_combine_r, in_seq in Hp. cbn [snd]. lia. }
  assert (Hs : StronglySorted (not_after ltp)
                 (stable_sort ltp (combine keys (seq 0 (List.length keys))))).
  { apply stable_sort_sorted_on with (P := fun p : K * nat => P (fst p));
      trivial.
    - intros a b. apply Hasym.
    - intros a b c. apply Htrans. }
  assert (Hk' : Forall (fun p => fst p = nth (snd p) keys d)
                  (stable_sort ltp (combine keys (seq 0 (List.length keys)))))
    by (eapply Permutation_Forall; [symmetry; apply stable_sort_perm|exact Hk]).
  clear Hk HPp.
  induction Hs as [|p l Hs IH Hall]; cbn; [constructor|].
  inversion Hk' as [|? ? Hp Hl]; subst.
  constructor; [now apply IH|].
  rewrite Forall_map. rewrite Forall_forall in *.
  intros q Hq. specialize (Hall q Hq). unfold not_after, ltp in Hall.
  now rewrite <- Hp, <- (Hl q Hq).
Qed.


Lemma ForallOrdPairs_nth (A : Type) (R : A -> A -> Prop) (l : list A)
    (p q : nat) (x y : A) :
  ForallOrdPairs R l -> (p < q)%nat ->
  nth_error l p = Some x -> nth_error l q = Some y -> R x y.
Proof.
  intros Hs. revert p q. induction Hs as [|a l Hall Hs IH]; intros p q Hpq Hp Hq.
  - destruct p; discriminate.
  - destruct q as [|q]; [lia|]. cbn in Hq. destruct p as [|p].
    + cbn in Hp. injection Hp as <-. rewrite Forall_forall in Hall.
      apply Hall. eapply nth_error_In; eauto.
    + cbn in Hp. apply (IH p q); trivial. lia.
Qed.

(** ** One round of the loop, in machine arithmetic *)

Section FpRound.

Variables (boxes : list IBox) (match_metric : string).
Variable nms_threshold : Fp.float.

Lemma fp_nth_areas (q : nat) :
  nth q (map Fp.area boxes) (Fp.area (mkIBox 0 0 0 0))
  = Fp.area (Fp.box_at boxes q).
Proof. unfold Fp.box_at. apply map_nth. Qed.

(** A round keeps the indices whose value is below the threshold. *)
Lemma fp_round_total (idx : nat) (rest : list nat) :
  Fp.round_valid boxes match_metric idx rest ->
  Fp.nms_round boxes (map Fp.area boxes) match_metric nms_threshold idx rest
  = Ok (filter (Fp.below boxes match_metric nms_threshold idx) rest).
Proof.
  intros (Hvalid & Hidx & Hrest). unfold Fp.nms_round.
  rewrite (mapM_getitem_valid (mkIBox 0 0 0 0) _ Hrest). cbn [bind].
  rewrite (getitem_nth (mkIBox 0 0 0 0) _ Hidx). cbn [bind].
  rewrite (@mapM_getitem_valid _ (Fp.area (mkIBox 0 0 0 0))
             (map Fp.area boxes) rest)
    by (now rewrite length_map).
  cbn [bind].
  rewrite (@getitem_nth _ (Fp.area (mkIBox 0 0 0 0)) (map Fp.area boxes) idx)
    by (now rewrite length_map).
  cbn [bind].
  rewrite !map_map, combine_map_same, map_map. cbn [fst snd].
  match goal with
  | |- bind ?m _ = _ =>
      assert (Hm : m = Ok (map (Fp.bmv boxes match_metric idx) rest))
  end.
  { unfold Fp.bmv, Fp.metric_value.
    fold (Fp.box_at boxes idx).
    destruct (String.eqb match_metric "IOU") eqn:E1.
    - f_equal. apply map_ext. intros q. fold (Fp.box_at boxes q).
      now rewrite !fp_nth_areas.
    - destruct (String.eqb match_metric "IOS") eqn:E2.
      + rewrite map_map. f_equal. apply map_ext. intros q.
        cbn [fst snd]. fold (Fp.box_at boxes q).
        now rewrite !fp_nth_areas.
      + destruct Hvalid as [Hv|Hv]; rewrite Hv in *; discriminate. }
  rewrite Hm. cbn [bind]. rewrite map_map, bool_index_map. reflexivity.
Qed.

Lemma fp_round_Ok_valid (idx : nat) (rest order' : list nat) :
  Fp.nms_round boxes (map Fp.area boxes) match_metric nms_threshold idx rest
  = Ok order' ->
  Fp.round_valid boxes match_metric idx rest.
Proof.
  unfold Fp.nms_round. intros H.
  destruct (mapM (getitem boxes) rest) as [sel|] eqn:Hsel; [|discriminate].
  destruct (mapM_getitem_Ok (mkIBox 0 0 0 0) _ _ Hsel) as [_ Hrest].
  cbn [bind] in H.
  destruct (getitem boxes idx) as [bidx|] eqn:Hidx; [|discriminate].
  assert (Hi : (idx < List.length boxes)%nat)
    by (apply getitem_Ok_iff; eauto).
  cbn [bind] in H.
  destruct (mapM (getitem (map Fp.area boxes)) rest); [|discriminate].
  cbn [bind] in H.
  destruct (getitem (map Fp.area boxes) idx); [|discriminate].
  cbn [bind] in H.
  repeat split; trivial.
  destruct (String.eqb_spec match_metric "IOU"); [now left|].
  destruct (String.eqb_spec match_metric "IOS"); [now right|].
  discriminate.
Qed.

Lemma fp_round_inv (idx : nat) (rest order' : list nat) :
  Fp.nms_round boxes (map Fp.area boxes) match_metric nms_threshold idx rest
  = Ok order' ->
  order' = filter (Fp.below boxes match_metric nms_threshold idx) rest.
Proof.
  intros H. pose proof (fp_round_total (fp_round_Ok_valid _ _ H)) as Ht.
  congruence.
Qed.

(** An unknown metric makes a round raise. *)
Lemma fp_round_invalid (idx : nat) (rest : list nat) :
  match_metric <> "IOU"%string -> match_metric <> "IOS"%string ->
  (idx < List.length boxes)%nat ->
  Forall (fun q => (q < List.length boxes)%nat) rest ->
  Fp.nms_round boxes (map Fp.area boxes) match_metric nms_threshold idx rest
  = Raise ValueError.
Proof.
  intros Hiou Hios Hidx Hrest. unfold Fp.nms_round.
  rewrite (mapM_getitem_valid (mkIBox 0 0 0 0) _ Hrest). cbn [bind].
  rewrite (getitem_nth (mkIBox 0 0 0 0) _ Hidx). cbn [bind].
  rewrite (@mapM_getitem_valid _ (Fp.area (mkIBox 0 0 0 0))
             (map Fp.area boxes) rest)
    by (now rewrite length_map).
  cbn [bind].
  rewrite (@getitem_nth _ (Fp.area (mkIBox 0 0 0 0)) (map Fp.area boxes) idx)
    by (now rewrite length_map).
  cbn [bind].
  destruct (String.eqb_spec match_metric "IOU"); [contradiction|].
  destruct (String.eqb_spec match_metric "IOS"); [contradiction|].
  reflexivity.
Qed.

(** ** The loop, in machine arithmetic *)

#[local] Abbreviation fround := (Fp.nms_round boxes (map Fp.area boxes)
                                   match_metric nms_threshold).
#[local] Abbreviation floop := (Fp.nms_while boxes (map Fp.area boxes)
                                  match_metric nms_threshold).

Lemma fp_while_snoc (rest : list nat) (idx : nat) (keep : list nat) :
  floop (rest ++ [idx]) keep =
  match rest with
  | [] => Ok (keep ++ [idx])
  | _ :: _ => order' <- fround idx rest ;; floop order' (keep ++ [idx])
  end.
Proof.
  destruct (rest ++ [idx]) as [|o os] eqn:Ho.
  - now destruct rest.
  - simp nms_while.
    assert (Hl : last (o :: os) 0%nat = idx)
      by (rewrite <- Ho; apply last_last).
    assert (Hr : removelast (o :: os) = rest)
      by (rewrite <- Ho; apply removelast_last).
    generalize (inspect (removelast (o :: os))). intros [rl Hrl].
    assert (E : rest = rl) by congruence. clear Hr. subst rest.
    destruct rl as [|r rs]; simp nms_while.
    + now rewrite Hl.
    + generalize (inspect (fround (last (o :: os) 0%nat) (r :: rs))).
      intros [[order'|e] Hround]; simp nms_while;
        rewrite Hl in Hround; rewrite ?Hl; now rewrite Hround.
Qed.

(** What the loop returns: the indices it keeps, in the order it pops
    them; each was below the threshold in the round of every index kept
    before it, and an index it drops was not, in the round of some index
    it keeps.  A relation that sorts [order] sorts the result the other
    way round. *)
Lemma fp_while_inv (R : nat -> nat -> Prop) :
  forall n order keep res,
    (List.length order <= n)%nat ->
    StronglySorted R order ->
    floop order keep = Ok res ->
    exists new,
      res = keep ++ new /\
      ForallOrdPairs
        (fun i j => Fp.below boxes match_metric nms_threshold i j = true) new /\
      incl new order /\
      (NoDup order -> NoDup new) /\
      (order <> [] -> hd_error new = Some (last order 0%nat)) /\
      StronglySorted (fun i j => R j i) new /\
      (forall q, In q order ->
         In q new \/
         exists i, In i new /\
           Fp.below boxes match_metric nms_threshold i q = false) /\
      ((2 <= List.length order)%nat ->
       (match_metric = "IOU"%string \/ match_metric = "IOS"%string) /\
       Forall (fun q => (q < List.length boxes)%nat) order).
Proof.
  induction n as [|n IH]; intros order keep res Hn Hs H.
  - destruct order; [|cbn in Hn; lia]. simp nms_while in H.
    injection H as <-. exists []. rewrite app_nil_r.
    repeat split; try constructor; try easy; try (cbn in *; lia).
  - destruct (snoc_cases order) as [->|(rest & idx & ->)].
    + simp nms_while in H. injection H as <-. exists [].
      rewrite app_nil_r. repeat split; try constructor; try easy; try (cbn in *; lia).
    + rewrite fp_while_snoc in H. rewrite length_app in Hn. cbn in Hn.
      destruct (StronglySorted_snoc _ _ Hs) as [Hrest Hidx].
      destruct rest as [|r rs].
      * injection H as <-. exists [idx]. repeat split.
        -- constructor; constructor.
        -- intros x [<-|[]]. now left.
        -- intros _. constructor; [easy|constructor].
        -- repeat constructor.
        -- intros q [<-|[]]. left. now left.
        -- cbn in H. lia.
        -- cbn in H. lia.
      * destruct (fround idx (r :: rs)) as [order'|] eqn:Hround;
          [|discriminate].
        cbn [bind] in H.
        pose proof (fp_round_inv _ _ Hround) as Hfilter.
        pose proof (fp_round_Ok_valid _ _ Hround) as (Hv & Hi & Hr).
        assert (Hlen : (List.length order' <= List.length (r :: rs))%nat)
          by (rewrite Hfilter; apply filter_length_le).
        assert (Hs' : StronglySorted R order')
          by (rewrite Hfilter; now apply StronglySorted_filter).
        destruct (IH order' (keep ++ [idx]) res) as
          (new & -> & Hpairs & Hincl & Hnodup & _ & Hsorted & Hdom & _);
          [lia | exact Hs' | exact H |].
        exists (idx :: new). rewrite <- app_assoc. cbn [app].
        split; [reflexivity|].
        assert (Hsub : incl order' (r :: rs))
          by (rewrite Hfilter; apply incl_filter).
        repeat split.
        -- constructor; [|exact Hpairs].
           apply Forall_forall. intros q Hq. apply Hincl in Hq.
           rewrite Hfilter in Hq. apply filter_In in Hq. tauto.
        -- intros x Hx. change (In x ((r :: rs) ++ [idx])). apply in_or_app.
           destruct Hx as [<-|Hx]; [right; now left | left; auto].
        -- intros Hnd. change (NoDup ((r :: rs) ++ [idx])) in Hnd.
           apply NoDup_remove in Hnd. rewrite app_nil_r in Hnd.
           destruct Hnd as [Hnd Hni].
           constructor.
           ++ intros Hin. apply Hni. auto.
           ++ apply Hnodup. rewrite Hfilter. now apply NoDup_filter.
        -- intros _. cbn [hd_error]. f_equal. symmetry.
           apply (last_last (r :: rs)).
        -- constructor; [exact Hsorted|]. rewrite Forall_forall in *.
           intros q Hq. apply Hidx. auto.
        -- intros q Hq. change (In q ((r :: rs) ++ [idx])) in Hq.
           apply in_app_or in Hq. destruct Hq as [Hq|[<-|[]]].
           ++ destruct (Fp.below boxes match_metric nms_threshold idx q) eqn:E.
              ** assert (Hq' : In q order')
                   by (rewrite Hfilter; apply filter_In; now split).
                 destruct (Hdom q Hq') as [Hin|(i & Hin & Hb)].
                 --- left. now right.
                 --- right. exists i. split; [now right | exact Hb].
              ** right. exists idx. split; [now left | exact E].
           ++ left. now left.
        -- exact Hv.
        -- change (Forall (fun q => (q < List.length boxes)%nat)
                     ((r :: rs) ++ [idx])).
           apply Forall_app. split; [exact Hr|]. now constructor.
Qed.

(** When no round removes anything the loop keeps every index, from the
    last of [order] to the first. *)
Lemma fp_while_no_suppression (order : list nat) :
  (forall pre idx post, order = pre ++ idx :: post -> pre <> [] ->
     fround idx pre = Ok pre) ->
  forall keep, floop order keep = Ok (keep ++ rev order).
Proof.
  induction order as [|idx rest IH] using rev_ind; intros Hround keep.
  - simp nms_while. now rewrite app_nil_r.
  - rewrite fp_while_snoc, rev_app_distr. cbn [rev app].
    destruct rest as [|r rs]; [reflexivity|].
    rewrite (Hround (r :: rs) idx []); [|reflexivity|discriminate].
    cbn [bind]. rewrite IH.
    + now rewrite <- app_assoc.
    + intros pre i post Hsplit Hpre. apply (Hround pre i (post ++ [idx]));
        [|exact Hpre].
      rewrite Hsplit, <- app_assoc. reflexivity.
Qed.

(** With a known metric and indices in range the loop returns. *)
Lemma fp_while_total :
  match_metric = "IOU"%string \/ match_metric = "IOS"%string ->
  forall n order keep,
    (List.length order <= n)%nat ->
    Forall (fun q => (q < List.length boxes)%nat) order ->
    exists res, floop order keep = Ok res.
Proof.
  intros Hvalid. induction n as [|n IH]; intros order keep Hn Hall.
  - destruct order; [|cbn in Hn; lia]. simp nms_while. eauto.
  - destruct (snoc_cases order) as [->|(rest & idx & ->)].
    + simp nms_while. eauto.
    + rewrite fp_while_snoc. rewrite length_app in Hn. cbn in Hn.
      apply Forall_app in Hall. destruct Hall as [Hrest Hidx].
      destruct rest as [|r rs]; [eauto|].
      rewrite fp_round_total.
      * cbn [bind]. apply IH.
        -- etransitivity; [apply filter_length_le|lia].
        -- apply Forall_forall. intros q Hq. apply filter_In in Hq.
           rewrite Forall_forall in Hrest. now apply Hrest.
      * repeat split; trivial. now inversion Hidx.
Qed.

End FpRound.

(** ** [nms] in machine arithmetic *)

Lemma fp_torch_tensor_Ok (boxes : list IBox) :
  Forall (fun b => Fp.box_in_int64 b = true) boxes ->
  Fp.torch_tensor boxes = Ok boxes.
Proof.
  intros H. unfold Fp.torch_tensor.
  replace (forallb Fp.box_in_int64 boxes) with true; [reflexivity|].
  symmetry. apply forallb_forall. now apply Forall_forall.
Qed.

Lemma fp_torch_tensor_inv (boxes t : list IBox) :
  Fp.torch_tensor boxes = Ok t ->
  t = boxes /\ Forall (fun b => Fp.box_in_int64 b = true) boxes.
Proof.
  unfold Fp.torch_tensor.
  destruct (forallb Fp.box_in_int64 boxes) eqn:E; [|discriminate].
  intros H. injection H as <-. split; [reflexivity|].
  apply Forall_forall. now apply forallb_forall.
Qed.

Lemma fp_nms_nonempty (argsort : list Fp.float -> list nat)
    (confidences : list Fp.float) (boxes : list IBox) (match_metric : string)
    (nms_threshold : Fp.float) (sorter : bool) :
  boxes <> [] ->
  Forall (fun b => Fp.box_in_int64 b = true) boxes ->
  Fp.nms argsort confidences boxes match_metric nms_threshold sorter =
  (order <- Fp.initial_order argsort (map Fp.b64_to_f32 confidences)
              (map Fp.area boxes) sorter ;;
   Fp.nms_while boxes (map Fp.area boxes) match_metric nms_threshold order []).
Proof.
  intros Hne Hb. unfold Fp.nms. destruct boxes as [|b bs]; [contradiction|].
  cbn [List.length Nat.eqb]. now rewrite (fp_torch_tensor_Ok Hb).
Qed.

Lemma fp_nms_Ok_inv (argsort : list Fp.float -> list nat)
    (confidences : list Fp.float) (boxes : list IBox) (match_metric : string)
    (nms_threshold : Fp.float) (sorter : bool) (keep : list nat) :
  Fp.nms argsort confidences boxes match_metric nms_threshold sorter
  = Ok keep ->
  (boxes = [] /\ keep = []) \/
  (boxes <> [] /\
   Forall (fun b => Fp.box_in_int64 b = true) boxes /\
   exists order,
     Fp.initial_order argsort (map Fp.b64_to_f32 confidences)
       (map Fp.area boxes) sorter = Ok order /\
     Fp.nms_while boxes (map Fp.area boxes) match_metric nms_threshold
       order [] = Ok keep).
Proof.
  intros H. destruct boxes as [|b bs] eqn:Hb.
  - left. unfold Fp.nms in H. cbn in H. injection H as <-. now split.
  - right. split; [discriminate|]. rewrite <- Hb in *.
    assert (Hne : boxes <> []) by (rewrite Hb; discriminate).
    unfold Fp.nms in H.
    destruct (Nat.eqb_spec (List.length boxes) 0) as [E|_];
      [rewrite Hb in E; discriminate|].
    destruct (Fp.torch_tensor boxes) as [t|] eqn:Ht; [|discriminate].
    destruct (fp_torch_tensor_inv _ Ht) as [-> Hin]. cbn [bind] in H.
    split; [exact Hin|].
    destruct (Fp.initial_order argsort _ _ sorter) as [order|] eqn:Ho;
      [|discriminate].
    cbn [bind] in H. exists order. now split.
Qed.

Lemma fp_nth_conf32 (confidences : list Fp.float) (k : nat) :
  nth k (map Fp.b64_to_f32 confidences) S754_nan
  = Fp.b64_to_f32 (nth k confidences S754_nan).
Proof. apply (map_nth Fp.b64_to_f32 confidences S754_nan k). Qed.

Lemma fp_sort_key_at (confidences : list Fp.float) (boxes : list IBox)
    (k : nat) :
  (k < List.length confidences)%nat -> (k < List.length boxes)%nat ->
  Fp.sort_key (map Fp.b64_to_f32 confidences) (map Fp.area boxes) k
  = Ok (Fp.key_of confidences boxes k).
Proof.
  intros Hc Hb. unfold Fp.sort_key, Fp.key_of.
  rewrite (@getitem_nth Fp.float S754_nan (map Fp.b64_to_f32 confidences) k)
    by (now rewrite length_map).
  rewrite (@getitem_nth _ (Fp.area (mkIBox 0 0 0 0)) (map Fp.area boxes) k)
    by (now rewrite length_map).
  cbn [bind]. now rewrite fp_nth_conf32, fp_nth_areas.
Qed.

Lemma fp_sort_keys_Ok (confidences : list Fp.float) (boxes : list IBox) :
  (List.length confidences <= List.length boxes)%nat ->
  mapM (Fp.sort_key (map Fp.b64_to_f32 confidences) (map Fp.area boxes))
    (seq 0 (List.length (map Fp.b64_to_f32 confidences)))
  = Ok (map (Fp.key_of confidences boxes)
          (seq 0 (List.length confidences))).
Proof.
  intros Hlen. rewrite length_map.
  rewrite (@mapM_Ok_intro _ _ _ (S754_nan, 0%Z)).
  - apply (f_equal (@Ok (list (Fp.float * Z)))).
    apply map_ext_in. intros k Hk. apply in_seq in Hk.
    rewrite fp_sort_key_at by lia. reflexivity.
  - apply Forall_forall. intros k Hk. apply in_seq in Hk.
    rewrite fp_sort_key_at by lia. eauto.
Qed.

Lemma fp_initial_order_intelligent (argsort : list Fp.float -> list nat)
    (confidences : list Fp.float) (boxes : list IBox) :
  (List.length confidences <= List.length boxes)%nat ->
  Fp.initial_order argsort (map Fp.b64_to_f32 confidences)
    (map Fp.area boxes) true
  = Ok (sorted_range Fp.key_lt
          (map (Fp.key_of confidences boxes)
             (seq 0 (List.length confidences)))).
Proof.
  intros Hlen. unfold Fp.initial_order.
  now rewrite (fp_sort_keys_Ok _ _ Hlen).
Qed.

Lemma fp_initial_order_perm (argsort : list Fp.float -> list nat)
    (confidences : list Fp.float) (boxes : list IBox) (sorter : bool) :
  Fp.argsort_permutes argsort ->
  (List.length confidences <= List.length boxes)%nat ->
  exists order,
    Fp.initial_order argsort (map Fp.b64_to_f32 confidences)
      (map Fp.area boxes) sorter = Ok order /\
    Permutation order (seq 0 (List.length confidences)).
Proof.
  intros Hperm Hlen. destruct sorter.
  - rewrite (fp_initial_order_intelligent argsort _ _ Hlen).
    eexists. split; [reflexivity|].
    rewrite sorted_range_perm. now rewrite length_map, length_seq.
  - unfold Fp.initial_order. eexists. split; [reflexivity|].
    rewrite (Hperm _). now rewrite length_map.
Qed.

Lemma fp_key_of_ok (confidences : list Fp.float) (boxes : list IBox)
    (k : nat) :
  Forall Fp.not_nan confidences -> (k < List.length confidences)%nat ->
  key_ok (Fp.key_of confidences boxes k).
Proof.
  intros Hc Hk. unfold key_ok, Fp.key_of. cbn [fst].
  apply py_round1_not_nan, f32_to_b64_not_nan, b64_to_f32_not_nan.
  rewrite Forall_forall in Hc. now apply Hc, nth_In.
Qed.

Lemma fp_nth_key_of (confidences : list Fp.float) (boxes : list IBox)
    (k : nat) :
  (k < List.length confidences)%nat ->
  nth k (map (Fp.key_of confidences boxes)
           (seq 0 (List.length confidences))) (S754_nan, 0%Z)
  = Fp.key_of confidences boxes k.
Proof.
  intros Hk.
  rewrite (nth_indep _ (S754_nan, 0%Z) (Fp.key_of confidences boxes 0))
    by (now rewrite length_map, length_seq).
  rewrite map_nth, seq_nth by exact Hk. reflexivity.
Qed.

(** The order of the intelligent sorter is ascending in the keys. *)
Lemma fp_initial_order_sorted (argsort : list Fp.float -> list nat)
    (confidences : list Fp.float) (boxes : list IBox) (order : list nat) :
  Forall Fp.not_nan confidences ->
  (List.length confidences <= List.length boxes)%nat ->
  Fp.initial_order argsort (map Fp.b64_to_f32 confidences)
    (map Fp.area boxes) true = Ok order ->
  StronglySorted
    (fun i j => Fp.key_lt (Fp.key_of confidences boxes j)
                          (Fp.key_of confidences boxes i) = false) order.
Proof.
  intros Hnan Hlen Ho.
  rewrite (fp_initial_order_intelligent argsort _ _ Hlen) in Ho.
  injection Ho as <-.
  assert (Hperm : Permutation
            (sorted_range Fp.key_lt
               (map (Fp.key_of confidences boxes)
                  (seq 0 (List.length confidences))))
            (seq 0 (List.length confidences))).
  { rewrite sorted_range_perm. now rewrite length_map, length_seq. }
  eapply StronglySorted_impl_in;
    [|apply (@sorted_range_sorted_on _ Fp.key_lt key_ok (S754_nan, 0%Z))].
  - intros i j Hi Hj Hij. cbv beta in Hij.
    apply (Permutation_in _ Hperm), in_seq in Hi.
    apply (Permutation_in _ Hperm), in_seq in Hj.
    rewrite !fp_nth_key_of in Hij by lia. exact Hij.
  - intros a b _ _. apply fp_key_lt_asym.
  - intros a b c. apply fp_key_lt_trans.
  - apply Forall_forall. intros k Hk. apply in_map_iff in Hk.
    destruct Hk as (i & <- & Hi). apply in_seq in Hi.
    apply fp_key_of_ok; [exact Hnan | lia].
Qed.

Lemma StronglySorted_True (A : Type) (l : list A) :
  StronglySorted (fun _ _ => True) l.
Proof.
  induction l; constructor; trivial. now apply Forall_forall.
Qed.

Lemma fp_box_metric_value (match_metric : string) (b bidx : IBox) :
  match_metric = "IOU"%string \/ match_metric = "IOS"%string ->
  Fp.box_metric match_metric b bidx
  = Ok (Fp.metric_value match_metric b bidx).
Proof.
  unfold Fp.box_metric, Fp.metric_value. intros [-> | ->]; reflexivity.
Qed.

Lemma fp_box_metric_Ok (match_metric : string) (b bidx : IBox)
    (v : Fp.float) :
  Fp.box_metric match_metric b bidx = Ok v ->
  (match_metric = "IOU"%string \/ match_metric = "IOS"%string) /\
  v = Fp.metric_value match_metric b bidx.
Proof.
  unfold Fp.box_metric, Fp.metric_value. intros H.
  destruct (String.eqb_spec match_metric "IOU").
  - split; [now left | congruence].
  - destruct (String.eqb_spec match_metric "IOS"); [|discriminate].
    split; [now right | congruence].
Qed.

Lemma fp_box_at_nth_error (boxes : list IBox) (i : nat) (b : IBox) :
  nth_error boxes i = Some b -> Fp.box_at boxes i = b.
Proof. intros H. unfold Fp.box_at. now apply nth_error_nth. Qed.

(** C1, as the code has it: for boxes with [int64] cells and confidences
    of one length with them, the metric IOU or IOS and no masks, [nms]
    returns distinct indices, and for any two of them the value that the
    loop computed, in float32, for the one kept later against the one
    kept earlier is strictly below the threshold converted to float32.
    Nothing is said of the exact IoU or IoS of the two boxes. *)
Theorem nms_survivors_computed_below_threshold
    (argsort : list Fp.float -> list nat)
    (confidences : list Fp.float) (boxes : list IBox) (match_metric : string)
    (nms_threshold : Fp.float) (intelligent_sorter : bool) :
  Fp.argsort_permutes argsort ->
  boxes <> [] ->
  Forall (fun b => Fp.box_in_int64 b = true) boxes ->
  List.length confidences = List.length boxes ->
  match_metric = "IOU"%string \/ match_metric = "IOS"%string ->
  exists keep,
    Fp.nms argsort confidences boxes match_metric nms_threshold
      intelligent_sorter = Ok keep /\
    NoDup keep /\
    forall p q i j,
      (p < q)%nat -> nth_error keep p = Some i -> nth_error keep q = Some j ->
      exists bi bj v,
        nth_error boxes i = Some bi /\ nth_error boxes j = Some bj /\
        Fp.box_metric match_metric bj bi = Ok v /\
        Fp.ltb v (Fp.b64_to_f32 nms_threshold) = true.
Proof.
  intros Hargsort Hne Hint Hlen Hvalid.
  rewrite fp_nms_nonempty by assumption.
  destruct (@fp_initial_order_perm argsort confidences boxes
              intelligent_sorter Hargsort) as (order & -> & Hperm); [lia|].
  cbn [bind]. rewrite Hlen in Hperm.
  destruct (perm_seq_valid _ Hperm) as [Hnd Hall].
  destruct (@fp_while_total boxes match_metric nms_threshold Hvalid
              _ order [] (le_n _) Hall) as [keep Hkeep].
  exists keep. split; [exact Hkeep|].
  destruct (@fp_while_inv boxes match_metric nms_threshold
              (fun _ _ => True) (List.length order) order [] keep (le_n _)
              (StronglySorted_True order) Hkeep)
    as (new & Hres & Hpairs & Hincl & Hnodup & _).
  cbn [app] in Hres. subst new. split; [auto|].
  intros p q i j Hpq Hp Hq.
  pose proof (ForallOrdPairs_nth Hpairs Hpq Hp Hq) as Hb.
  rewrite Forall_forall in Hall.
  assert (Hi : (i < List.length boxes)%nat)
    by (apply Hall, Hincl; eapply nth_error_In; eauto).
  assert (Hj : (j < List.length boxes)%nat)
    by (apply Hall, Hincl; eapply nth_error_In; eauto).
  exists (Fp.box_at boxes i), (Fp.box_at boxes j),
    (Fp.metric_value match_metric (Fp.box_at boxes j) (Fp.box_at boxes i)).
  unfold Fp.box_at at 1 3. repeat split.
  - now apply nth_error_nth'.
  - now apply nth_error_nth'.
  - now apply fp_box_metric_value.
  - exact Hb.
Qed.

(** The stable sort is one [argsort]. *)
Lemma stable_argsort_permutes : Fp.argsort_permutes Fp.stable_argsort.
Proof. intros t. apply sorted_range_perm. Qed.

Lemma stable_argsort_ascending : Fp.argsort_ascending Fp.stable_argsort.
Proof.
  intros t Ht. unfold Fp.stable_argsort.
  apply (@sorted_range_sorted_on _ Fp.ltb Fp.not_nan S754_nan t).
  - intros a b _ _. apply fp_ltb_asym.
  - intros a b c. apply fp_not_after_trans.
  - exact Ht.
Qed.

Lemma nms_survivors_computed_below_threshold_witness :
  exists keep,
    Fp.nms Fp.stable_argsort [Fp.dec 9 10; Fp.dec 8 10; Fp.dec 7 10]
      [mkIBox 0 0 10 10; mkIBox 1 1 11 11; mkIBox 20 20 30 30]
      "IOU" (Fp.dec 1 2) false = Ok keep /\
    NoDup keep /\
    forall p q i j,
      (p < q)%nat -> nth_error keep p = Some i -> nth_error keep q = Some j ->
      exists bi bj v,
        nth_error [mkIBox 0 0 10 10; mkIBox 1 1 11 11; mkIBox 20 20 30 30] i
          = Some bi /\
        nth_error [mkIBox 0 0 10 10; mkIBox 1 1 11 11; mkIBox 20 20 30 30] j
          = Some bj /\
        Fp.box_metric "IOU" bj bi = Ok v /\
        Fp.ltb v (Fp.b64_to_f32 (Fp.dec 1 2)) = true.
Proof.
  apply (@nms_survivors_computed_below_threshold Fp.stable_argsort
           [Fp.dec 9 10; Fp.dec 8 10; Fp.dec 7 10]
           [mkIBox 0 0 10 10; mkIBox 1 1 11 11; mkIBox 20 20 30 30]
           "IOU" (Fp.dec 1 2) false).
  - exact stable_argsort_permutes.
  - discriminate.
  - repeat constructor.
  - reflexivity.
  - left. reflexivity.
Defined.

Lemma fp_while_two (boxes : list IBox) (match_metric : string)
    (nms_threshold : Fp.float) (q idx : nat) :
  Fp.round_valid boxes match_metric idx [q] ->
  Fp.nms_while boxes (map Fp.area boxes) match_metric nms_threshold
    [q; idx] []
  = Ok (if Fp.below boxes match_metric nms_threshold idx q
        then [idx; q] else [idx]).
Proof.
  intros Hv.
  pose proof (fp_while_snoc boxes match_metric nms_threshold [q] idx [])
    as E.
  cbn [app] in E. rewrite E, (fp_round_total nms_threshold Hv).
  cbn [bind filter].
  destruct (Fp.below boxes match_metric nms_threshold idx q).
  - exact (fp_while_snoc boxes match_metric nms_threshold [] q [idx]).
  - now simp nms_while.
Qed.

(** Two boxes whose IoU, computed exactly, is 1/2 (areas 16795071 each,
    intersection 11196714): with the threshold 0.5 [nms] keeps both,
    whatever the sorter and the order of the two, where C1 asks that
    the metric of any two survivors be strictly below the threshold.
    In float32 the area is 16795072, the union 22393430 and the quotient
    0.49999997. *)
Lemma nms_keeps_boxes_at_threshold :
  (exists v,
     box_metric "IOU" (Fp.exact_box (mkIBox 0 0 3357 5003))
       (Fp.exact_box (mkIBox 1119 0 4476 5003)) = Ok (Fin v) /\
     v == 1 # 2 /\ Fp.to_Q (Fp.dec 1 2) == 1 # 2 /\
     ~ v < Fp.to_Q (Fp.dec 1 2)) /\
  forall (argsort : list Fp.float -> list nat) (intelligent_sorter : bool),
    Fp.argsort_permutes argsort ->
    exists keep,
      Fp.nms argsort [Fp.dec 9 10; Fp.dec 8 10]
        [mkIBox 0 0 3357 5003; mkIBox 1119 0 4476 5003] "IOU" (Fp.dec 1 2)
        intelligent_sorter = Ok keep /\
      In 0%nat keep /\ In 1%nat keep.
Proof.
  split.
  - eexists. split; [vm_compute; reflexivity|].
    split; [vm_compute; reflexivity|].
    split; [vm_compute; reflexivity|]. vm_compute. discriminate.
  - intros argsort sorter Hperm.
    rewrite fp_nms_nonempty by first [discriminate | repeat constructor].
    destruct (@fp_initial_order_perm argsort [Fp.dec 9 10; Fp.dec 8 10]
                [mkIBox 0 0 3357 5003; mkIBox 1119 0 4476 5003] sorter Hperm)
      as (order & -> & Hp); [cbn; lia|].
    cbn [bind]. cbn in Hp.
    destruct (perm_two Hp) as [-> | ->].
    + rewrite fp_while_two
        by (repeat split; [now left | cbn; lia | repeat constructor; cbn; lia]).
      eexists. split; [vm_compute; reflexivity|]. cbn. auto.
    + rewrite fp_while_two
        by (repeat split; [now left | cbn; lia | repeat constructor; cbn; lia]).
      eexists. split; [vm_compute; reflexivity|]. cbn. auto.
Qed.

(** [nms] on two boxes, of which [idx] is popped first. *)
Lemma fp_nms_pair
    (argsort : list Fp.float -> list nat)
    (c0 c1 : Fp.float) (b0 b1 : IBox) (match_metric : string)
    (nms_threshold : Fp.float) (intelligent_sorter : bool)
    (q idx : nat) (bq bidx : IBox) (v : Fp.float) :
  Forall (fun b => Fp.box_in_int64 b = true) [b0; b1] ->
  Fp.initial_order argsort (map Fp.b64_to_f32 [c0; c1])
    (map Fp.area [b0; b1]) intelligent_sorter = Ok [q; idx] ->
  nth_error [b0; b1] q = Some bq ->
  nth_error [b0; b1] idx = Some bidx ->
  Fp.box_metric match_metric bq bidx = Ok v ->
  Fp.nms argsort [c0; c1] [b0; b1] match_metric nms_threshold
    intelligent_sorter
  = Ok (if Fp.ltb v (Fp.b64_to_f32 nms_threshold) then [idx; q] else [idx]).
Proof.
  intros Hint Ho Hq Hidx Hm.
  destruct (fp_box_metric_Ok _ _ _ Hm) as [Hvalid ->].
  assert (Hv : Fp.round_valid [b0; b1] match_metric idx [q]).
  { repeat split; trivial.
    - apply nth_error_Some. congruence.
    - constructor; [|constructor]. apply nth_error_Some. congruence. }
  rewrite fp_nms_nonempty by first [discriminate | assumption].
  rewrite Ho. cbn [bind]. rewrite (fp_while_two nms_threshold Hv).
  unfold Fp.below, Fp.bmv.
  now rewrite (fp_box_at_nth_error _ _ Hq), (fp_box_at_nth_error _ _ Hidx).
Qed.

(** C3, as the code has it: of two boxes the loop pops one, [idx], and
    computes in float32 the metric of the other, [q], against it.  When
    that value equals the threshold converted to float32, [nms] returns
    [idx] alone: the boundary suppresses, [q] being kept only if the value
    is strictly below the threshold ([fp_nms_pair]). *)
Theorem nms_boundary_computed
    (argsort : list Fp.float -> list nat)
    (c0 c1 : Fp.float) (b0 b1 : IBox) (match_metric : string)
    (nms_threshold : Fp.float) (intelligent_sorter : bool)
    (q idx : nat) (bq bidx : IBox) (v : Fp.float) :
  Forall (fun b => Fp.box_in_int64 b = true) [b0; b1] ->
  Fp.initial_order argsort (map Fp.b64_to_f32 [c0; c1])
    (map Fp.area [b0; b1]) intelligent_sorter = Ok [q; idx] ->
  nth_error [b0; b1] q = Some bq ->
  nth_error [b0; b1] idx = Some bidx ->
  Fp.box_metric match_metric bq bidx = Ok v ->
  Fp.eqb v (Fp.b64_to_f32 nms_threshold) = true ->
  Fp.nms argsort [c0; c1] [b0; b1] match_metric nms_threshold
    intelligent_sorter = Ok [idx].
Proof.
  intros Hint Ho Hq Hidx Hm He.
  rewrite (fp_nms_pair argsort c0 c1 match_metric nms_threshold
             intelligent_sorter Hint Ho Hq Hidx Hm).
  now rewrite (fp_eqb_not_ltb _ _ He).
Qed.

Lemma nms_boundary_computed_witness :
  Fp.nms Fp.stable_argsort [Fp.dec 9 10; Fp.dec 8 10]
    [mkIBox 0 0 10 10; mkIBox 0 0 10 5] "IOU" (Fp.dec 1 2) false
  = Ok [0%nat].
Proof.
  apply (@nms_boundary_computed Fp.stable_argsort (Fp.dec 9 10) (Fp.dec 8 10)
           (mkIBox 0 0 10 10) (mkIBox 0 0 10 5) "IOU" (Fp.dec 1 2) false
           1 0 (mkIBox 0 0 10 5) (mkIBox 0 0 10 10)
           (Fp.b64_to_f32 (Fp.dec 1 2))).
  - repeat constructor.
  - vm_compute. reflexivity.
  - reflexivity.
  - reflexivity.
  - vm_compute. reflexivity.
  - vm_compute. reflexivity.
Defined.

(** ** The intelligent sorter, in machine arithmetic *)

Lemma fp_while_head (boxes : list IBox) (match_metric : string)
    (nms_threshold : Fp.float) (order keep : list nat) :
  order <> [] ->
  Fp.nms_while boxes (map Fp.area boxes) match_metric nms_threshold order []
  = Ok keep ->
  hd_error keep = Some (last order 0%nat).
Proof.
  intros Hne H.
  destruct (@fp_while_inv boxes match_metric nms_threshold
              (fun _ _ => True) (List.length order) order [] keep (le_n _)
              (StronglySorted_True order) H)
    as (new & -> & _ & _ & _ & Hhd & _); auto.
Qed.

(** C6, as the code has it: with [intelligent_sorter] on and no NaN
    among the confidences, the initial order of [nms] is a permutation of
    the indices that is ascending in the key (round(c, 1), area), where c
    is the confidence after its conversion to float32 (line 198) and the
    area is the [int64] one, compared as Python compares pairs; the index
    processed first (the head of the result) is the last one of that
    order. *)
Theorem nms_intelligent_sorter_float32_order
    (argsort : list Fp.float -> list nat)
    (confidences : list Fp.float) (boxes : list IBox) (match_metric : string)
    (nms_threshold : Fp.float) (keep : list nat) :
  boxes <> [] ->
  List.length confidences = List.length boxes ->
  Forall Fp.not_nan confidences ->
  Fp.nms argsort confidences boxes match_metric nms_threshold true
  = Ok keep ->
  exists order,
    Fp.initial_order argsort (map Fp.b64_to_f32 confidences)
      (map Fp.area boxes) true = Ok order /\
    Permutation order (seq 0 (List.length boxes)) /\
    StronglySorted
      (fun i j => Fp.key_lt (Fp.key_of confidences boxes j)
                            (Fp.key_of confidences boxes i) = false)
      order /\
    hd_error keep = Some (last order 0%nat).
Proof.
  intros Hne Hlen Hnan H.
  destruct (fp_nms_Ok_inv _ _ _ _ _ _ H)
    as [[-> _]|(_ & Hint & order & Ho & Hloop)]; [contradiction|].
  exists order. split; [exact Ho|].
  assert (Hperm : Permutation order (seq 0 (List.length boxes))).
  { rewrite (fp_initial_order_intelligent argsort confidences boxes) in Ho
      by lia.
    injection Ho as <-. rewrite sorted_range_perm.
    now rewrite length_map, length_seq, Hlen. }
  split; [exact Hperm|]. split.
  - apply fp_initial_order_sorted with (argsort := argsort); trivial. lia.
  - apply fp_while_head with (2 := Hloop). intros ->.
    apply Permutation_nil in Hperm.
    destruct boxes; [contradiction|discriminate].
Qed.

Lemma nms_intelligent_sorter_float32_order_witness :
  exists order,
    Fp.initial_order Fp.stable_argsort
      (map Fp.b64_to_f32 [Fp.dec 81 100; Fp.dec 84 100])
      (map Fp.area [mkIBox 0 0 50 40; mkIBox 100 100 120 125]) true
    = Ok order /\
    Permutation order (seq 0 2) /\
    StronglySorted
      (fun i j =>
         Fp.key_lt
           (Fp.key_of [Fp.dec 81 100; Fp.dec 84 100]
              [mkIBox 0 0 50 40; mkIBox 100 100 120 125] j)
           (Fp.key_of [Fp.dec 81 100; Fp.dec 84 100]
              [mkIBox 0 0 50 40; mkIBox 100 100 120 125] i) = false)
      order /\
    hd_error [0%nat; 1%nat] = Some (last order 0%nat).
Proof.
  apply (@nms_intelligent_sorter_float32_order Fp.stable_argsort
           [Fp.dec 81 100; Fp.dec 84 100]
           [mkIBox 0 0 50 40; mkIBox 100 100 120 125] "IOS" (Fp.dec 3 10)
           [0%nat; 1%nat]).
  - discriminate.
  - reflexivity.
  - repeat constructor; discriminate.
  - vm_compute. reflexivity.
Defined.

(** The case of the specification: 0.81 and 0.84 fall in one bucket,
    0.8, also after the conversion to float32, and of two boxes of areas
    2000 and 500 the larger is processed first. *)
Lemma nms_intelligent_sorter_prefers_area
    (argsort : list Fp.float -> list nat) (b0 b1 : IBox)
    (match_metric : string) (nms_threshold : Fp.float) :
  match_metric = "IOU"%string \/ match_metric = "IOS"%string ->
  Forall (fun b => Fp.box_in_int64 b = true) [b0; b1] ->
  Fp.area b0 = 2000%Z -> Fp.area b1 = 500%Z ->
  Fp.key_of [Fp.dec 81 100; Fp.dec 84 100] [b0; b1] 0
    = (Fp.dec 8 10, 2000%Z) /\
  Fp.key_of [Fp.dec 81 100; Fp.dec 84 100] [b0; b1] 1
    = (Fp.dec 8 10, 500%Z) /\
  Fp.initial_order argsort (map Fp.b64_to_f32 [Fp.dec 81 100; Fp.dec 84 100])
    (map Fp.area [b0; b1]) true = Ok [1%nat; 0%nat] /\
  exists rest,
    Fp.nms argsort [Fp.dec 81 100; Fp.dec 84 100] [b0; b1] match_metric
      nms_threshold true = Ok (0%nat :: rest).
Proof.
  intros Hvalid Hint H0 H1.
  assert (K0 : Fp.key_of [Fp.dec 81 100; Fp.dec 84 100] [b0; b1] 0
               = (Fp.dec 8 10, 2000%Z)).
  { unfold Fp.key_of, Fp.box_at. cbn [nth]. rewrite H0. f_equal. }
  assert (K1 : Fp.key_of [Fp.dec 81 100; Fp.dec 84 100] [b0; b1] 1
               = (Fp.dec 8 10, 500%Z)).
  { unfold Fp.key_of, Fp.box_at. cbn [nth]. rewrite H1. f_equal. }
  assert (Ho : Fp.initial_order argsort
                 (map Fp.b64_to_f32 [Fp.dec 81 100; Fp.dec 84 100])
                 (map Fp.area [b0; b1]) true = Ok [1%nat; 0%nat]).
  { rewrite (fp_initial_order_intelligent argsort
               [Fp.dec 81 100; Fp.dec 84 100] [b0; b1]) by (cbn; lia).
    cbn [List.length seq map]. rewrite K0, K1. reflexivity. }
  repeat split; trivial.
  rewrite fp_nms_nonempty by first [discriminate | assumption].
  rewrite Ho. cbn [bind].
  rewrite fp_while_two
    by (repeat split; [exact Hvalid | cbn; lia | repeat constructor; cbn; lia]).
  destruct (Fp.below _ _ _ _ _); eauto.
Qed.

(** With confidences 0.85 and 0.89 and areas 2000 and 500, the pairs
    (round(confidence, 1), area) are (0.8, 2000) and (0.9, 500), in this
    order when sorted, so the second candidate would be processed first.
    [torch.tensor] stores 0.85 as the float32 0.8500000238, which rounds
    to 0.9: the keys of the code are (0.9, 2000) and (0.9, 500), the
    initial order is [1, 0], and the first candidate is processed
    first. *)
Lemma nms_intelligent_sorter_rounds_float32 :
  Fp.py_round1 (Fp.dec 85 100) = Fp.dec 8 10 /\
  Fp.py_round1 (Fp.dec 89 100) = Fp.dec 9 10 /\
  sorted_range Fp.key_lt
    [(Fp.py_round1 (Fp.dec 85 100), 2000%Z);
     (Fp.py_round1 (Fp.dec 89 100), 500%Z)] = [0%nat; 1%nat] /\
  Fp.key_of [Fp.dec 85 100; Fp.dec 89 100]
    [mkIBox 0 0 50 40; mkIBox 100 100 120 125] 0 = (Fp.dec 9 10, 2000%Z) /\
  Fp.key_of [Fp.dec 85 100; Fp.dec 89 100]
    [mkIBox 0 0 50 40; mkIBox 100 100 120 125] 1 = (Fp.dec 9 10, 500%Z) /\
  forall argsort : list Fp.float -> list nat,
    Fp.initial_order argsort
      (map Fp.b64_to_f32 [Fp.dec 85 100; Fp.dec 89 100])
      (map Fp.area [mkIBox 0 0 50 40; mkIBox 100 100 120 125]) true
    = Ok [1%nat; 0%nat] /\
    Fp.nms argsort [Fp.dec 85 100; Fp.dec 89 100]
      [mkIBox 0 0 50 40; mkIBox 100 100 120 125] "IOU" (Fp.dec 1 2) true
    = Ok [0%nat; 1%nat].
Proof.
  repeat split; try (vm_compute; reflexivity).
Qed.

(** The same with a confidence that is not a tie of the decimal
    rounding: 0.849999995 is below 0.85 and rounds to 0.8, its float32
    is above 0.85 and rounds to 0.9. *)
Lemma nms_intelligent_sorter_rounds_float32_below_tie :
  Fp.to_Q (Fp.dec 849999995 1000000000) < 85 # 100 /\
  Fp.py_round1 (Fp.dec 849999995 1000000000) = Fp.dec 8 10 /\
  85 # 100 < Fp.to_Q (Fp.b64_to_f32 (Fp.dec 849999995 1000000000)) /\
  Fp.key_of [Fp.dec 849999995 1000000000; Fp.dec 89 100]
    [mkIBox 0 0 50 40; mkIBox 100 100 120 125] 0 = (Fp.dec 9 10, 2000%Z) /\
  forall argsort : list Fp.float -> list nat,
    Fp.nms argsort [Fp.dec 849999995 1000000000; Fp.dec 89 100]
      [mkIBox 0 0 50 40; mkIBox 100 100 120 125] "IOU" (Fp.dec 1 2) true
    = Ok [0%nat; 1%nat].
Proof.
  repeat split; try (vm_compute; reflexivity).
Qed.

(** The area is an [int64] product and wraps: a box in range can have
    the area 0, or a negative one. *)
Lemma area_wraps_int64 :
  Fp.box_in_int64 (mkIBox 0 0 4294967296 4294967296) = true /\
  Fp.area (mkIBox 0 0 4294967296 4294967296) = 0%Z /\
  Fp.area (mkIBox 0 0 4294967296 2147483648) = (- 2 ^ 63)%Z.
Proof. repeat split; vm_compute; reflexivity. Qed.

(** ** Running [nms] on its own output, in machine arithmetic *)




Section FpSecondPass.

Variables (confidences : list Fp.float) (boxes : list IBox).
Variables (match_metric : string) (nms_threshold : Fp.float).
Variable keep : list nat.







End FpSecondPass.





(** With IOU and the plain sorter the second pass can drop a box, also
    without masks: two boxes of equal confidence whose IoU is 0.29999998
    in float32 when the second box is the popped one, and 0.30000001, not
    below the float32 threshold 0.3, when the first one is.  The first
    pass keeps both and returns them in the other order; the second pass
    pops the other box. *)
Lemma nms_not_idempotent_plain_iou :
  let confidences := [Fp.dec 9 10; Fp.dec 9 10] in
  let boxes := [mkIBox 94 0 17280 7256; mkIBox 0 0 11791 20616] in
  exists confidences2 boxes2,
    Fp.nms Fp.stable_argsort confidences boxes "IOU" (Fp.dec 3 10) false
      = Ok [1%nat; 0%nat] /\
    select confidences [1%nat; 0%nat] = Ok confidences2 /\
    select boxes [1%nat; 0%nat] = Ok boxes2 /\
    Fp.nms Fp.stable_argsort confidences2 boxes2 "IOU" (Fp.dec 3 10) false
      = Ok [1%nat].
Proof.
  cbv zeta.
  exists [Fp.dec 9 10; Fp.dec 9 10],
    [mkIBox 0 0 11791 20616; mkIBox 94 0 17280 7256].
  repeat split; vm_compute; reflexivity.
Qed.

(** ** What the loop removes and in which order, in machine arithmetic *)

Lemma two_members_length (A : Type) (l : list A) (x y : A) :
  In x l -> In y l -> x <> y -> (2 <= List.length l)%nat.
Proof.
  destruct l as [|a [|b l]]; cbn; intros Hx Hy Hxy; try lia.
  destruct Hx as [<-|[]], Hy as [<-|[]]. contradiction.
Qed.

(** X14: without masks nothing is dropped without cause: an index that
    [nms] does not return has, against some index that it does return,
    a computed box metric (float32, the returned box being the popped
    one) that is not below the float32 threshold. *)
Theorem nms_suppressed_has_computed_cause
    (argsort : list Fp.float -> list nat)
    (confidences : list Fp.float) (boxes : list IBox) (match_metric : string)
    (nms_threshold : Fp.float) (intelligent_sorter : bool)
    (keep : list nat) (k : nat) :
  Fp.argsort_permutes argsort ->
  List.length confidences = List.length boxes ->
  Fp.nms argsort confidences boxes match_metric nms_threshold
    intelligent_sorter = Ok keep ->
  (k < List.length boxes)%nat -> ~ In k keep ->
  exists i bi bk v,
    In i keep /\ nth_error boxes i = Some bi /\ nth_error boxes k = Some bk /\
    Fp.box_metric match_metric bk bi = Ok v /\
    Fp.ltb v (Fp.b64_to_f32 nms_threshold) = false.
Proof.
  intros Hargsort Hlen H Hk Hnot.
  destruct (fp_nms_Ok_inv _ _ _ _ _ _ H)
    as [[-> _]|(_ & _ & order & Ho & Hloop)]; [cbn in Hk; lia|].
  destruct (@fp_initial_order_perm argsort confidences boxes
              intelligent_sorter Hargsort) as (order' & Ho' & Hperm); [lia|].
  rewrite Ho in Ho'. injection Ho' as <-. rewrite Hlen in Hperm.
  assert (Hin : In k order).
  { apply (Permutation_in _ (Permutation_sym Hperm)), in_seq. lia. }
  destruct (@fp_while_inv boxes match_metric nms_threshold (fun _ _ => True)
              (List.length order) order [] keep (le_n _)
              (StronglySorted_True order) Hloop)
    as (new & Hres & _ & Hincl & _ & _ & _ & Hdom & Hvalid).
  cbn [app] in Hres. subst new.
  destruct (Hdom k Hin) as [Hkk|(i & Hi & Hb)]; [contradiction|].
  destruct Hvalid as [Hv Hall].
  { apply (@two_members_length _ order i k); auto.
    intros ->. contradiction. }
  rewrite Forall_forall in Hall.
  exists i, (Fp.box_at boxes i), (Fp.box_at boxes k),
    (Fp.metric_value match_metric (Fp.box_at boxes k) (Fp.box_at boxes i)).
  unfold Fp.box_at. repeat split; trivial.
  - apply nth_error_nth'. auto.
  - now apply nth_error_nth'.
  - now apply fp_box_metric_value.
Qed.

Lemma nms_suppressed_has_computed_cause_witness :
  exists i bi bk v,
    In i [0%nat; 2%nat] /\
    nth_error [mkIBox 0 0 10 10; mkIBox 1 1 11 11; mkIBox 20 20 30 30] i
      = Some bi /\
    nth_error [mkIBox 0 0 10 10; mkIBox 1 1 11 11; mkIBox 20 20 30 30] 1
      = Some bk /\
    Fp.box_metric "IOU" bk bi = Ok v /\
    Fp.ltb v (Fp.b64_to_f32 (Fp.dec 1 2)) = false.
Proof.
  apply (@nms_suppressed_has_computed_cause Fp.stable_argsort
           [Fp.dec 9 10; Fp.dec 8 10; Fp.dec 7 10]
           [mkIBox 0 0 10 10; mkIBox 1 1 11 11; mkIBox 20 20 30 30]
           "IOU" (Fp.dec 1 2) false [0%nat; 2%nat] 1).
  - exact stable_argsort_permutes.
  - reflexivity.
  - vm_compute. reflexivity.
  - cbn. lia.
  - intros [E|[E|[]]]; discriminate.
Defined.

(** The cause is the computed value, which need not agree with the exact
    one.  These two boxes have the IoU 9027018/18054037, below 1/2; in
    float32 the union 18054037 becomes 18054036 and the quotient 0.5, so
    the second box is dropped at the threshold 0.5. *)
Lemma nms_suppresses_below_exact_threshold :
  (exists v,
     box_metric "IOU" (Fp.exact_box (mkIBox 3001 0 6010 3003))
       (Fp.exact_box (mkIBox 0 0 6007 3004)) = Ok (Fin v) /\
     v < 1 # 2) /\
  Fp.box_metric "IOU" (mkIBox 3001 0 6010 3003) (mkIBox 0 0 6007 3004)
    = Ok (Fp.b64_to_f32 (Fp.dec 1 2)) /\
  Fp.nms Fp.stable_argsort [Fp.dec 9 10; Fp.dec 8 10]
    [mkIBox 0 0 6007 3004; mkIBox 3001 0 6010 3003] "IOU" (Fp.dec 1 2) false
    = Ok [0%nat] /\
  forall argsort : list Fp.float -> list nat,
    Fp.nms argsort [Fp.dec 9 10; Fp.dec 8 10]
      [mkIBox 0 0 6007 3004; mkIBox 3001 0 6010 3003] "IOU" (Fp.dec 1 2) true
    = Ok [0%nat].
Proof.
  split.
  - eexists. split; vm_compute; reflexivity.
  - repeat split; vm_compute; reflexivity.
Qed.

(** X15: without masks, when the computed box metric of every ordered
    pair of different boxes is below the float32 threshold, [nms]
    suppresses nothing: it returns all the indices, from the last of the
    order that the sorter gave to its first. *)
Theorem nms_keeps_all_computed_below_threshold
    (argsort : list Fp.float -> list nat)
    (confidences : list Fp.float) (boxes : list IBox) (match_metric : string)
    (nms_threshold : Fp.float) (intelligent_sorter : bool) :
  Fp.argsort_permutes argsort ->
  Forall (fun b => Fp.box_in_int64 b = true) boxes ->
  List.length confidences = List.length boxes ->
  (forall i j bi bj, i <> j ->
     nth_error boxes i = Some bi -> nth_error boxes j = Some bj ->
     exists v, Fp.box_metric match_metric bi bj = Ok v /\
               Fp.ltb v (Fp.b64_to_f32 nms_threshold) = true) ->
  exists order,
    Fp.initial_order argsort (map Fp.b64_to_f32 confidences)
      (map Fp.area boxes) intelligent_sorter = Ok order /\
    Permutation order (seq 0 (List.length boxes)) /\
    Fp.nms argsort confidences boxes match_metric nms_threshold
      intelligent_sorter = Ok (rev order).
Proof.
  intros Hargsort Hint Hlen Hall.
  destruct (@fp_initial_order_perm argsort confidences boxes
              intelligent_sorter Hargsort) as (order & Ho & Hperm); [lia|].
  rewrite Hlen in Hperm. exists order. split; [exact Ho|].
  split; [exact Hperm|].
  destruct boxes as [|b0 bs] eqn:Hb.
  { cbn in Hperm. apply Permutation_sym, Permutation_nil in Hperm.
    now subst order. }
  rewrite <- Hb in *.
  rewrite fp_nms_nonempty, Ho by (trivial; rewrite Hb; discriminate).
  cbn [bind].
  destruct (perm_seq_valid _ Hperm) as [Hnd Hvalid].
  change (rev order) with ([] ++ rev order).
  apply fp_while_no_suppression. intros pre idx post Hsplit Hpre.
  rewrite Hsplit in Hnd, Hvalid.
  apply Forall_app in Hvalid. destruct Hvalid as [Hvpre Hvidx].
  assert (Hi : (idx < List.length boxes)%nat) by now inversion Hvidx.
  assert (Hni : ~ In idx pre).
  { apply NoDup_remove_2 in Hnd. intros Hin. apply Hnd.
    apply in_or_app. now left. }
  assert (Hv : match_metric = "IOU"%string \/ match_metric = "IOS"%string).
  { destruct pre as [|q pre']; [contradiction|].
    assert (Hq : (q < List.length boxes)%nat) by now inversion Hvpre.
    destruct (Hall q idx (Fp.box_at boxes q) (Fp.box_at boxes idx))
      as (v & Hm & _).
    - intros ->. apply Hni. now left.
    - unfold Fp.box_at. now apply nth_error_nth'.
    - unfold Fp.box_at. now apply nth_error_nth'.
    - now apply fp_box_metric_Ok in Hm. }
  rewrite fp_round_total.
  - f_equal. apply filter_all. intros q Hq. unfold Fp.below, Fp.bmv.
    rewrite Forall_forall in Hvpre.
    destruct (Hall q idx (Fp.box_at boxes q) (Fp.box_at boxes idx))
      as (v & Hm & Hlt).
    + intros ->. contradiction.
    + unfold Fp.box_at. apply nth_error_nth'. auto.
    + unfold Fp.box_at. now apply nth_error_nth'.
    + apply fp_box_metric_Ok in Hm. destruct Hm as [_ ->]. exact Hlt.
  - repeat split; trivial.
Qed.

Lemma nms_keeps_all_computed_below_threshold_witness :
  exists order,
    Fp.initial_order Fp.stable_argsort
      (map Fp.b64_to_f32 [Fp.dec 9 10; Fp.dec 7 10])
      (map Fp.area [mkIBox 0 0 10 10; mkIBox 20 20 30 30]) false = Ok order /\
    Permutation order (seq 0 2) /\
    Fp.nms Fp.stable_argsort [Fp.dec 9 10; Fp.dec 7 10]
      [mkIBox 0 0 10 10; mkIBox 20 20 30 30] "IOU" (Fp.dec 1 2) false
    = Ok (rev order).
Proof.
  apply (@nms_keeps_all_computed_below_threshold Fp.stable_argsort
           [Fp.dec 9 10; Fp.dec 7 10]
           [mkIBox 0 0 10 10; mkIBox 20 20 30 30] "IOU" (Fp.dec 1 2) false).
  - exact stable_argsort_permutes.
  - repeat constructor.
  - reflexivity.
  - intros [|[|i]] [|[|j]] bi bj Hij Hi Hj; try contradiction;
      try (destruct i; discriminate); try (destruct j; discriminate);
      injection Hi as <-; injection Hj as <-;
      eexists; (split; [reflexivity | vm_compute; reflexivity]).
Defined.

(** X16: without a NaN among the confidences the indices come out by
    falling priority, the priority being what the code compares.  With
    the plain sorter, and an [argsort] that sorts ascending, the float32
    confidence never rises along the result; with the intelligent sorter
    the key (float32 confidence rounded to one decimal, int64 area) never
    rises. *)
Theorem nms_output_by_computed_priority
    (argsort : list Fp.float -> list nat)
    (confidences : list Fp.float) (boxes : list IBox) (match_metric : string)
    (nms_threshold : Fp.float) (intelligent_sorter : bool)
    (keep : list nat) :
  Fp.argsort_ascending argsort ->
  List.length confidences = List.length boxes ->
  Forall Fp.not_nan confidences ->
  Fp.nms argsort confidences boxes match_metric nms_threshold
    intelligent_sorter = Ok keep ->
  StronglySorted
    (fun i j =>
       if intelligent_sorter
       then Fp.key_lt (Fp.key_of confidences boxes i)
                      (Fp.key_of confidences boxes j) = false
       else Fp.ltb (Fp.b64_to_f32 (nth i confidences S754_nan))
                   (Fp.b64_to_f32 (nth j confidences S754_nan)) = false)
    keep.
Proof.
  intros Hasc Hlen Hnan H.
  destruct (fp_nms_Ok_inv _ _ _ _ _ _ H)
    as [[_ ->]|(Hne & _ & order & Ho & Hloop)]; [constructor|].
  destruct intelligent_sorter.
  - destruct (@fp_while_inv boxes match_metric nms_threshold
                (fun i j => Fp.key_lt (Fp.key_of confidences boxes j)
                                      (Fp.key_of confidences boxes i) = false)
                (List.length order) order [] keep (le_n _))
      as (new & Hres & _ & _ & _ & _ & Hs & _); trivial.
    + apply (@fp_initial_order_sorted argsort); trivial. lia.
    + cbn [app] in Hres. now subst new.
  - destruct (@fp_while_inv boxes match_metric nms_threshold
                (fun i j =>
                   Fp.ltb (Fp.b64_to_f32 (nth j confidences S754_nan))
                          (Fp.b64_to_f32 (nth i confidences S754_nan)) = false)
                (List.length order) order [] keep (le_n _))
      as (new & Hres & _ & _ & _ & _ & Hs & _); trivial.
    + unfold Fp.initial_order in Ho. injection Ho as <-.
      eapply StronglySorted_impl_in; [|apply Hasc].
      * intros i j _ _ Hij. cbv beta in Hij.
        now rewrite !fp_nth_conf32 in Hij.
      * apply Forall_forall. intros c Hc. apply in_map_iff in Hc.
        destruct Hc as (x & <- & Hx). apply b64_to_f32_not_nan.
        rewrite Forall_forall in Hnan. now apply Hnan.
    + cbn [app] in Hres. now subst new.
Qed.

Lemma nms_output_by_computed_priority_witness :
  StronglySorted
    (fun i j =>
       Fp.ltb
         (Fp.b64_to_f32 (nth i [Fp.dec 7 10; Fp.dec 9 10; Fp.dec 8 10]
                           S754_nan))
         (Fp.b64_to_f32 (nth j [Fp.dec 7 10; Fp.dec 9 10; Fp.dec 8 10]
                           S754_nan)) = false)
    [1%nat; 2%nat; 0%nat].
Proof.
  apply (@nms_output_by_computed_priority Fp.stable_argsort
           [Fp.dec 7 10; Fp.dec 9 10; Fp.dec 8 10]
           [mkIBox 0 0 10 10; mkIBox 20 20 30 30; mkIBox 40 40 50 50]
           "IOU" (Fp.dec 1 2) false [1%nat; 2%nat; 0%nat]).
  - exact stable_argsort_ascending.
  - reflexivity.
  - repeat constructor; discriminate.
  - vm_compute. reflexivity.
Defined.

(** ** The tiler in binary64 *)

Lemma foldM_invariant (S A : Type) (P : S -> Prop)
    (f : S -> A -> result S) (l : list A) :
  (forall s a s', In a l -> P s -> f s a = Ok s' -> P s') ->
  forall s s', P s -> Fp.foldM f l s = Ok s' -> P s'.
Proof.
  induction l as [|a l IH]; intros Hf s s' Hs H; cbn in H.
  - now injection H as <-.
  - destruct (f s a) as [s1|] eqn:E; [|discriminate]. cbn [bind] in H.
    apply (IH (fun s0 a0 s0' Hin => Hf s0 a0 s0' (or_intror Hin)) s1 s');
      [|exact H].
    apply (Hf s a s1); [now left | exact Hs | exact E].
Qed.


Section FpTiler.

Variables (image_innitial canvas : Shape).
Variables (shape_x shape_y : Z) (koef_x koef_y : Fp.float).

(** What the loops have put in a crop made at the grid position
    [(row, col)]. *)
Definition crop_at (row col : Z) (c : CropComponent) : Prop :=
  Fp.start shape_x col koef_x = Ok (x_start c) /\
  Fp.start shape_y row koef_y = Ok (y_start c) /\
  (x_start c + shape_x <= shape1 canvas)%Z /\
  (y_start c + shape_y <= shape0 canvas)%Z /\
  crop c =
    mkShape
      (py_slice_len (shape0 canvas) (y_start c) (y_start c + shape_y))
      (py_slice_len (shape1 canvas) (x_start c) (x_start c + shape_x)) /\
  source_image c = image_innitial /\
  source_image_resized c = canvas.

Lemma fp_crop_body_inv (y_steps x_steps i j : Z)
    (st st' : Z * list CropComponent) :
  (0 <= i < y_steps)%Z -> (0 <= j < x_steps)%Z ->
  Forall (fun c => exists row col,
            (0 <= row < y_steps)%Z /\ (0 <= col < x_steps)%Z /\
            crop_at row col c) (snd st) ->
  Fp.crop_body image_innitial canvas shape_x shape_y koef_x koef_y i j st
  = Ok st' ->
  Forall (fun c => exists row col,
            (0 <= row < y_steps)%Z /\ (0 <= col < x_steps)%Z /\
            crop_at row col c) (snd st').
Proof.
  intros Hi Hj Hst H. destruct st as [count acc]. unfold Fp.crop_body in H.
  destruct (Fp.start shape_x j koef_x) as [xs|] eqn:Hx; [|discriminate].
  destruct (Fp.start shape_y i koef_y) as [ys|] eqn:Hy; [|discriminate].
  cbn [bind] in H.
  destruct (Z.ltb_spec (shape1 canvas) (xs + shape_x));
    [injection H as <-; exact Hst|].
  destruct (Z.ltb_spec (shape0 canvas) (ys + shape_y));
    [injection H as <-; exact Hst|].
  injection H as <-. cbn [snd] in *. apply Forall_app. split; [exact Hst|].
  constructor; [|constructor]. exists i, j. unfold crop_at.
  cbn [x_start y_start crop source_image source_image_resized
       CropComponent_init].
  repeat split; trivial; lia.
Qed.

Lemma fp_crop_loops_inv (y_steps x_steps : Z)
    (st : Z * list CropComponent) :
  Fp.crop_loops image_innitial canvas shape_x shape_y koef_x koef_y
    y_steps x_steps = Ok st ->
  Forall (fun c => exists row col,
            (0 <= row < y_steps)%Z /\ (0 <= col < x_steps)%Z /\
            crop_at row col c) (snd st).
Proof.
  unfold Fp.crop_loops.
  apply foldM_invariant
    with (P := fun st => Forall (fun c => exists row col,
                 (0 <= row < y_steps)%Z /\ (0 <= col < x_steps)%Z /\
                 crop_at row col c) (snd st)); [|constructor].
  intros s i s' Hi Hs. apply py_range_In in Hi.
  apply foldM_invariant
    with (P := fun st => Forall (fun c => exists row col,
                 (0 <= row < y_steps)%Z /\ (0 <= col < x_steps)%Z /\
                 crop_at row col c) (snd st)); [|exact Hs].
  intros s0 j s0' Hj Hs0. apply py_range_In in Hj.
  now apply fp_crop_body_inv.
Qed.

End FpTiler.

Lemma fp_get_crops_xy_inv (image_full : Shape)
    (shape_x shape_y overlap_x overlap_y : Z) (crops : list CropComponent) :
  Fp.get_crops_xy image_full shape_x shape_y overlap_x overlap_y = Ok crops ->
  exists koef_x koef_y y_steps x_steps y_new x_new st,
    Fp.cross_koef overlap_x = Ok koef_x /\
    Fp.cross_koef overlap_y = Ok koef_y /\
    Fp.steps (shape0 image_full) shape_y koef_y = Ok y_steps /\
    Fp.steps (shape1 image_full) shape_x koef_x = Ok x_steps /\
    Fp.new_dim y_steps shape_y koef_y = Ok y_new /\
    Fp.new_dim x_steps shape_x koef_x = Ok x_new /\
    Fp.crop_loops image_full (mkShape y_new x_new) shape_x shape_y
      koef_x koef_y y_steps x_steps = Ok st /\
    crops = snd st.
Proof.
  unfold Fp.get_crops_xy. intros H.
  destruct (Fp.cross_koef overlap_x) as [kx|] eqn:Hkx; [|discriminate].
  destruct (Fp.cross_koef overlap_y) as [ky|] eqn:Hky; [|discriminate].
  cbn [bind] in H.
  destruct (Fp.steps (shape0 image_full) shape_y ky) as [ys|] eqn:Hys;
    [|discriminate].
  destruct (Fp.steps (shape1 image_full) shape_x kx) as [xs|] eqn:Hxs;
    [|discriminate].
  cbn [bind] in H.
  destruct (Fp.new_dim ys shape_y ky) as [yn|] eqn:Hyn; [|discriminate].
  destruct (Fp.new_dim xs shape_x kx) as [xn|] eqn:Hxn; [|discriminate].
  cbn [bind] in H.
  destruct (cv2_resize image_full xn yn) as [cv|] eqn:Hc; [|discriminate].
  apply cv2_resize_shape in Hc. subst cv. cbn [bind] in H.
  destruct (Fp.crop_loops _ _ _ _ _ _ _ _) as [st|] eqn:Hl; [|discriminate].
  injection H as <-.
  exists kx, ky, ys, xs, yn, xn, st. repeat split; trivial.
Qed.



(** The same configuration in binary64: the second crop starts at
    int(480.75) = 480, where rounding would give 481. *)
Lemma get_crops_xy_offset_not_rounded_binary64 :
  exists crops c p,
    Fp.get_crops_xy (mkShape 1000 1500) 641 641 25 25 = Ok crops /\
    nth_error crops 1 = Some c /\
    x_start c = 480%Z /\
    Fp.int_mul_float (641 * 1) (Fp.dec 3 4) = Ok p /\
    Fp.cross_koef 25 = Ok (Fp.dec 3 4) /\
    Fp.py_round p = Ok 481%Z.
Proof.
  eexists. eexists. eexists. split; [vm_compute; reflexivity|].
  split; [reflexivity|]. repeat split; vm_compute; reflexivity.
Qed.

(** Truncation acts on the float, not on the exact product: with 80%
    overlap the stride [1 - 80 / 100] is the float just below 0.2, so the
    second tile of width 100 starts at int(19.999999999999996) = 19,
    where the exact product 100 * 0.2 would give 20. *)
Lemma start_follows_the_float :
  exists koef,
    Fp.cross_koef 80 = Ok koef /\
    Fp.start 100 1 koef = Ok 19%Z /\
    start 100 1 (cross_koef 80) = 20%Z.
Proof.
  eexists. split; [vm_compute; reflexivity|]. split; vm_compute; reflexivity.
Qed.

(** Nor is the number of steps that of exact arithmetic: a 130x130 image
    with tiles of 100 and 70% overlap has (130 - 100) / (100 * 0.3) = 1
    exactly, but the float 100 * (1 - 70 / 100) is just above 30, the
    quotient just below 1, and the code makes one step and one crop. *)
Lemma steps_follow_the_float :
  exists koef c,
    Fp.cross_koef 70 = Ok koef /\
    Fp.steps 130 100 koef = Ok 1%Z /\
    steps 130 100 (cross_koef 70) = Ok 2%Z /\
    Fp.get_crops_xy (mkShape 130 130) 100 100 70 70 = Ok [c].
Proof.
  eexists. eexists. split; [vm_compute; reflexivity|].
  repeat split; vm_compute; reflexivity.
Qed.

(** ** Crop sizes *)

(** Not a negative finite number. *)
Definition fp_nonneg (x : Fp.float) : Prop :=
  match x with
  | S754_finite true _ _ => False
  | _ => True
  end.

Lemma binary_round_aux_nonneg (prec emax : Z) (mx ex : Z) (lx : location) :
  fp_nonneg (binary_round_aux prec emax false mx ex lx).
Proof.
  unfold binary_round_aux.
  destruct (shr_fexp prec emax mx ex lx) as [mrs' e'].
  destruct (shr_fexp prec emax _ e' loc_Exact) as [mrs'' e''].
  destruct (shr_m mrs''); cbn; trivial.
  destruct (Z.leb _ _); exact I.
Qed.

Lemma fp_float_of_int_nonneg (z : Z) (x : Fp.float) :
  (0 <= z)%Z -> Fp.float_of_int z = Ok x -> fp_nonneg x.
Proof.
  intros Hz. unfold Fp.float_of_int, binary_normalize.
  destruct z as [|p|p]; [| |lia].
  - intros H. injection H as <-. exact I.
  - unfold binary_round. destruct (shl_align p 0 _) as [mz ez].
    pose proof (binary_round_aux_nonneg 53 1024 (Zpos mz) ez loc_Exact) as Hn.
    destruct (binary_round_aux 53 1024 false (Zpos mz) ez loc_Exact);
      intros H; try discriminate; now injection H as <-.
Qed.

Lemma fp_mul_nonneg (x y : Fp.float) :
  fp_nonneg x -> fp_nonneg y -> fp_nonneg (Fp.b64_mul x y).
Proof.
  destruct x as [sx|sx| |sx mx ex], y as [sy|sy| |sy my ey]; cbn; trivial.
  destruct sx, sy; try contradiction. intros _ _.
  apply binary_round_aux_nonneg.
Qed.

Lemma fp_py_int_nonneg (x : Fp.float) (z : Z) :
  fp_nonneg x -> Fp.py_int x = Ok z -> (0 <= z)%Z.
Proof.
  destruct x as [s|s| |s m e]; unfold Fp.py_int, fp_nonneg; intros Hx H;
    try discriminate.
  - injection H as <-. lia.
  - destruct s; [contradiction|]. injection H as <-.
    destruct (Z.leb_spec 0 e).
    + pose proof (Z.pow_nonneg 2 e ltac:(lia)). destruct (2 ^ e)%Z; lia.
    + apply Z.quot_pos; [lia|]. apply Z.pow_pos_nonneg; lia.
Qed.

Lemma fp_start_nonneg (shape j : Z) (koef : Fp.float) (z : Z) :
  (0 <= shape)%Z -> (0 <= j)%Z -> fp_nonneg koef ->
  Fp.start shape j koef = Ok z -> (0 <= z)%Z.
Proof.
  intros Hs Hj Hk. unfold Fp.start, Fp.int_mul_float.
  destruct (Fp.float_of_int (shape * j)) as [x|] eqn:Ex; [|discriminate].
  cbn [bind]. apply fp_py_int_nonneg, fp_mul_nonneg; [|exact Hk].
  apply (@fp_float_of_int_nonneg (shape * j)); [nia | exact Ex].
Qed.

Definition koef_nonnegb (overlap : Z) : bool :=
  match Fp.cross_koef overlap with
  | Ok (S754_finite true _ _) => false
  | Ok _ => true
  | Raise _ => false
  end.

(** The stride of an overlap between 0 and 100 per cent: each of the 101
    values is computed. *)
Lemma fp_cross_koef_nonneg (overlap : Z) (koef : Fp.float) :
  (0 <= overlap <= 100)%Z ->
  Fp.cross_koef overlap = Ok koef -> fp_nonneg koef.
Proof.
  intros Ho H.
  assert (Hall : forallb koef_nonnegb (py_range 101) = true)
    by (vm_compute; reflexivity).
  rewrite forallb_forall in Hall.
  specialize (Hall overlap ltac:(apply py_range_In; lia)).
  unfold koef_nonnegb in Hall. rewrite H in Hall.
  destruct koef as [s|s| |[|] m e]; cbn in *; trivial; discriminate.
Qed.

(** X19: for tile sizes that are not negative and integer overlaps from
    0 to 100 per cent every crop has exactly the requested size, shape_y
    rows by shape_x columns, and all crops carry the same original image
    and the same resized canvas, whose size is what [round] gave for the
    strides and step counts computed in binary64. *)
Theorem get_crops_xy_crop_size_binary64
    (image_full : Shape) (shape_x shape_y overlap_x overlap_y : Z)
    (crops : list CropComponent) (c : CropComponent) :
  (0 <= shape_x)%Z -> (0 <= shape_y)%Z ->
  (0 <= overlap_x <= 100)%Z -> (0 <= overlap_y <= 100)%Z ->
  Fp.get_crops_xy image_full shape_x shape_y overlap_x overlap_y = Ok crops ->
  In c crops ->
  crop c = mkShape shape_y shape_x /\
  source_image c = image_full /\
  exists koef_x koef_y y_steps x_steps y_new x_new,
    Fp.cross_koef overlap_x = Ok koef_x /\
    Fp.cross_koef overlap_y = Ok koef_y /\
    Fp.steps (shape0 image_full) shape_y koef_y = Ok y_steps /\
    Fp.steps (shape1 image_full) shape_x koef_x = Ok x_steps /\
    Fp.new_dim y_steps shape_y koef_y = Ok y_new /\
    Fp.new_dim x_steps shape_x koef_x = Ok x_new /\
    source_image_resized c = mkShape y_new x_new.
Proof.
  intros Hsx Hsy Hox Hoy H Hin.
  destruct (fp_get_crops_xy_inv _ _ _ _ _ H)
    as (kx & ky & ys & xs & yn & xn & st & Hkx & Hky & Hys & Hxs & Hyn & Hxn &
        Hl & ->).
  pose proof (fp_crop_loops_inv _ _ _ _ _ _ _ _ Hl) as HF.
  rewrite Forall_forall in HF.
  destruct (HF c Hin)
    as (row & col & Hr & Hcl & Hx & Hy & Hbx & Hby & Hcrop & Himg & Hsrc).
  pose proof (@fp_start_nonneg shape_x col kx (x_start c) Hsx ltac:(lia)
                (fp_cross_koef_nonneg Hox Hkx) Hx) as Hx0.
  pose proof (@fp_start_nonneg shape_y row ky (y_start c) Hsy ltac:(lia)
                (fp_cross_koef_nonneg Hoy Hky) Hy) as Hy0.
  rewrite !py_slice_len_inside in Hcrop by assumption.
  split; [exact Hcrop|]. split; [exact Himg|].
  exists kx, ky, ys, xs, yn, xn. repeat split; trivial.
Qed.

Lemma get_crops_xy_crop_size_binary64_witness :
  mkShape 641 641 = mkShape 641 641 /\
  mkShape 1000 1500 = mkShape 1000 1500 /\
  exists koef_x koef_y y_steps x_steps y_new x_new,
    Fp.cross_koef 25 = Ok koef_x /\
    Fp.cross_koef 25 = Ok koef_y /\
    Fp.steps 1000 641 koef_y = Ok y_steps /\
    Fp.steps 1500 641 koef_x = Ok x_steps /\
    Fp.new_dim y_steps 641 koef_y = Ok y_new /\
    Fp.new_dim x_steps 641 koef_x = Ok x_new /\
    mkShape 641 1122 = mkShape y_new x_new.
Proof.
  apply (@get_crops_xy_crop_size_binary64
           (mkShape 1000 1500) 641 641 25 25
           [ CropComponent_init (mkShape 1000 1500) (mkShape 641 1122)
               (mkShape 641 641) 1 0 0;
             CropComponent_init (mkShape 1000 1500) (mkShape 641 1122)
               (mkShape 641 641) 2 480 0 ]
           (CropComponent_init (mkShape 1000 1500) (mkShape 641 1122)
              (mkShape 641 641) 2 480 0)).
  - lia.
  - lia.
  - lia.
  - lia.
  - vm_compute. reflexivity.
  - right. left. reflexivity.
Defined.

(** ** The order of the crops *)

(** Row-major order of grid positions (row, col). *)
Definition pos_lt (p q : Z * Z) : Prop :=
  (fst p < fst q)%Z \/ (fst p = fst q /\ (snd p < snd q)%Z).

Lemma pos_lt_trans (p q r : Z * Z) : pos_lt p q -> pos_lt q r -> pos_lt p r.
Proof. unfold pos_lt. lia. Qed.

Section FpRowMajor.

Variables (image_innitial canvas : Shape).
Variables (shape_x shape_y : Z) (koef_x koef_y : Fp.float).
Variables (y_steps x_steps : Z).









End FpRowMajor.


